(** * halmos: the exploration and solving orchestrator of [halmos/__main__.py]

    A shallow embedding of the frontier explorer ([_compute_frontier],
    [get_frontier]), the target invocation runner ([run_target_contract]),
    the solver completion callback and the per-test driver ([run_test]),
    together with the properties the specification states about them.

    The interpreter, the solver, the path encoder and the state hasher are
    external collaborators of this file of the program: they are the fields
    of the class [Collaborators], and the calls the orchestrator makes on
    the solver and on the pools are recorded in an event log. Generators
    are modelled by the effects they produce in program order, together
    with the number of values their consumer takes from them. Console
    output is kept where a statement is about it and left out elsewhere. *)

From Stdlib Require Import Ascii.
From stdpp Require Import gmap strings list fin_maps.

Set Default Proof Using "Type".

(* ===================================================================== *)
(** ** Exit codes, solver outputs and test results                        *)
(* ===================================================================== *)

(** [class Exitcode(Enum)] *)
Inductive Exitcode := PASS | COUNTEREXAMPLE | TIMEOUT | STUCK | REVERT_ALL | EXCEPTION.

(** [Exitcode.X.value] *)
Definition value (e : Exitcode) : Z :=
  match e with
  | PASS => 0
  | COUNTEREXAMPLE => 1
  | TIMEOUT => 2
  | STUCK => 3
  | REVERT_ALL => 4
  | EXCEPTION => 5
  end%Z.

(** z3's [CheckSatResult]; [str] prints the three values as below. *)
Inductive CheckSatResult := sat | unsat | unknown.

Definition str (r : CheckSatResult) : string :=
  match r with
  | sat => "sat"
  | unsat => "unsat"
  | unknown => "unknown"
  end%string.

#[global] Instance CheckSatResult_eq_dec : EqDecision CheckSatResult.
Proof. solve_decision. Defined.

(** A counterexample model: the assignment is kept as text, [is_valid]
    is the flag the callback branches on. *)
Record Model := { is_valid : bool; assignment : string }.

(** [SolverOutput] as consumed here: [result], [model], [unsat_core],
    [path_id]. *)
Record SolverOutput := {
  result : CheckSatResult;
  model : option Model;
  unsat_core : list string;
  so_path_id : nat
}.

(** [TestResult]; the fields after [exitcode] default to [None]. *)
Record TestResult := {
  name : string;
  exitcode : Z;
  num_models : option nat;
  models : option (list Model);
  num_paths : option (nat * nat * nat);
  num_bounded_loops : option nat
}.

(** [Counter(str(m.result) for m in ctx.solver_outputs)[key]] *)
Definition counter (solver_outputs : list SolverOutput) (key : string) : nat :=
  length (filter (λ m, str (result m) = key) solver_outputs).

(** The classification at the end of [run_test]: the [if]/[elif] chain over
    the counter, the list of stuck paths and the number of normal paths. *)
Definition classify (solver_outputs : list SolverOutput)
    (num_stuck normal : nat) : Exitcode :=
  if 0 <? counter solver_outputs "sat" then COUNTEREXAMPLE
  else if 0 <? counter solver_outputs "unknown" then TIMEOUT
  else if 0 <? num_stuck then STUCK
  else if normal =? 0 then REVERT_ALL
  else PASS.

(* ===================================================================== *)
(** ** Symbolic values, call contexts and execution states                *)
(* ===================================================================== *)

(** Names of z3 symbols. Only the block timestamp symbol is created in this
    file of the program: [f"halmos_block_timestamp_depth{depth}_{uid()}"]. *)
Inductive SymName :=
  | TimestampName (depth uid : nat)
  | OtherName (s : string).

(** The z3 terms built here: constants, [BitVec(name, w)], [ZeroExt(k, t)]. *)
Inductive Term :=
  | Con (n : Z)
  | BitVec (nm : SymName) (w : nat)
  | ZeroExt (k : nat) (t : Term).

(** Path conditions: [a >= b] on bit-vectors, and the conditions the
    interpreter accumulated, which stay opaque. *)
Inductive Cond :=
  | Ge (a b : Term)
  | Accumulated (id : nat).

#[global] Instance SymName_eq_dec : EqDecision SymName.
Proof. solve_decision. Defined.
#[global] Instance Term_eq_dec : EqDecision Term.
Proof. solve_decision. Defined.
#[global] Instance Cond_eq_dec : EqDecision Cond.
Proof. solve_decision. Defined.

(** [FunctionInfo(contract_name, name, sig, selector)] *)
Record FunctionInfo := {
  contract_name : string;
  fname : string;
  sig : string;
  selector : string
}.

#[global] Instance FunctionInfo_eq_dec : EqDecision FunctionInfo.
Proof. solve_decision. Defined.

#[global] Instance FunctionInfo_countable : Countable FunctionInfo.
Proof.
  refine (inj_countable'
    (λ f, (contract_name f, fname f, sig f, selector f))
    (λ t, let '(c, n, s, x) := t in
          {| contract_name := c; fname := n; sig := s; selector := x |}) _).
  by intros [].
Defined.

(** What [context.output.error] can hold: nothing, the [FailCheatcode]
    exception, or any other error (a revert, an interpreter fault). *)
Inductive OutputError := NoError | FailCheatcode | OtherError (msg : string).

(** A call context with the accessors consumed here: [message.fun_info],
    [output.error], [is_stuck()] / [get_stuck_reason()] (a stuck context
    carries its reason) and [subcalls()]. *)
#[warnings="-register-all"]
Inductive CallContext :=
  mkCallContext (fun_info : FunctionInfo) (error : OutputError)
                (stuck_reason : option string) (calls : list CallContext).

Definition message_fun_info (c : CallContext) : FunctionInfo :=
  match c with mkCallContext f _ _ _ => f end.
Definition output_error (c : CallContext) : OutputError :=
  match c with mkCallContext _ e _ _ => e end.
Definition get_stuck_reason (c : CallContext) : option string :=
  match c with mkCallContext _ _ r _ => r end.
Definition subcalls (c : CallContext) : list CallContext :=
  match c with mkCallContext _ _ _ l => l end.

Definition is_stuck (c : CallContext) : bool :=
  match get_stuck_reason c with Some _ => true | None => false end.

(** Python truthiness of [output.error]. *)
Definition truthy (e : OutputError) : bool :=
  match e with NoError => false | _ => true end.

(** [is_global_fail_set(context)] *)
Fixpoint is_global_fail_set (context : CallContext) : bool :=
  match context with
  | mkCallContext _ e _ l =>
      let hevm_fail := match e with FailCheatcode => true | _ => false end in
      hevm_fail || existsb is_global_fail_set l
  end.

(** Contract addresses ([Address]); only compared with [eq]. *)
Definition Address := Z.

(** The execution state [Exec] with the attributes read or written here.
    [code] lists the keys of [ex.code] in iteration order; [machine] stands
    for everything else the interpreter keeps (storage, balances, program
    counter), which only the external collaborators look at. *)
Record Exec := {
  code : list Address;
  context : CallContext;
  path : list Cond;
  block_timestamp : Term;
  call_sequence : list CallContext;
  machine : nat
}.

(** Exceptions, as far as the handlers here tell them apart. All of them are
    instances of [Exception]. *)
Inductive Exn :=
  | RaisedException (type_name msg : string)
  | UnboundLocalError (var : string)
  | KeyError (key : string)
  | ShutdownError
  | CancelledError.

#[global] Instance Exn_eq_dec : EqDecision Exn.
Proof. solve_decision. Defined.

(* ===================================================================== *)
(** ** Configuration and external collaborators                           *)
(* ===================================================================== *)

(** The options of [HalmosConfig] that the code below branches on. *)
Record HalmosConfig := {
  debug : bool;
  verbose : nat;
  early_exit : bool;
  width : nat;
  no_status : bool;
  minimal_json_output : bool;
  print_blocked_states : bool
}.

(** Build metadata of one contract: [contract_json["methodIdentifiers"]] in
    dictionary order and the [stateMutability] entry of [get_abi]. *)
Record ContractJson := {
  method_identifiers : list (string * string);
  abi : gmap string string
}.

(** What one pass through the [try] block of [run_target_contract] does,
    as decided by the collaborators it calls:
    - [SEVM(args, fun_info)] or [mk_solver(args)] raises, so [solver] is not
      assigned in this iteration;
    - [Path], [extend_path], [mk_calldata] or [process_dyn_params] raises,
      after [mk_calldata] has called [ex.new_symbol_id] [symbols] times;
    - [mk_calldata] calls [ex.new_symbol_id] [symbols] times, the three
      symbols and the message are built (taken not to raise), and
      [sevm.run_message] yields [outs], each state after the given number of
      [uid()] calls of the interpreter, and then returns or raises. *)
Inductive Attempt :=
  | RaisesBeforeSolver (e : Exn)
  | RaisesInPrepare (symbols : nat) (e : Exn)
  | Runs (symbols : nat) (outs : list (nat * Exec)) (fin : option Exn).

(** An SMT query, as text. *)
Definition SMTQuery := string.

(** [PathContext(args, path_id, query, solving_ctx)] *)
Record PathContext := { pc_path_id : nat; query : SMTQuery }.

(** The interfaces consumed from the interpreter, the state hasher, the
    build metadata and the solver. *)
Class Collaborators := {
  (** address of the test contract *)
  FOUNDRY_TEST : Address;
  (** [ex.code[addr].contract_name], empty when unknown *)
  contract_name_at : Exec → Address → string;
  (** [BuildOut().get_by_name(contract_name, filename)] *)
  get_by_name : string → ContractJson;
  (** the interpreter driven on one function of one target *)
  attempt : Exec → Address → FunctionInfo → Attempt;
  (** [ex.path_slice()], as the state it leaves behind *)
  path_slice : Exec → Exec;
  (** [snapshot_state(ex, include_path=True).unwrap()] *)
  snapshot_state : Exec → string;
  (** [ex.is_panic_of(args.panic_error_codes)] *)
  is_panic_of : Exec → bool;
  (** [ex.path.to_smt2(args)] *)
  to_smt2 : list Cond → SMTQuery;
  (** [solve_low_level(path_ctx)] *)
  solve_low_level : PathContext → SolverOutput;
  (** [rendered_trace], [rendered_call_sequence], [hexify(ex.path)] *)
  rendered_trace : CallContext → string;
  rendered_call_sequence : list CallContext → string;
  hexify : list Cond → string;
  (** the verbosity levels of [halmos.constants] *)
  VERBOSITY_TRACE_COUNTEREXAMPLE : nat;
  VERBOSITY_TRACE_PATHS : nat
}.

(** [get_state_id(ex)] *)
Definition get_state_id `{Collaborators} (ex : Exec) : string := snapshot_state ex.

(* ===================================================================== *)
(** ** Target invocation runner: [run_target_contract]                    *)
(* ===================================================================== *)

(** The effects of the generator [run_target_contract], in program order:
    a debug print, [mk_solver], a call of [uid()], a call of
    [ex.new_symbol_id()] on the input state, a [yield], the error log of the
    handler, and [reset(solver)]. *)
Inductive Action :=
  | APrintSkip (fun_name mutability : string)
  | ACreateSolver (s : nat)
  | AUid
  | ANewSymbolId
  | AYield (ex : Exec)
  | AError (fun_sig : string) (e : Exn)
  | AReset (s : nat).

(** How a generator stops: it returns, or an exception leaves it. *)
Inductive Status := Exhausted | Raised (e : Exn).

(** [fun_sig.split("(")[0]] *)
Fixpoint split_paren (fun_sig : string) : string :=
  match fun_sig with
  | EmptyString => EmptyString
  | String c rest =>
      if Ascii.eqb c "("%char then EmptyString else String c (split_paren rest)
  end.

(** The states [sevm.run_message] yields, each preceded by its [uid()] calls. *)
Definition yield_from (outs : list (nat * Exec)) : list Action :=
  flat_map (λ o, replicate (fst o) AUid ++ [AYield (snd o)]) outs.

(** The names of [tx_origin], [msg_sender] and [msg_value]: each f-string
    calls [uid()] and then [ex.new_symbol_id()]. *)
Definition name_symbols : list Action :=
  [AUid; ANewSymbolId; AUid; ANewSymbolId; AUid; ANewSymbolId].

(** The [except Exception as err] handler: log, then [continue]. *)
Definition handler (fun_sig : string) (fin : option Exn) : list Action :=
  match fin with
  | Some e => [AError fun_sig e]
  | None => []
  end.

Section run_target_contract.
Context `{Collaborators}.
Variable args : HalmosConfig.
Variable ex : Exec.
Variable addr : Address.
(** the local [contract_name] *)
Variable cname : string.
Variable abi : gmap string string.

(** The [for fun_sig, fun_selector in method_identifiers.items()] loop.
    [solver] is the local variable of that name: unbound ([None]) when the
    generator starts, and kept from one iteration to the next. [fresh] is
    the identity the next solver session gets. The [finally] clause runs
    [reset(solver)]: with [solver] unbound this raises [UnboundLocalError],
    which leaves the generator. *)
Fixpoint loop (methods : list (string * string)) (solver : option nat)
    (fresh : nat) : list Action * Status :=
  match methods with
  | [] => ([], Exhausted)
  | (fun_sig, fun_selector) :: rest =>
      let fun_name := split_paren fun_sig in
      let fun_info := {| contract_name := cname; fname := fun_name;
                         sig := fun_sig; selector := fun_selector |} in
      match abi !! fun_sig with
      | None => ([], Raised (KeyError fun_sig))
      | Some state_mutability =>
          if bool_decide (state_mutability ∈ ["pure"; "view"]) then
            let '(tr, st) := loop rest solver fresh in
            ((if debug args then [APrintSkip fun_name state_mutability] else [])
               ++ tr, st)
          else
            match attempt ex addr fun_info with
            | RaisesBeforeSolver e =>
                match solver with
                | None => ([AError fun_sig e], Raised (UnboundLocalError "solver"))
                | Some s =>
                    let '(tr, st) := loop rest solver fresh in
                    (AError fun_sig e :: AReset s :: tr, st)
                end
            | RaisesInPrepare symbols e =>
                let '(tr, st) := loop rest (Some fresh) (S fresh) in
                (ACreateSolver fresh :: replicate symbols ANewSymbolId
                   ++ AError fun_sig e :: AReset fresh :: tr, st)
            | Runs symbols outs fin =>
                let '(tr, st) := loop rest (Some fresh) (S fresh) in
                (ACreateSolver fresh :: replicate symbols ANewSymbolId
                   ++ name_symbols ++ yield_from outs
                   ++ handler fun_sig fin ++ AReset fresh :: tr, st)
            end
      end
  end.

End run_target_contract.

(** [run_target_contract(ctx, ex, addr)], run until it stops by itself. *)
Definition run_target_contract `{Collaborators} (args : HalmosConfig)
    (ex : Exec) (addr : Address) : list Action * Status :=
  let cname := contract_name_at ex addr in
  if bool_decide (cname = EmptyString) then
    ([], Raised (RaisedException "ValueError" "couldn't find the contract name"))
  else
    let contract_json := get_by_name cname in
    loop args ex addr cname (abi contract_json)
         (method_identifiers contract_json) None 0.

(* ===================================================================== *)
(** ** Frontier explorer: [_compute_frontier] and [get_frontier]          *)
(* ===================================================================== *)

(** The mutable fields of [ContractContext] used by the explorer. *)
Record ContractContext := {
  frontier_states : gmap nat (list Exec);
  visited : gset string;
  probes_reported : gset FunctionInfo
}.

(** What the explorer writes to the console. *)
Inductive Output :=
  | StuckError (depth : nat) (addr : Address) (reason : option string)
  | AssertionFailure (fun_info : FunctionInfo) (sequence : list CallContext).

(** The state the explorer runs in: the contract context, the console, the
    [uid()] supply and the symbol counters of the cached states.
    [ex.new_symbol_id()] advances a counter inside the state object [ex],
    and the states [run_target_contract] is given are the objects held in
    the cache; [symbol_ids] keeps, for the state at a position (depth,
    index) of the cache, how often it was called since the state was cached.
    [next_uid] is the value the next call of [uid()] returns. *)
Record World := {
  ctx : ContractContext;
  next_uid : nat;
  symbol_ids : gmap (nat * nat) nat;
  console : list Output
}.

(** How far a generator has come: still running, suspended for good at a
    [yield] because its consumer stopped asking, or stopped. *)
Inductive GenStatus := Running | Suspended | Stopped (s : Status).

(** A generator of [Exec] under execution: the world it acts on, the states
    it has yielded so far, and how many more states its consumer will take
    ([None]: the consumer exhausts it). *)
Record Gen := {
  world : World;
  yielded : list Exec;
  credit : option nat;
  status : GenStatus
}.

Definition set_world (f : World → World) (g : Gen) : Gen :=
  {| world := f (world g); yielded := yielded g; credit := credit g;
     status := status g |}.

Definition set_status (s : GenStatus) (g : Gen) : Gen :=
  {| world := world g; yielded := yielded g; credit := credit g; status := s |}.

Definition set_ctx (f : ContractContext → ContractContext) (w : World) : World :=
  {| ctx := f (ctx w); next_uid := next_uid w; symbol_ids := symbol_ids w;
     console := console w |}.

(** [print] / [error] *)
Definition emit (o : Output) (w : World) : World :=
  {| ctx := ctx w; next_uid := next_uid w; symbol_ids := symbol_ids w;
     console := console w ++ [o] |}.

(** Modelled from the spec: [uid()] of [halmos.utils], which is not part of
    this file of the program. The specification calls it a process-wide
    uniqueness counter: a call returns the current value and moves on to
    the next. [draw_uid] is the effect of one call. *)
Definition draw_uid (w : World) : World :=
  {| ctx := ctx w; next_uid := S (next_uid w); symbol_ids := symbol_ids w;
     console := console w |}.

(** One call of [new_symbol_id()] on the state cached at [position]. *)
Definition draw_symbol_id (position : nat * nat) (w : World) : World :=
  {| ctx := ctx w; next_uid := next_uid w;
     symbol_ids := <[position := S (default 0 (symbol_ids w !! position))]> (symbol_ids w);
     console := console w |}.

(** [yield ex]: hand [ex] to the consumer; the generator is resumed only if
    the consumer asks for more. *)
Definition do_yield (ex : Exec) (g : Gen) : Gen :=
  let credit' := Nat.pred <$> credit g in
  {| world := world g; yielded := yielded g ++ [ex]; credit := credit';
     status := if bool_decide (credit' = Some 0) then Suspended else status g |}.

(** A [for] loop inside a generator: the body runs for each element for as
    long as the generator is running. *)
Definition for_each {A} (body : A → Gen → Gen) (l : list A) (g : Gen) : Gen :=
  fold_left (λ g a, match status g with Running => body a g | _ => g end) l g.

(** [ctx.visited.add(post_id)] *)
Definition visited_add (post_id : string) (c : ContractContext) : ContractContext :=
  {| frontier_states := frontier_states c;
     visited := {[post_id]} ∪ visited c;
     probes_reported := probes_reported c |}.

(** [ctx.probes_reported.add(fun_info)] *)
Definition probes_add (fun_info : FunctionInfo) (c : ContractContext) : ContractContext :=
  {| frontier_states := frontier_states c;
     visited := visited c;
     probes_reported := {[fun_info]} ∪ probes_reported c |}.

(** [frontier_states[depth] = next_exs] *)
Definition frontier_set (depth : nat) (next_exs : list Exec)
    (c : ContractContext) : ContractContext :=
  {| frontier_states := <[depth := next_exs]> (frontier_states c);
     visited := visited c;
     probes_reported := probes_reported c |}.

(** [next_exs.append(post_ex)], where [next_exs] is the list object stored
    at [frontier_states[depth]]. *)
Definition frontier_append (depth : nat) (post_ex : Exec)
    (c : ContractContext) : ContractContext :=
  {| frontier_states := alter (λ next_exs, next_exs ++ [post_ex]) depth (frontier_states c);
     visited := visited c;
     probes_reported := probes_reported c |}.

(** The three writes to a successful [post_ex] before it joins the frontier:
    its call sequence, its block timestamp and the timestamp constraint. *)
Definition timestamp_of (depth uid : nat) : Term :=
  ZeroExt 192 (BitVec (TimestampName depth uid) 64).

Definition advance (depth uid : nat) (pre_ex : Exec) (subcall : CallContext)
    (post_ex : Exec) : Exec :=
  {| code := code post_ex;
     context := context post_ex;
     path := path post_ex ++ [Ge (timestamp_of depth uid) (block_timestamp pre_ex)];
     block_timestamp := timestamp_of depth uid;
     call_sequence := call_sequence pre_ex ++ [subcall];
     machine := machine post_ex |}.

Section frontier.
Context `{Collaborators}.
Variable args : HalmosConfig.

(** The body of [for post_ex in post_exs]. *)
Definition process_post (depth : nat) (pre_ex : Exec) (addr : Address)
    (post_ex : Exec) (g : Gen) : Gen :=
  let subcall := context post_ex in
  if is_stuck subcall then
    set_world (emit (StuckError depth addr (get_stuck_reason subcall))) g
  else if truthy (output_error subcall) then
    if negb (is_panic_of post_ex) then g
    else
      let fun_info := message_fun_info (context post_ex) in
      if bool_decide (fun_info ∈ probes_reported (ctx (world g))) then g
      else
        set_world (λ w, emit (AssertionFailure fun_info (call_sequence post_ex))
                          (set_ctx (probes_add fun_info) w)) g
  else
    let post_ex := path_slice post_ex in
    let post_id := get_state_id post_ex in
    if bool_decide (post_id ∈ visited (ctx (world g))) then g
    else
      let uid := next_uid (world g) in
      let post_ex := advance depth uid pre_ex subcall post_ex in
      do_yield post_ex
        (set_world (λ w, set_ctx (frontier_append depth post_ex)
                           (draw_uid (set_ctx (visited_add post_id) w))) g).

(** One effect of the generator [post_exs] as seen by the loop over it;
    [idx] is the position of [pre_ex] in the frontier of the previous
    depth. *)
Definition on_action (depth idx : nat) (pre_ex : Exec) (addr : Address)
    (a : Action) (g : Gen) : Gen :=
  match a with
  | AYield post_ex => process_post depth pre_ex addr post_ex g
  | AUid => set_world draw_uid g
  | ANewSymbolId => set_world (draw_symbol_id (depth - 1, idx)) g
  | _ => g
  end.

(** The body of [for addr in pre_ex.code]. *)
Definition process_addr (depth idx : nat) (pre_ex : Exec) (addr : Address)
    (g : Gen) : Gen :=
  if bool_decide (addr = FOUNDRY_TEST) then g
  else
    let '(post_exs, fin) := run_target_contract args pre_ex addr in
    let g := for_each (on_action depth idx pre_ex addr) post_exs g in
    match status g, fin with
    | Running, Raised e => set_status (Stopped (Raised e)) g
    | _, _ => g
    end.

(** The body of [for idx, pre_ex in enumerate(curr_exs)]. *)
Definition process_pre (depth : nat) (entry : nat * Exec) (g : Gen) : Gen :=
  let '(idx, pre_ex) := entry in
  for_each (process_addr depth idx pre_ex) (code pre_ex) g.

(** [enumerate(curr_exs)] *)
Definition enumerate {A} (l : list A) : list (nat * A) := imap pair l.

(** [_compute_frontier(ctx, depth)], consumed by a consumer that takes
    [credit] states. [frontier_states[depth - 1]] raises [KeyError] when
    the previous depth is not cached (for [depth = 0] the key is [-1]). *)
Definition _compute_frontier (w : World) (depth : nat) (credit : option nat) : Gen :=
  let start := {| world := w; yielded := []; credit := credit; status := Running |} in
  match depth with
  | 0 => set_status (Stopped (Raised (KeyError "-1"))) start
  | S prev =>
      match frontier_states (ctx w) !! prev with
      | None => set_status (Stopped (Raised (KeyError "depth - 1"))) start
      | Some curr_exs =>
          let g := set_world (set_ctx (frontier_set depth [])) start in
          let g := for_each (process_pre depth) (enumerate curr_exs) g in
          match status g with
          | Running => set_status (Stopped Exhausted) g
          | _ => g
          end
      end
  end.

(** What [get_frontier] returns: the cached list itself, or a generator
    that has not started yet. *)
Inductive Iterable :=
  | Cached (frontier : list Exec)
  | Lazy (depth : nat).

(** [get_frontier(ctx, depth)] *)
Definition get_frontier (c : ContractContext) (depth : nat) : Iterable :=
  match frontier_states c !! depth with
  | Some frontier => Cached frontier
  | None => Lazy depth
  end.

(** Iterating over what [get_frontier] returned, taking [credit] states. *)
Definition iterate (w : World) (it : Iterable) (credit : option nat) : Gen :=
  match it with
  | Cached frontier =>
      {| world := w;
         yielded := match credit with None => frontier | Some k => take k frontier end;
         credit := credit;
         status := Stopped Exhausted |}
  | Lazy depth => _compute_frontier w depth credit
  end.

(** A run of the explorer: the [get_frontier] requests the tests of one
    contract make one after the other, each with the number of states its
    consumer takes. *)
Definition explore (w : World) (requests : list (nat * option nat)) : World :=
  fold_left (λ w r, world (iterate w (get_frontier (ctx w) (fst r)) (snd r)))
            requests w.

(** [run_contract]: the frontier and the visited set start from the setup
    state. *)
Definition initial_world (setup_ex : Exec) (uid : nat) : World :=
  {| ctx := {| frontier_states := {[0 := [setup_ex]]};
               visited := {[get_state_id setup_ex]};
               probes_reported := ∅ |};
     next_uid := uid;
     symbol_ids := ∅;
     console := [] |}.

End frontier.

(* ===================================================================== *)
(** ** Solver pipeline: the completion callback of [run_test]             *)
(* ===================================================================== *)

(** The two pool objects a test owns, by the attribute they are reached
    through: [ctx.solving_ctx.executor] and [ctx.thread_pool]. *)
Inductive Pool := solving_ctx_executor | thread_pool.

(** Calls on the pools and on the solver, in the order they are made. *)
Inductive PoolEvent :=
  | Submit (path_ctx : PathContext)
  | SolveLowLevel (path_ctx : PathContext)
  | Shutdown (pool : Pool) (wait : bool).

(** Console output of the callback and of the driver. *)
Inductive Message :=
  | DebugIgnored
  | ErrorSolving (e : Exn)
  | WarnUnknown (r : CheckSatResult)
  | PrintTrace (path_id : nat) (trace : string)
  | PrintCounterexample (m : Model)
  | WarnInvalid (m : Model)
  | PrintSequence (sequence : string)
  | DebugShuttingDown
  | PrintAborting
  | WarnIncomplete
  | WarnRevertAll.

(** The mutable part of [FunctionContext]. [executor_is_shutdown] is what
    [ctx.solving_ctx.executor.is_shutdown()] returns. *)
Record FunctionContext := {
  solver_outputs : list SolverOutput;
  valid_counterexamples : list Model;
  invalid_counterexamples : list Model;
  unsat_cores : list (list string);
  traces : gmap nat string;
  call_sequences : gmap nat string;
  executor_is_shutdown : bool;
  pool_log : list PoolEvent;
  messages : list Message
}.

Definition say (m : Message) (c : FunctionContext) : FunctionContext :=
  {| solver_outputs := solver_outputs c;
     valid_counterexamples := valid_counterexamples c;
     invalid_counterexamples := invalid_counterexamples c;
     unsat_cores := unsat_cores c; traces := traces c;
     call_sequences := call_sequences c;
     executor_is_shutdown := executor_is_shutdown c;
     pool_log := pool_log c; messages := messages c ++ [m] |}.

Definition record_event (e : PoolEvent) (c : FunctionContext) : FunctionContext :=
  {| solver_outputs := solver_outputs c;
     valid_counterexamples := valid_counterexamples c;
     invalid_counterexamples := invalid_counterexamples c;
     unsat_cores := unsat_cores c; traces := traces c;
     call_sequences := call_sequences c;
     executor_is_shutdown := executor_is_shutdown c;
     pool_log := pool_log c ++ [e]; messages := messages c |}.

(** [ctx.solver_outputs.append(solver_output)] *)
Definition append_solver_output (o : SolverOutput) (c : FunctionContext) : FunctionContext :=
  {| solver_outputs := solver_outputs c ++ [o];
     valid_counterexamples := valid_counterexamples c;
     invalid_counterexamples := invalid_counterexamples c;
     unsat_cores := unsat_cores c; traces := traces c;
     call_sequences := call_sequences c;
     executor_is_shutdown := executor_is_shutdown c;
     pool_log := pool_log c; messages := messages c |}.

(** [ctx.append_unsat_core(core)] *)
Definition append_unsat_core (core : list string) (c : FunctionContext) : FunctionContext :=
  {| solver_outputs := solver_outputs c;
     valid_counterexamples := valid_counterexamples c;
     invalid_counterexamples := invalid_counterexamples c;
     unsat_cores := unsat_cores c ++ [core]; traces := traces c;
     call_sequences := call_sequences c;
     executor_is_shutdown := executor_is_shutdown c;
     pool_log := pool_log c; messages := messages c |}.

(** [ctx.valid_counterexamples.append(model)] *)
Definition append_valid (m : Model) (c : FunctionContext) : FunctionContext :=
  {| solver_outputs := solver_outputs c;
     valid_counterexamples := valid_counterexamples c ++ [m];
     invalid_counterexamples := invalid_counterexamples c;
     unsat_cores := unsat_cores c; traces := traces c;
     call_sequences := call_sequences c;
     executor_is_shutdown := executor_is_shutdown c;
     pool_log := pool_log c; messages := messages c |}.

(** [ctx.invalid_counterexamples.append(model)] *)
Definition append_invalid (m : Model) (c : FunctionContext) : FunctionContext :=
  {| solver_outputs := solver_outputs c;
     valid_counterexamples := valid_counterexamples c;
     invalid_counterexamples := invalid_counterexamples c ++ [m];
     unsat_cores := unsat_cores c; traces := traces c;
     call_sequences := call_sequences c;
     executor_is_shutdown := executor_is_shutdown c;
     pool_log := pool_log c; messages := messages c |}.

(** [ctx.solving_ctx.executor.shutdown(wait=False)]: the call is logged and
    [is_shutdown()] answers [True] from then on. *)
Definition executor_shutdown_nowait (c : FunctionContext) : FunctionContext :=
  {| solver_outputs := solver_outputs c;
     valid_counterexamples := valid_counterexamples c;
     invalid_counterexamples := invalid_counterexamples c;
     unsat_cores := unsat_cores c; traces := traces c;
     call_sequences := call_sequences c;
     executor_is_shutdown := true;
     pool_log := pool_log c ++ [Shutdown solving_ctx_executor false];
     messages := messages c |}.

(** [ctx.traces[path_id] = t] and [ctx.call_sequences[path_id] = s] *)
Definition set_trace (path_id : nat) (t : string) (c : FunctionContext) : FunctionContext :=
  {| solver_outputs := solver_outputs c;
     valid_counterexamples := valid_counterexamples c;
     invalid_counterexamples := invalid_counterexamples c;
     unsat_cores := unsat_cores c; traces := <[path_id := t]> (traces c);
     call_sequences := call_sequences c;
     executor_is_shutdown := executor_is_shutdown c;
     pool_log := pool_log c; messages := messages c |}.

Definition set_call_sequence (path_id : nat) (s : string) (c : FunctionContext) : FunctionContext :=
  {| solver_outputs := solver_outputs c;
     valid_counterexamples := valid_counterexamples c;
     invalid_counterexamples := invalid_counterexamples c;
     unsat_cores := unsat_cores c; traces := traces c;
     call_sequences := <[path_id := s]> (call_sequences c);
     executor_is_shutdown := executor_is_shutdown c;
     pool_log := pool_log c; messages := messages c |}.

(** A completed [Future]: cancelled, finished with an exception, or
    finished with a solver output. *)
Inductive Future :=
  | FCancelled
  | FException (e : Exn)
  | FResult (o : SolverOutput).

(** How a call of the callback ends. *)
Inductive Outcome := Returned | Threw (e : Exn).

Section callback.
Context `{Collaborators}.
Variable args : HalmosConfig.

(** The tail of the callback for a model: trace, counterexample lists,
    early exit, call sequence. Dictionary lookups raise [KeyError]. *)
Definition triage_model (path_id : nat) (m : Model)
    (c : FunctionContext) : FunctionContext * Outcome :=
  let traced :=
    if VERBOSITY_TRACE_COUNTEREXAMPLE <=? verbose args then
      match traces c !! path_id with
      | Some t => inr (say (PrintTrace path_id t) c)
      | None => inl c
      end
    else inr c in
  match traced with
  | inl c => (c, Threw (KeyError "traces[path_id]"))
  | inr c =>
      let c :=
        if is_valid m then
          let c := append_valid m (say (PrintCounterexample m) c) in
          if early_exit args then executor_shutdown_nowait (say DebugShuttingDown c)
          else c
        else append_invalid m (say (WarnInvalid m) c) in
      match call_sequences c !! path_id with
      | None => (c, Threw (KeyError "call_sequences[path_id]"))
      | Some sequence =>
          if bool_decide (sequence = EmptyString) then (c, Returned)
          else (say (PrintSequence sequence) c, Returned)
      end
  end.

(** [solve_end_to_end_callback(future)]. [future.exception()] raises
    [CancelledError] on a cancelled future; [future.result()] raises the
    exception the future finished with. *)
Definition solve_end_to_end_callback (future : Future)
    (c : FunctionContext) : FunctionContext * Outcome :=
  match future with
  | FCancelled => (c, Threw CancelledError)
  | FException ShutdownError =>
      ((if debug args then say DebugIgnored c else c), Returned)
  | FException e => (say (ErrorSolving e) c, Threw e)
  | FResult solver_output =>
      if executor_is_shutdown c then (c, Returned)
      else
        let c := append_solver_output solver_output c in
        if bool_decide (result solver_output = unsat) then
          match unsat_core solver_output with
          | [] => (c, Returned)
          | core => (append_unsat_core core c, Returned)
          end
        else
          match model solver_output with
          | None => (say (WarnUnknown (result solver_output)) c, Returned)
          | Some m => triage_model (so_path_id solver_output) m c
          end
  end.

End callback.

(* ===================================================================== *)
(** ** Per-test driver: [run_test]                                        *)
(* ===================================================================== *)

(** The locals of [run_test] together with the function context. *)
Record Driver := {
  fctx : FunctionContext;
  normal : nat;
  potential : nat;
  stuck : list (nat * Exec * option string);
  submitted_futures : list PathContext;
  path_id : nat
}.

Definition set_fctx (f : FunctionContext → FunctionContext) (d : Driver) : Driver :=
  {| fctx := f (fctx d); normal := normal d; potential := potential d;
     stuck := stuck d; submitted_futures := submitted_futures d;
     path_id := path_id d |}.

Definition set_path_id (n : nat) (d : Driver) : Driver :=
  {| fctx := fctx d; normal := normal d; potential := potential d;
     stuck := stuck d; submitted_futures := submitted_futures d;
     path_id := n |}.

Definition incr_potential (d : Driver) : Driver :=
  {| fctx := fctx d; normal := normal d; potential := S (potential d);
     stuck := stuck d; submitted_futures := submitted_futures d;
     path_id := path_id d |}.

Definition incr_normal (d : Driver) : Driver :=
  {| fctx := fctx d; normal := S (normal d); potential := potential d;
     stuck := stuck d; submitted_futures := submitted_futures d;
     path_id := path_id d |}.

Definition stuck_append (x : nat * Exec * option string) (d : Driver) : Driver :=
  {| fctx := fctx d; normal := normal d; potential := potential d;
     stuck := stuck d ++ [x]; submitted_futures := submitted_futures d;
     path_id := path_id d |}.

Definition futures_append (p : PathContext) (d : Driver) : Driver :=
  {| fctx := fctx d; normal := normal d; potential := potential d;
     stuck := stuck d; submitted_futures := submitted_futures d ++ [p];
     path_id := path_id d |}.

(** What happens while [run_test] runs, in the order it happens: the
    exploration generator hands over its next path ([submit_raises] tells
    whether [ctx.thread_pool.submit] would raise [ShutdownError] for it), or
    a submitted future completes and its callback fires. *)
Inductive Tick :=
  | NextPath (ex : Exec) (submit_raises : bool)
  | Completes (future : Future).

(** The line feed of the f-strings. *)
Definition newline : string := String (ascii_of_nat 10) EmptyString.

(** Control flow of one pass through the loop body. *)
Inductive Flow := Continue | Break.

Section run_test.
Context `{Collaborators}.
Variable args : HalmosConfig.

(** The branch for a potential assertion violation. *)
Definition submit_potential (ex : Exec) (submit_raises : bool)
    (d : Driver) : Driver * Flow :=
  let d := incr_potential d in
  let d :=
    if VERBOSITY_TRACE_COUNTEREXAMPLE <=? verbose args
    then set_fctx (set_trace (path_id d) (rendered_trace (context ex))) d
    else d in
  let d := set_fctx (set_call_sequence (path_id d)
                       (rendered_call_sequence (call_sequence ex))) d in
  let path_ctx := {| pc_path_id := path_id d; query := to_smt2 (path ex) |} in
  if submit_raises then
    ((if debug args then set_fctx (say PrintAborting) d else d), Break)
  else
    (futures_append path_ctx (set_fctx (record_event (Submit path_ctx)) d),
     Continue).

(** The branch for a stuck path. *)
Definition check_stuck (ex : Exec) (d : Driver) : Driver :=
  let path_ctx := {| pc_path_id := path_id d; query := to_smt2 (path ex) |} in
  let d := set_fctx (record_event (SolveLowLevel path_ctx)) d in
  let solver_output := solve_low_level path_ctx in
  if bool_decide (result solver_output ≠ unsat) then
    let d := stuck_append (path_id d, ex, get_stuck_reason (context ex)) d in
    if print_blocked_states args
    then set_fctx (set_trace (path_id d)
                     (hexify (path ex) +:+ newline +:+ rendered_trace (context ex))) d
    else d
  else d.

(** The [if] / [elif] chain on the path's output, then the width check. *)
Definition triage_path (ex : Exec) (submit_raises : bool)
    (d : Driver) : Driver * Flow :=
  let error_output := output_error (context ex) in
  let panic_found := is_panic_of ex in
  let '(d, flow) :=
    if panic_found || is_global_fail_set (context ex) then
      submit_potential ex submit_raises d
    else if is_stuck (context ex) then (check_stuck ex d, Continue)
    else if negb (truthy error_output) then (incr_normal d, Continue)
    else (d, Continue) in
  match flow with
  | Break => (d, Break)
  | Continue =>
      if negb (width args =? 0) && (width args <=? path_id d)
      then (set_fctx (say WarnIncomplete) d, Break)
      else (d, Continue)
  end.

(** The body of [for path_id, ex in enumerate(exs)]; [idx] is the index
    [enumerate] pairs with [ex]. *)
Definition loop_body (idx : nat) (ex : Exec) (submit_raises : bool)
    (d : Driver) : Driver * Flow :=
  let d := set_path_id idx d in
  if executor_is_shutdown (fctx d) then
    ((if debug args then set_fctx (say PrintAborting) d else d), Break)
  else triage_path ex submit_raises d.

(** A callback firing on a worker thread. *)
Definition fire (future : Future) (d : Driver) : Driver :=
  set_fctx (λ c, fst (solve_end_to_end_callback args future c)) d.

(** The exploration loop under a schedule; returns the driver when the
    loop is left, with the part of the schedule still to come. *)
Fixpoint explore_paths (schedule : list Tick) (idx : nat) (d : Driver)
    : Driver * list Tick :=
  match schedule with
  | [] => (d, [])
  | Completes future :: rest => explore_paths rest idx (fire future d)
  | NextPath ex submit_raises :: rest =>
      match loop_body idx ex submit_raises d with
      | (d, Break) => (d, rest)
      | (d, Continue) => explore_paths rest (S idx) d
      end
  end.

(** After the loop: the futures still in flight complete (the generator is
    not resumed), until [ctx.thread_pool.shutdown(wait=True)] returns. *)
Definition drain (rest : list Tick) (d : Driver) : Driver :=
  let d := fold_left (λ d t, match t with
                             | Completes future => fire future d
                             | NextPath _ _ => d
                             end) rest d in
  set_fctx (record_event (Shutdown thread_pool true)) d.

(** The exit code chosen at the end of [run_test]. *)
Definition verdict (d : Driver) : Exitcode :=
  classify (solver_outputs (fctx d)) (length (stuck d)) (normal d).

Definition initial_driver (c : FunctionContext) : Driver :=
  {| fctx := c; normal := 0; potential := 0; stuck := [];
     submitted_futures := []; path_id := 0 |}.

(** The progress display between the loop and the shutdown: unless
    [args.no_status] is set, [run_test] polls until the number of completed
    futures among [submitted_futures] equals [potential]. Every submitted
    future completes, so the wait ends exactly when each potential path was
    submitted; [potential] is incremented before [submit] is tried, so a
    refused submission leaves the two numbers apart for good. *)
Definition status_loop_ends (d : Driver) : bool :=
  no_status args || (length (submitted_futures d) =? potential d).

(** [run_test(ctx)]: the loop, the progress display, the drain, the verdict
    and the result. Returns the final driver state next to the
    [TestResult], and [None] when the progress display never ends. *)
Definition run_test (funsig : string) (bounded_loops : nat)
    (c : FunctionContext) (schedule : list Tick) : option (Driver * TestResult) :=
  let '(d, rest) := explore_paths schedule 0 (initial_driver c) in
  let num_execs := path_id d + 1 in
  if negb (status_loop_ends d) then None
  else
    let d := drain rest d in
    let exitcode := verdict d in
    let d := match exitcode with
             | REVERT_ALL => set_fctx (say WarnRevertAll) d
             | _ => d
             end in
    let num_cexes := length (valid_counterexamples (fctx d))
                     + length (invalid_counterexamples (fctx d)) in
    if minimal_json_output args then
      Some (d, {| name := funsig; exitcode := value exitcode;
                  num_models := Some num_cexes; models := None; num_paths := None;
                  num_bounded_loops := None |})
    else
      Some (d, {| name := funsig; exitcode := value exitcode;
                  num_models := Some num_cexes;
                  models := Some (valid_counterexamples (fctx d)
                                  ++ invalid_counterexamples (fctx d));
                  num_paths := Some (num_execs, normal d, length (stuck d));
                  num_bounded_loops := Some bounded_loops |}).

End run_test.

(* ===================================================================== *)
(** ** Vocabulary of the statements                                       *)
(* ===================================================================== *)

(** Some collected solver output has result [r]. *)
Definition has (r : CheckSatResult) (outs : list SolverOutput) : Prop :=
  ∃ m, m ∈ outs ∧ result m = r.

(** The callback recorded nothing: the solver outputs, the counterexample
    lists, the unsat cores, the pool calls and the shutdown flag of [c'] are
    those of [c]. *)
Definition nothing_recorded (c c' : FunctionContext) : Prop :=
  solver_outputs c' = solver_outputs c ∧
  valid_counterexamples c' = valid_counterexamples c ∧
  invalid_counterexamples c' = invalid_counterexamples c ∧
  unsat_cores c' = unsat_cores c ∧
  pool_log c' = pool_log c ∧
  executor_is_shutdown c' = executor_is_shutdown c.

(** Number of paths the exploration generator hands over in a schedule. *)
Fixpoint count_paths (schedule : list Tick) : nat :=
  match schedule with
  | [] => 0
  | NextPath _ _ :: rest => S (count_paths rest)
  | Completes _ :: rest => count_paths rest
  end.

(** In a trace of [run_target_contract], every solver session is reset
    before the next one is created and before the trace ends; [session] is
    the session currently open. A [reset] of an earlier solver while no
    session is open is harmless. *)
Fixpoint sessions_released (session : option nat) (tr : list Action) : bool :=
  match tr with
  | [] => match session with None => true | Some _ => false end
  | ACreateSolver s :: tr =>
      match session with None => sessions_released (Some s) tr | Some _ => false end
  | AReset s :: tr =>
      match session with
      | Some s' => (s =? s') && sessions_released None tr
      | None => sessions_released None tr
      end
  | _ :: tr => sessions_released session tr
  end.

(** An effect that neither creates nor resets a solver. *)
Definition quiet (a : Action) : Prop :=
  match a with ACreateSolver _ | AReset _ => False | _ => True end.

(** [s] joined the frontier at [depth] as a successor of [p]: its call
    sequence is that of [p] with one call context appended, its block
    timestamp is a timestamp symbol of that depth, and the last condition of
    its path is [s.timestamp >= p.timestamp] (z3's [>=] on bit-vectors). *)
Definition linked (depth : nat) (p s : Exec) : Prop :=
  (∃ c, call_sequence s = call_sequence p ++ [c]) ∧
  (∃ uid, block_timestamp s = timestamp_of depth uid) ∧
  last (path s) = Some (Ge (block_timestamp s) (block_timestamp p)).

(** Depth 0 of the cache is the setup state alone, and every state cached
    at a depth [d + 1] is linked to a state cached at depth [d]. *)
Definition well_linked (setup_ex : Exec) (w : World) : Prop :=
  frontier_states (ctx w) !! 0 = Some [setup_ex] ∧
  ∀ d l s, frontier_states (ctx w) !! S d = Some l → s ∈ l →
    ∃ lp p, frontier_states (ctx w) !! d = Some lp ∧ p ∈ lp ∧ linked (S d) p s.

(** The timestamp symbols of the states cached at one depth [d + 1] are
    pairwise different, and all were named by [uid()] values already used. *)
Definition fresh_names (w : World) : Prop :=
  ∀ d l, frontier_states (ctx w) !! S d = Some l →
    NoDup (block_timestamp <$> l) ∧
    Forall (λ s, ∃ uid, block_timestamp s = timestamp_of (S d) uid ∧ uid < next_uid w) l.

(** One entry of the admission record: the depth a state was cached at, the
    fingerprint that was looked up in the visited set for it, and the state
    as it was cached. *)
Definition Admission : Type := nat * string * Exec.

(** [e] records what the code did: the setup state with its fingerprint at
    depth 0, or a successful post-state [raw] of a predecessor, sliced,
    fingerprinted, and then advanced. *)
Definition admitted_by_code `{Collaborators} (setup_ex : Exec) (e : Admission) : Prop :=
  (e = (0, get_state_id setup_ex, setup_ex)) ∨
  (∃ depth pre_ex raw uid,
     is_stuck (context raw) = false ∧
     truthy (output_error (context raw)) = false ∧
     e = (S depth, get_state_id (path_slice raw),
          advance (S depth) uid pre_ex (context raw) (path_slice raw))).

(** The cache and the visited set are accounted for by a record of
    admissions without a repeated fingerprint. *)
Definition deduplicated `{Collaborators} (setup_ex : Exec) (w : World) : Prop :=
  ∃ log : list Admission,
    NoDup ((λ e, e.1.2) <$> log) ∧
    Forall (admitted_by_code setup_ex) log ∧
    visited (ctx w) = list_to_set ((λ e, e.1.2) <$> log) ∧
    (∀ e, e ∈ log → is_Some (frontier_states (ctx w) !! e.1.1)) ∧
    (∀ d l, frontier_states (ctx w) !! d = Some l →
       l = (λ e, e.2) <$> filter (λ e, e.1.1 = d) log).

(* ===================================================================== *)
(** ** A small instance of the collaborators, for the examples            *)
(* ===================================================================== *)

Module Demo.

Definition info (s : string) : FunctionInfo :=
  {| contract_name := "Vault"; fname := split_paren s; sig := s;
     selector := "00000000" |}.

Definition ok_call (s : string) : CallContext :=
  mkCallContext (info s) NoError None [].
Definition stuck_call (s : string) : CallContext :=
  mkCallContext (info s) (OtherError "fault") (Some "not supported") [].

(** A state with two contracts, the test contract at [1] and a target at
    [2]; [machine] tells states apart. *)
Definition state (c : CallContext) (m : nat) : Exec :=
  {| code := [1; 2]%Z; context := c; path := []; block_timestamp := Con 1;
     call_sequence := []; machine := m |}.

Definition setup_ex : Exec := state (ok_call "setUp()") 0.

Definition json : ContractJson :=
  {| method_identifiers := [("deposit()", "d0e30db0"); ("total()", "2ddbd13a");
                            ("withdraw()", "3ccfd60b")];
     abi := {["deposit()" := "payable"; "total()" := "view";
              "withdraw()" := "nonpayable"]} |}.

(** [deposit()] leads to state 1; [withdraw()] leads to state 1 again and
    to state 2. *)
Definition stub_attempt (ex : Exec) (addr : Address) (f : FunctionInfo) : Attempt :=
  if bool_decide (sig f = "deposit()")
  then Runs 0 [(0, state (ok_call "deposit()") 1)] None
  else Runs 1 [(0, state (ok_call "withdraw()") 1);
               (1, state (ok_call "withdraw()") 2)] None.

Definition unsat_output (p : PathContext) : SolverOutput :=
  {| result := unsat; model := None; unsat_core := []; so_path_id := pc_path_id p |}.
Definition unknown_output (p : PathContext) : SolverOutput :=
  {| result := unknown; model := None; unsat_core := []; so_path_id := pc_path_id p |}.

#[local] Instance stub : Collaborators := {|
  FOUNDRY_TEST := 1%Z;
  contract_name_at := λ _ _, "Vault";
  get_by_name := λ _, json;
  attempt := stub_attempt;
  path_slice := λ ex, ex;
  snapshot_state := λ ex, if machine ex =? 0 then "s0"
                          else if machine ex =? 1 then "s1" else "s2";
  is_panic_of := λ _, false;
  to_smt2 := λ _, "(check-sat)";
  solve_low_level := unknown_output;
  rendered_trace := λ _, "trace";
  rendered_call_sequence := λ _, EmptyString;
  hexify := λ _, EmptyString;
  VERBOSITY_TRACE_COUNTEREXAMPLE := 2;
  VERBOSITY_TRACE_PATHS := 4
|}.

(** The same collaborators, except that creating the solver for one
    function fails ([mk_solver] raises). *)
Definition solver_failure : Exn := RaisedException "Z3Exception" "out of memory".

Definition failing_attempt (bad : string) (ex : Exec) (addr : Address)
    (f : FunctionInfo) : Attempt :=
  if bool_decide (sig f = bad) then RaisesBeforeSolver solver_failure
  else stub_attempt ex addr f.

Definition failing (bad : string) : Collaborators := {|
  FOUNDRY_TEST := 1%Z;
  contract_name_at := λ _ _, "Vault";
  get_by_name := λ _, json;
  attempt := failing_attempt bad;
  path_slice := λ ex, ex;
  snapshot_state := λ ex, if machine ex =? 0 then "s0"
                          else if machine ex =? 1 then "s1" else "s2";
  is_panic_of := λ _, false;
  to_smt2 := λ _, "(check-sat)";
  solve_low_level := unknown_output;
  rendered_trace := λ _, "trace";
  rendered_call_sequence := λ _, EmptyString;
  hexify := λ _, EmptyString;
  VERBOSITY_TRACE_COUNTEREXAMPLE := 2;
  VERBOSITY_TRACE_PATHS := 4
|}.

(** What the explorer caches at depth 1 from [setup_ex]. *)
Definition frontier1 : list Exec :=
  [advance 1 3 setup_ex (ok_call "deposit()") (state (ok_call "deposit()") 1);
   advance 1 8 setup_ex (ok_call "withdraw()") (state (ok_call "withdraw()") 2)].

Definition args : HalmosConfig :=
  {| debug := false; verbose := 0; early_exit := true; width := 0;
     no_status := true; minimal_json_output := false;
     print_blocked_states := false |}.

Definition args_minimal : HalmosConfig :=
  {| debug := false; verbose := 0; early_exit := true; width := 0;
     no_status := true; minimal_json_output := true;
     print_blocked_states := false |}.

Definition args_status : HalmosConfig :=
  {| debug := false; verbose := 0; early_exit := true; width := 0;
     no_status := false; minimal_json_output := false;
     print_blocked_states := false |}.

Definition fail_call (s : string) : CallContext :=
  mkCallContext (info s) NoError None [mkCallContext (info "fail()") FailCheatcode None []].

Definition empty_fctx : FunctionContext :=
  {| solver_outputs := []; valid_counterexamples := [];
     invalid_counterexamples := []; unsat_cores := []; traces := ∅;
     call_sequences := {[0 := EmptyString]}; executor_is_shutdown := false;
     pool_log := []; messages := [] |}.

Definition cex : Model := {| is_valid := true; assignment := "x = 1" |}.

Definition sat_output : SolverOutput :=
  {| result := sat; model := Some cex; unsat_core := []; so_path_id := 0 |}.

End Demo.

From stdpp Require Import sorting.

(* ===================================================================== *)
(** ** Further vocabulary                                                 *)
(* ===================================================================== *)

(** A set shutdown flag is explained by a recorded output that is not
    unsat. *)
Definition flag_explained (c : FunctionContext) : Prop :=
  executor_is_shutdown c = true → ∃ o, o ∈ solver_outputs c ∧ result o ≠ unsat.

(** Every recorded output is unsat and no counterexample was recorded. *)
Definition only_unsat (c : FunctionContext) : Prop :=
  Forall (λ o, result o = unsat) (solver_outputs c) ∧
  valid_counterexamples c = [] ∧ invalid_counterexamples c = [].

(** Every future that completes in the schedule with a solver output has
    the result unsat. *)
Definition all_unsat (schedule : list Tick) : Prop :=
  Forall (λ t, match t with
               | Completes (FResult o) => result o = unsat
               | _ => True
               end) schedule.

(** The functions for which an assertion failure was printed, in order. *)
Definition reported (console : list Output) : list FunctionInfo :=
  omap (λ o, match o with AssertionFailure f _ => Some f | _ => None end) console.

(** Each probe was printed once, and the printed probes are the registry. *)
Definition probes_once (w : World) : Prop :=
  NoDup (reported (console w)) ∧
  probes_reported (ctx w) = list_to_set (reported (console w)).

(** [w'] extends [w]: nothing was taken out of the visited set or the probe
    registry, the uid supply did not go back, and the console only grew. *)
Definition extends (w w' : World) : Prop :=
  visited (ctx w) ⊆ visited (ctx w') ∧
  probes_reported (ctx w) ⊆ probes_reported (ctx w') ∧
  next_uid w ≤ next_uid w' ∧
  console w `prefix_of` console w'.

(** [x] is [c] or one of the calls below it. *)
Inductive in_call_tree (x : CallContext) : CallContext → Prop :=
  | tree_here : in_call_tree x x
  | tree_below f e r l c :
      c ∈ l → in_call_tree x c → in_call_tree x (mkCallContext f e r l).

(** Induction over a call tree, with the property available for every
    subcall. *)
Fixpoint CallContext_tree_ind (P : CallContext → Prop)
    (step : ∀ f e r l, Forall P l → P (mkCallContext f e r l))
    (c : CallContext) : P c :=
  match c with
  | mkCallContext f e r l =>
      step f e r l
        ((fix go (l : list CallContext) : Forall P l :=
            match l with
            | [] => @List.Forall_nil _ P
            | x :: l' => @List.Forall_cons _ P x l' (CallContext_tree_ind P step x) (go l')
            end) l)
  end.

(** The ways [run_target_contract] can stop. *)
Definition expected_stop (methods : list (string * string))
    (abi : gmap string string) (s : Status) : Prop :=
  s = Exhausted ∨
  s = Raised (RaisedException "ValueError" "couldn't find the contract name") ∨
  s = Raised (UnboundLocalError "solver") ∨
  ∃ fun_sig fun_selector,
    (fun_sig, fun_selector) ∈ methods ∧ abi !! fun_sig = None ∧
    s = Raised (KeyError fun_sig).

(* ===================================================================== *)
(** ** The setup phase: [setup]                                           *)
(* ===================================================================== *)

Section setup.
Context `{Collaborators}.

(** The first loop of [setup]: the paths of [setUp()] that ended without an
    error, each with its query, in the order the interpreter produced them.
    (The warnings and traces printed for the other paths are left out.) *)
Definition setup_exs_no_error (setup_exs_all : list Exec) : list (Exec * SMTQuery) :=
  omap (λ setup_ex,
          if truthy (output_error (context setup_ex)) then None
          else Some (setup_ex, to_smt2 (path setup_ex)))
       setup_exs_all.

(** The [for path_id, (ex, query) in enumerate(setup_exs_no_error)] loop of
    the third [match] case: solve each query, keep the paths whose result
    is not unsat, and [break] once two are kept. Returns the kept paths and
    the queries that were solved, in order. *)
Fixpoint keep_feasible (candidates : list (nat * (Exec * SMTQuery)))
    (setup_exs : list Exec) : list Exec * list PathContext :=
  match candidates with
  | [] => (setup_exs, [])
  | (path_id, (ex, query)) :: rest =>
      let path_ctx := {| pc_path_id := path_id; query := query |} in
      let solver_output := solve_low_level path_ctx in
      if bool_decide (result solver_output ≠ unsat) then
        let setup_exs := setup_exs ++ [ex] in
        if 1 <? length setup_exs then (setup_exs, [path_ctx])
        else let '(kept, solved) := keep_feasible rest setup_exs in
             (kept, path_ctx :: solved)
      else
        let '(kept, solved) := keep_feasible rest setup_exs in
        (kept, path_ctx :: solved)
  end.

(** The [match setup_exs_no_error] statement. *)
Definition feasible_setup_exs (no_error : list (Exec * SMTQuery))
    : list Exec * list PathContext :=
  match no_error with
  | [] => ([], [])
  | [(ex, _)] => ([ex], [])
  | _ => keep_feasible (enumerate no_error) []
  end.

(** [setup(ctx)] from the point where the test contract is deployed:
    [setup_sig] is the signature of the setup function (empty when the
    contract has none), [deployed] the state after [deploy_test], and
    [setup_exs_all] the paths [sevm.run] yields for the setup call.
    Returns the queries given to [solve_low_level] and the setup state or
    the [HalmosException] raised. *)
Definition setup (setup_sig : string) (deployed : Exec) (setup_exs_all : list Exec)
    : list PathContext * (Exn + Exec) :=
  if bool_decide (setup_sig = EmptyString) then ([], inr deployed)
  else
    let '(setup_exs, solved) := feasible_setup_exs (setup_exs_no_error setup_exs_all) in
    match setup_exs with
    | [] => (solved, inl (RaisedException "HalmosException"
                            ("No successful path found in " +:+ setup_sig)))
    | [setup_ex] => (solved, inr setup_ex)
    | _ => (solved, inl (RaisedException "HalmosException"
                           ("Multiple paths were found in " +:+ setup_sig)))
    end.

(** The error-free setup paths whose query is not unsat, with the
    identifier each query is solved under. *)
Definition feasible (candidates : list (nat * (Exec * SMTQuery))) : list Exec :=
  omap (λ c, let '(path_id, (ex, query)) := c in
             if bool_decide (result (solve_low_level
                                       {| pc_path_id := path_id; query := query |})
                             ≠ unsat)
             then Some ex else None)
       candidates.

End setup.

(* ===================================================================== *)
(** ** Choosing the setup function: [extract_setup]                       *)
(* ===================================================================== *)

(** Python's order on the tuples [(k, v)] of two strings: by [k], then by
    [v], each compared character by character. *)
Definition pair_leb (x y : string * string) : bool :=
  match String.compare x.1 y.1 with
  | Lt => true
  | Gt => false
  | Eq => String.leb x.2 y.2
  end.

Definition pair_le : relation (string * string) := λ x y, pair_leb x y = true.

#[global] Instance pair_le_dec x y : Decision (pair_le x y).
Proof. unfold pair_le. apply _. Defined.

(** [sorted(l)] for a list of such tuples (the order is total and
    antisymmetric, so the sorted list does not depend on the algorithm). *)
Definition sorted (l : list (string * string)) : list (string * string) :=
  merge_sort pair_le l.

(** [k == "setUp()" or k.startswith("setUpSymbolic(")] *)
Definition is_setup_sig (k : string) : bool :=
  String.eqb k "setUp()" || String.prefix "setUpSymbolic(" k.

(** [FunctionInfo()]: every field is [None], written here as the empty
    string; the code only tests [setup_info.sig] for truth. *)
Definition no_function : FunctionInfo :=
  {| contract_name := EmptyString; fname := EmptyString; sig := EmptyString;
     selector := EmptyString |}.

(** [extract_setup(ctx)], from [ctx.name] and [ctx.method_identifiers]. *)
Definition extract_setup (ctx_name : string)
    (methodIdentifiers : list (string * string)) : FunctionInfo :=
  let setup_sigs :=
    sorted (List.filter (λ kv, is_setup_sig kv.1) methodIdentifiers) in
  match last setup_sigs with
  | None => no_function
  | Some (setup_sig, setup_selector) =>
      {| contract_name := ctx_name; fname := split_paren setup_sig;
         sig := setup_sig; selector := setup_selector |}
  end.

(* ===================================================================== *)
(** ** Running the tests of a contract: [run_tests], [run_contract]       *)
(* ===================================================================== *)

(** How a call ends: with a value, with an exception, or not at all. *)
Inductive Run (A : Type) :=
  | Done (a : A)
  | Fails (e : Exn)
  | Hangs.
Arguments Done {A} a.
Arguments Fails {A} e.
Arguments Hangs {A}.

(** What the [try] block of [run_tests] meets for one test function:
    [with_devdoc] or the construction of the context raises, or [run_test]
    is called with the configuration of the test, a function context, and
    the paths and solver completions it will see. *)
Inductive TestAttempt :=
  | TestRaises (e : Exn)
  | TestRuns (test_config : HalmosConfig) (c : FunctionContext)
             (bounded_loops : nat) (schedule : list Tick).

(** [invariant_depth if funsig.startswith("invariant_") else 0] *)
Definition max_call_depth_of (invariant_depth : nat) (funsig : string) : nat :=
  if String.prefix "invariant_" funsig then invariant_depth else 0.

(** [TestResult(funsig, Exitcode.EXCEPTION.value)] *)
Definition exception_result (funsig : string) : TestResult :=
  {| name := funsig; exitcode := value EXCEPTION; num_models := None;
     models := None; num_paths := None; num_bounded_loops := None |}.

Section run_tests.
Context `{Collaborators}.

(** What happens inside the [try] block for a test function, given the
    maximal call depth computed for it. *)
Variable test_attempt : string → nat → TestAttempt.
(** [test_config.invariant_depth] of the configuration [with_devdoc] gives
    for a test function. *)
Variable invariant_depth : string → nat.

(** [run_tests(ctx, setup_ex, funsigs)]. [ctx.method_identifiers[funsig]]
    is outside the [try] block: a missing signature raises [KeyError]. *)
Fixpoint run_tests (method_identifiers : gmap string string)
    (funsigs : list string) (test_results : list TestResult)
    : Run (list TestResult) :=
  match funsigs with
  | [] => Done test_results
  | funsig :: rest =>
      match method_identifiers !! funsig with
      | None => Fails (KeyError funsig)
      | Some selector =>
          match test_attempt funsig (max_call_depth_of (invariant_depth funsig) funsig) with
          | TestRaises e =>
              run_tests method_identifiers rest
                        (test_results ++ [exception_result funsig])
          | TestRuns test_config c bounded_loops schedule =>
              match run_test test_config funsig bounded_loops c schedule with
              | None => Hangs
              | Some (_, test_result) =>
                  run_tests method_identifiers rest (test_results ++ [test_result])
              end
          end
      end
  end.

(** What the [try] block of [run_contract] meets: [with_devdoc] or
    [mk_solver] raises before [setup_solver] is assigned; [setup(setup_ctx)]
    raises while deploying the test contract or preparing the call; or the
    setup call runs and yields its paths. *)
Inductive SetupAttempt :=
  | SetupFailsBeforeSolver (e : Exn)
  | SetupRaises (e : Exn)
  | SetupRuns (deployed : Exec) (setup_exs_all : list Exec).

(** The result of [run_contract]: the solver calls and resets it made, the
    world the tests started from (if any), and the test results. *)
Record ContractRun := {
  setup_trace : list Action;
  setup_solved : list PathContext;
  start : option World;
  results : Run (list TestResult)
}.

(** [run_contract(ctx)]. In the [except] block [reset(setup_solver)] finds
    [setup_solver] unbound when the exception came before its assignment.
    After the tests, [reset(setup_solver)] is reached only if [run_tests]
    returned. ([setup_ex.path_slice()] is taken not to raise.) *)
Definition run_contract (ctx_name : string) (method_identifiers : list (string * string))
    (funsigs : list string) (attempt : SetupAttempt) (uid : nat) : ContractRun :=
  let setup_info := extract_setup ctx_name method_identifiers in
  match attempt with
  | SetupFailsBeforeSolver e =>
      {| setup_trace := [AError (sig setup_info) e]; setup_solved := []; start := None;
         results := Fails (UnboundLocalError "setup_solver") |}
  | SetupRaises e =>
      {| setup_trace := [ACreateSolver 0; AError (sig setup_info) e; AReset 0];
         setup_solved := []; start := None; results := Done [] |}
  | SetupRuns deployed setup_exs_all =>
      match setup (sig setup_info) deployed setup_exs_all with
      | (solved, inl e) =>
          {| setup_trace := [ACreateSolver 0; AError (sig setup_info) e; AReset 0];
             setup_solved := solved; start := None; results := Done [] |}
      | (solved, inr setup_ex) =>
          let setup_ex := path_slice setup_ex in
          let test_results := run_tests (list_to_map method_identifiers) funsigs [] in
          {| setup_trace := ACreateSolver 0 ::
                            match test_results with Done _ => [AReset 0] | _ => [] end;
             setup_solved := solved;
             start := Some (initial_world setup_ex uid);
             results := test_results |}
      end
  end.

End run_tests.

(* ===================================================================== *)
(** ** The command line entry point: [_main]                              *)
(* ===================================================================== *)

(** [MainResult]; the dictionary of test results keeps insertion order. *)
Record MainResult := {
  mr_exitcode : Z;
  mr_test_results : option (list (string * list TestResult))
}.

(** One item of [build_output_iterator], with what [_main] computes from
    it: whether the contract name matches the contract regex, the contract
    type, the signatures matching the test regex, the contract path, and
    how [run_contract] ends for it. *)
Record ContractEntry := {
  name_matches : bool;
  contract_type : string;
  found_funsigs : list string;
  contract_path : string;
  contract_outcome : Run (list TestResult)
}.

(** The totals [_main] keeps, with the map of results. *)
Record Totals := {
  total_passed : Z;
  total_failed : Z;
  total_found : Z;
  test_results_map : list (string * list TestResult)
}.

(** [sum(r.exitcode == PASS for r in test_results)] *)
Definition num_passed (test_results : list TestResult) : Z :=
  Z.of_nat (length (List.filter (λ r, (exitcode r =? value PASS)%Z) test_results)).

(** [contract_path in test_results_map] *)
Definition path_in_map (p : string) (m : list (string * list TestResult)) : bool :=
  existsb (String.eqb p) (m.*1).

(** The [for ... in build_output_iterator(build_out)] loop of [_main].
    (Reading the contract JSON, [import_libs] and [with_natspec] are taken
    not to raise.) *)
Fixpoint main_loop (entries : list ContractEntry) (t : Totals) : Run Totals :=
  match entries with
  | [] => Done t
  | entry :: rest =>
      if negb (name_matches entry) then main_loop rest t
      else if negb (String.eqb (contract_type entry) "contract") then main_loop rest t
      else
        let num_found := Z.of_nat (length (found_funsigs entry)) in
        if (num_found =? 0)%Z then main_loop rest t
        else
          match contract_outcome entry with
          | Fails e => Fails e
          | Hangs => Hangs
          | Done test_results =>
              let passed := num_passed test_results in
              let failed := (num_found - passed)%Z in
              if path_in_map (contract_path entry) (test_results_map t)
              then Fails (RaisedException "ValueError" "already exists")
              else main_loop rest
                     {| total_passed := (total_passed t + passed)%Z;
                        total_failed := (total_failed t + failed)%Z;
                        total_found := (total_found t + num_found)%Z;
                        test_results_map :=
                          test_results_map t ++ [(contract_path entry, test_results)] |}
          end
  end.

(** What [_main] returns, and whether it went through [on_exit] (which
    shuts the executors down and writes the JSON output). *)
Record MainRun := {
  main_result : MainResult;
  on_exit_called : bool
}.

(** [_main(_args)], from the loaded configuration on: [version] is
    [args.version], [build_exitcode] the return code of [forge build],
    [parse_fails] whether [parse_build_out] raised. *)
Definition _main (version : bool) (build_exitcode : Z) (parse_fails : bool)
    (entries : list ContractEntry) : Run MainRun :=
  let early code := Done {| main_result := {| mr_exitcode := code;
                                             mr_test_results := None |};
                            on_exit_called := false |} in
  if version then early 0%Z
  else if negb (build_exitcode =? 0)%Z then early 1%Z
  else if parse_fails then early 1%Z
  else
    match main_loop entries {| total_passed := 0; total_failed := 0;
                               total_found := 0; test_results_map := [] |} with
    | Fails e => Fails e
    | Hangs => Hangs
    | Done t =>
        if (total_found t =? 0)%Z then early 1%Z
        else
          let exitcode := if (total_failed t =? 0)%Z then 0%Z else 1%Z in
          Done {| main_result := {| mr_exitcode := exitcode;
                                    mr_test_results := Some (test_results_map t) |};
                  on_exit_called := true |}
    end.

(** The contracts [_main] runs tests for. *)
Definition processed (entry : ContractEntry) : bool :=
  name_matches entry && String.eqb (contract_type entry) "contract"
  && negb (length (found_funsigs entry) =? 0).

(** The sweep of [run_message] over the depths [0 .. max_call_depth], each
    frontier consumed to its end. *)
Definition depth_requests (max_call_depth : nat) : list (nat * option nat) :=
  (λ depth, (depth, None)) <$> seq 0 (S max_call_depth).

(** For a contract whose tests were run: the number of tests counted as
    failed, the number of tests found, and its entry in the result map. *)
Definition failed_of (entry : ContractEntry) : Z :=
  match contract_outcome entry with
  | Done test_results =>
      Z.of_nat (length (found_funsigs entry)) - num_passed test_results
  | _ => 0
  end.

Definition results_of (entry : ContractEntry) : list TestResult :=
  match contract_outcome entry with Done test_results => test_results | _ => [] end.

Definition sum_failed (l : list ContractEntry) : Z :=
  foldr (λ entry acc, (failed_of entry + acc)%Z) 0%Z l.

Definition sum_found (l : list ContractEntry) : Z :=
  foldr (λ entry acc, (Z.of_nat (length (found_funsigs entry)) + acc)%Z) 0%Z l.

(** Every test that was found has a result, and every result is PASS. *)
Definition all_passed (entry : ContractEntry) : Prop :=
  length (results_of entry) = length (found_funsigs entry) ∧
  Forall (λ r, exitcode r = value PASS) (results_of entry).

(* ===================================================================== *)
(** ** Further demo values                                                *)
(* ===================================================================== *)

Module Demo2.

(** No early exit, at most two paths. *)
Definition args_width : HalmosConfig :=
  {| debug := false; verbose := 0; early_exit := false; width := 2;
     no_status := true; minimal_json_output := false;
     print_blocked_states := false |}.

(** A solver that refutes every query. *)
#[local] Instance refuting : Collaborators := {|
  FOUNDRY_TEST := 1%Z;
  contract_name_at := λ _ _, "Vault";
  get_by_name := λ _, Demo.json;
  attempt := Demo.stub_attempt;
  path_slice := λ ex, ex;
  snapshot_state := λ ex, if machine ex =? 0 then "s0"
                          else if machine ex =? 1 then "s1" else "s2";
  is_panic_of := λ _, false;
  to_smt2 := λ _, "(check-sat)";
  solve_low_level := Demo.unsat_output;
  rendered_trace := λ _, "trace";
  rendered_call_sequence := λ _, EmptyString;
  hexify := λ _, EmptyString;
  VERBOSITY_TRACE_COUNTEREXAMPLE := 2;
  VERBOSITY_TRACE_PATHS := 4
|}.

(** Four paths that end normally. *)
Definition four_paths : list Tick :=
  (λ m, NextPath (Demo.state (Demo.ok_call "check()") m) false) <$> [1; 2; 3; 4].

(** A failing path whose query is found satisfiable. *)
Definition found_schedule : list Tick :=
  [NextPath (Demo.state (Demo.fail_call "check()") 1) false;
   Completes (FResult Demo.sat_output)].

(** A normal path and a failing path whose query is refuted. *)
Definition refuted_schedule : list Tick :=
  [NextPath (Demo.state (Demo.ok_call "check()") 1) false;
   NextPath (Demo.state (Demo.fail_call "check()") 2) false;
   Completes (FResult (Demo.unsat_output {| pc_path_id := 1; query := "(check-sat)" |}))].

(** Two failing paths, both submitted. *)
Definition two_failing : list Tick :=
  [NextPath (Demo.state (Demo.fail_call "check()") 1) false;
   NextPath (Demo.state (Demo.fail_call "check()") 2) false].

(** The paths of a setup call: one reverted, two without error. *)
Definition reverted_call (s : string) : CallContext :=
  mkCallContext (Demo.info s) (OtherError "Revert") None [].

Definition setup_paths : list Exec :=
  [Demo.state (reverted_call "setUp()") 1;
   Demo.state (Demo.ok_call "setUp()") 2;
   Demo.state (Demo.ok_call "setUp()") 3].

Definition setup_one_path : list Exec :=
  [Demo.state (reverted_call "setUp()") 1;
   Demo.state (Demo.ok_call "setUp()") 2].

(** A test contract with two tests: preparing the first raises, the second
    runs over one normal path. *)
Definition test_ids : gmap string string :=
  {["check_a()" := "aaaaaaaa"; "check_b()" := "bbbbbbbb"]}.

Definition test_attempt (funsig : string) (depth : nat) : TestAttempt :=
  if String.eqb funsig "check_a()"
  then TestRaises (RaisedException "NotConcreteError" "symbolic size")
  else TestRuns Demo.args Demo.empty_fctx 0
                [NextPath (Demo.state (Demo.ok_call funsig) 1) false].

Definition passing (funsig : string) : TestResult :=
  {| name := funsig; exitcode := value PASS; num_models := Some 0;
     models := Some []; num_paths := Some (1, 1, 0); num_bounded_loops := Some 0 |}.

(** The contracts of a build: a library, a contract without tests, a
    contract whose test passed and a contract whose setup failed. *)
Definition a_library : ContractEntry :=
  {| name_matches := true; contract_type := "library"; found_funsigs := ["check_x()"];
     contract_path := "src/Lib.sol:Lib"; contract_outcome := Hangs |}.

Definition no_tests : ContractEntry :=
  {| name_matches := true; contract_type := "contract"; found_funsigs := [];
     contract_path := "src/Vault.sol:Vault"; contract_outcome := Hangs |}.

Definition passes : ContractEntry :=
  {| name_matches := true; contract_type := "contract"; found_funsigs := ["check_b()"];
     contract_path := "test/Vault.t.sol:VaultTest";
     contract_outcome := Done [passing "check_b()"] |}.

Definition setup_failed : ContractEntry :=
  {| name_matches := true; contract_type := "contract"; found_funsigs := ["check_c()"];
     contract_path := "test/Bank.t.sol:BankTest";
     contract_outcome := Done [] |}.

End Demo2.
(* ===================================================================== *)
(** ** Facts about the counter                                            *)
(* ===================================================================== *)

Lemma str_inj r1 r2 : str r1 = str r2 → r1 = r2.
Proof. by destruct r1, r2. Qed.

Lemma counter_pos outs r :
  counter outs (str r) > 0 ↔ ∃ m, m ∈ outs ∧ result m = r.
Proof.
  unfold counter. split.
  - intros Hlen.
    destruct (filter (λ m, str (result m) = str r) outs) as [|m l] eqn:E;
      [simpl in Hlen; lia|].
    assert (Hin : m ∈ filter (λ m, str (result m) = str r) outs)
      by (rewrite E; left).
    apply list_elem_of_filter in Hin as [Hs Hm].
    exists m. split; [done | by apply str_inj].
  - intros (m & Hm & Hr).
    assert (Hin : m ∈ filter (λ m, str (result m) = str r) outs).
    { apply list_elem_of_filter. by rewrite Hr. }
    destruct (filter _ outs); [by apply not_elem_of_nil in Hin | simpl; lia].
Qed.


Lemma ltb_counter outs r : (0 <? counter outs (str r)) = true ↔ has r outs.
Proof. rewrite Nat.ltb_lt. apply counter_pos. Qed.

Lemma ltb_counter_false outs r : (0 <? counter outs (str r)) = false ↔ ¬ has r outs.
Proof. rewrite <- ltb_counter. by destruct (0 <? _). Qed.

(** The five outcomes of the classification, each with the exact condition
    under which it is chosen. *)
Lemma classify_cases outs num_stuck normal :
  (classify outs num_stuck normal = COUNTEREXAMPLE ↔ has sat outs) ∧
  (classify outs num_stuck normal = TIMEOUT ↔ ¬ has sat outs ∧ has unknown outs) ∧
  (classify outs num_stuck normal = STUCK ↔
     ¬ has sat outs ∧ ¬ has unknown outs ∧ 0 < num_stuck) ∧
  (classify outs num_stuck normal = REVERT_ALL ↔
     ¬ has sat outs ∧ ¬ has unknown outs ∧ num_stuck = 0 ∧ normal = 0) ∧
  (classify outs num_stuck normal = PASS ↔
     ¬ has sat outs ∧ ¬ has unknown outs ∧ num_stuck = 0 ∧ normal ≠ 0) ∧
  classify outs num_stuck normal ≠ EXCEPTION.
Proof.
  unfold classify.
  change "sat"%string with (str sat). change "unknown"%string with (str unknown).
  destruct (0 <? counter outs (str sat)) eqn:Es.
  { apply ltb_counter in Es. repeat split; try done; tauto. }
  apply ltb_counter_false in Es.
  destruct (0 <? counter outs (str unknown)) eqn:Eu.
  { apply ltb_counter in Eu. repeat split; try done; tauto. }
  apply ltb_counter_false in Eu.
  destruct (0 <? num_stuck) eqn:Ek.
  { apply Nat.ltb_lt in Ek. repeat split; try done; try tauto; intros; lia. }
  apply Nat.ltb_ge in Ek.
  destruct (normal =? 0) eqn:En.
  { apply Nat.eqb_eq in En. repeat split; try done; try tauto; intros; lia. }
  apply Nat.eqb_neq in En.
  repeat split; try done; try tauto; intros; lia.
Qed.

Lemma value_inj e1 e2 : value e1 = value e2 → e1 = e2.
Proof. by destruct e1, e2. Qed.

(* ===================================================================== *)
(** ** The per-test driver                                                *)
(* ===================================================================== *)

Section run_test_facts.
Context `{Collaborators}.
Variable args : HalmosConfig.

(** [run_test] split into its stages. *)
Lemma run_test_stages funsig bounded_loops c schedule :
  ∃ d0 rest,
    explore_paths args schedule 0 (initial_driver c) = (d0, rest) ∧
    (status_loop_ends args d0 = false →
       run_test args funsig bounded_loops c schedule = None) ∧
    (status_loop_ends args d0 = true →
       ∃ d r, run_test args funsig bounded_loops c schedule = Some (d, r) ∧
         let d1 := drain args rest d0 in
         exitcode r = value (verdict d1) ∧
         solver_outputs (fctx d) = solver_outputs (fctx d1) ∧
         stuck d = stuck d1 ∧ normal d = normal d1 ∧
         pool_log (fctx d) = pool_log (fctx d1) ∧
         num_paths r = if minimal_json_output args then None
                       else Some (path_id d0 + 1, normal d1, length (stuck d1))).
Proof.
  unfold run_test.
  destruct (explore_paths args schedule 0 (initial_driver c)) as [d0 rest].
  exists d0, rest. split; [done|]. split; intros ->; simpl; [done|].
  destruct (minimal_json_output args), (verdict (drain args rest d0));
    simpl; eexists _, _; (split; [done|]); simpl; done.
Qed.

(** The two counters the progress display compares stay equal for as long
    as no submission is refused. *)
Lemma explore_paths_counters schedule idx d d0 rest :
  Forall (λ t, match t with NextPath _ refused => refused = false | _ => True end)
         schedule →
  length (submitted_futures d) = potential d →
  explore_paths args schedule idx d = (d0, rest) →
  length (submitted_futures d0) = potential d0.
Proof.
  revert idx d. induction schedule as [|t schedule IH]; intros idx d Hall Hd Hrun.
  - simpl in Hrun. by simplify_eq.
  - inversion Hall as [|? ? Ht Hrest]; subst.
    destruct t as [ex refused | future]; simpl in Hrun.
    + subst refused.
      assert (Hbody : length (submitted_futures (loop_body args idx ex false d).1)
                      = potential (loop_body args idx ex false d).1).
      { unfold loop_body, triage_path, submit_potential, check_stuck.
        repeat case_match; simplify_eq; simpl;
          repeat case_match; simplify_eq; simpl;
          rewrite ?length_app; simpl; lia. }
      destruct (loop_body args idx ex false d) as [d1 [|]]; simpl in Hbody.
      * by eapply IH.
      * injection Hrun as <- _. exact Hbody.
    + eapply IH; [done | | exact Hrun]. exact Hd.
Qed.

(** [run_test] produces a result when the progress display is off, and also
    when no submission is refused. *)
Lemma run_test_completes funsig bounded_loops c schedule :
  no_status args = true ∨
  Forall (λ t, match t with NextPath _ refused => refused = false | _ => True end)
         schedule →
  is_Some (run_test args funsig bounded_loops c schedule).
Proof.
  intros Hcond.
  destruct (run_test_stages funsig bounded_loops c schedule)
    as (d0 & rest & Hrun & _ & Hsome).
  destruct Hsome as (d & r & -> & _); [|done].
  unfold status_loop_ends. destruct Hcond as [-> | Hall]; [done|].
  assert (Hinit : length (submitted_futures (initial_driver c)) = potential (initial_driver c))
    by done.
  rewrite (explore_paths_counters _ _ _ _ _ Hall Hinit Hrun), Nat.eqb_refl.
  by rewrite orb_true_r.
Qed.

(** C1. When [run_test] completes, its exit code is chosen from the
    collected solver outputs in this order: COUNTEREXAMPLE (1) exactly
    when some output is sat; else TIMEOUT (2) when some output is unknown;
    else STUCK (3) when a stuck path was recorded; else REVERT_ALL (4)
    when no normal path was seen; else PASS (0). The codes are PASS=0,
    COUNTEREXAMPLE=1, TIMEOUT=2, STUCK=3, REVERT_ALL=4, EXCEPTION=5. *)
Theorem run_test_verdict_priority funsig bounded_loops c schedule d r :
  run_test args funsig bounded_loops c schedule = Some (d, r) →
  let outs := solver_outputs (fctx d) in
  (exitcode r = value COUNTEREXAMPLE ↔ has sat outs) ∧
  (exitcode r = value TIMEOUT ↔ ¬ has sat outs ∧ has unknown outs) ∧
  (exitcode r = value STUCK ↔
     ¬ has sat outs ∧ ¬ has unknown outs ∧ 0 < length (stuck d)) ∧
  (exitcode r = value REVERT_ALL ↔
     ¬ has sat outs ∧ ¬ has unknown outs ∧ length (stuck d) = 0 ∧ normal d = 0) ∧
  (exitcode r = value PASS ↔
     ¬ has sat outs ∧ ¬ has unknown outs ∧ length (stuck d) = 0 ∧ normal d ≠ 0) ∧
  (value PASS = 0 ∧ value COUNTEREXAMPLE = 1 ∧ value TIMEOUT = 2 ∧
   value STUCK = 3 ∧ value REVERT_ALL = 4 ∧ value EXCEPTION = 5)%Z.
Proof.
  intros Hres outs.
  destruct (run_test_stages funsig bounded_loops c schedule)
    as (d0 & rest & _ & Hnone & Hsome).
  destruct (status_loop_ends args d0); [|rewrite Hnone in Hres; done].
  destruct Hsome as (d' & r' & Hres' & Hex & Hout & Hst & Hno & _); [done|].
  rewrite Hres in Hres'. simplify_eq. subst outs.
  rewrite Hex, Hout, Hst, Hno. unfold verdict.
  pose proof (classify_cases (solver_outputs (fctx (drain args rest d0)))
                (length (stuck (drain args rest d0)))
                (normal (drain args rest d0))) as (H1 & H2 & H3 & H4 & H5 & _).
  assert (Hiff : ∀ e1 e2, value e1 = value e2 ↔ e1 = e2).
  { intros e1 e2. split; [apply value_inj | by intros ->]. }
  rewrite !Hiff.
  do 5 (split; [assumption|]). by repeat split.
Qed.

End run_test_facts.

(* ===================================================================== *)
(** ** The completion callback                                            *)
(* ===================================================================== *)

Section callback_facts.
Context `{Collaborators}.
Variable args : HalmosConfig.

Lemma nothing_recorded_refl c : nothing_recorded c c.
Proof. by repeat split. Qed.

Lemma nothing_recorded_say m c : nothing_recorded c (say m c).
Proof. by repeat split. Qed.

(** The verdict only reads the solver outputs of the function context. *)
Lemma verdict_fire future d :
  solver_outputs (solve_end_to_end_callback args future (fctx d)).1
    = solver_outputs (fctx d) →
  verdict (fire args future d) = verdict d.
Proof. unfold verdict, fire. simpl. by intros ->. Qed.

(** C9. A callback that finds the future cancelled, finished with
    [ShutdownError], or the executor shut down, records nothing: no solver
    output, no counterexample, no change of the verdict. A callback whose
    future finished with another exception logs that exception and records
    nothing else. *)
Theorem callback_ignores_shutdown_and_errors future c :
  let c' := (solve_end_to_end_callback args future c).1 in
  let out := (solve_end_to_end_callback args future c).2 in
  ((future = FCancelled ∨ future = FException ShutdownError ∨
    (∃ o, future = FResult o ∧ executor_is_shutdown c = true)) →
     nothing_recorded c c' ∧
     (future ≠ FCancelled → out = Returned ∧
        (debug args = false → c' = c)) ∧
     ∀ d, fctx d = c → verdict (fire args future d) = verdict d) ∧
  (∀ e, future = FException e → e ≠ ShutdownError →
     messages c' = messages c ++ [ErrorSolving e] ∧
     nothing_recorded c c' ∧
     traces c' = traces c ∧ call_sequences c' = call_sequences c ∧
     ∀ d, fctx d = c → verdict (fire args future d) = verdict d).
Proof.
  split.
  - intros [-> | [-> | (o & -> & Hs)]]; simpl.
    + split; [apply nothing_recorded_refl|]. split; [done|].
      intros d <-. by apply verdict_fire.
    + split; [destruct (debug args);
                [apply nothing_recorded_say | apply nothing_recorded_refl]|].
      split; [intros _; split; [done | by intros ->]|].
      intros d <-. apply verdict_fire. simpl. by destruct (debug args).
    + rewrite Hs. simpl.
      split; [apply nothing_recorded_refl|]. split; [done|].
      intros d <-. apply verdict_fire. simpl. by rewrite Hs.
  - intros e -> Hne.
    assert (Hcb : solve_end_to_end_callback args (FException e) c
                  = (say (ErrorSolving e) c, Threw e))
      by (by destruct e).
    rewrite Hcb. simpl.
    split; [done|]. split; [apply nothing_recorded_say|]. do 2 (split; [done|]).
    intros d <-. apply verdict_fire. by rewrite Hcb.
Qed.

(** The only way the list of valid counterexamples changes. *)
Lemma callback_valid_recorded future c :
  let c' := (solve_end_to_end_callback args future c).1 in
  valid_counterexamples c' ≠ valid_counterexamples c →
  ∃ o m, future = FResult o ∧ model o = Some m ∧ is_valid m = true ∧
         valid_counterexamples c' = valid_counterexamples c ++ [m] ∧
         pool_log c' = pool_log c ++
           (if early_exit args then [Shutdown solving_ctx_executor false] else []) ∧
         (early_exit args = true → executor_is_shutdown c' = true).
Proof.
  destruct future as [|e|o]; simpl.
  - done.
  - by destruct e; simpl; try destruct (debug args).
  - destruct (executor_is_shutdown c); [done|].
    case_bool_decide.
    { by destruct (unsat_core o). }
    destruct (model o) as [m|] eqn:Em; [|done].
    unfold triage_model.
    destruct (is_valid m) eqn:Ev.
    + intros Hne. exists o, m.
      repeat case_match; simplify_eq; simpl in *; try done;
        rewrite ?app_nil_r; by repeat split.
    + repeat case_match; simplify_eq; simpl; done.
Qed.

End callback_facts.

(* ===================================================================== *)
(** ** Shutdown of the pools, stuck paths and the path count              *)
(* ===================================================================== *)

Section driver_facts.
Context `{Collaborators}.
Variable args : HalmosConfig.

(** C4. A callback that records a valid counterexample under the
    early-exit policy calls [shutdown(wait=False)] on
    [ctx.solving_ctx.executor]; and whatever the schedule, when [run_test]
    produces a result the last call it made on a pool is
    [ctx.thread_pool.shutdown(wait=True)], and the exit code is computed
    from the solver outputs collected up to the return of that call. A
    result is produced whenever no submission is refused. *)
Theorem early_exit_then_blocking_drain :
  (∀ future c,
     let c' := (solve_end_to_end_callback args future c).1 in
     valid_counterexamples c' ≠ valid_counterexamples c →
     early_exit args = true →
     pool_log c' = pool_log c ++ [Shutdown solving_ctx_executor false] ∧
     executor_is_shutdown c' = true) ∧
  (∀ funsig bounded_loops c schedule d r,
     run_test args funsig bounded_loops c schedule = Some (d, r) →
     (∃ log, pool_log (fctx d) = log ++ [Shutdown thread_pool true]) ∧
     exitcode r = value (classify (solver_outputs (fctx d))
                           (length (stuck d)) (normal d))) ∧
  (∀ funsig bounded_loops c schedule,
     Forall (λ t, match t with NextPath _ refused => refused = false | _ => True end)
            schedule →
     is_Some (run_test args funsig bounded_loops c schedule)).
Proof.
  split; [|split].
  - intros future c c' Hne He.
    destruct (callback_valid_recorded args future c Hne)
      as (o & m & _ & _ & _ & _ & Hlog & Hsh).
    fold c' in Hlog, Hsh. rewrite He in Hlog. auto.
  - intros funsig bounded_loops c schedule d r Hres.
    destruct (run_test_stages args funsig bounded_loops c schedule)
      as (d0 & rest & _ & Hnone & Hsome).
    destruct (status_loop_ends args d0); [|rewrite Hnone in Hres; done].
    destruct Hsome as (d' & r' & Hres' & Hex & Hout & Hst & Hno & Hlog & _); [done|].
    rewrite Hres in Hres'. simplify_eq.
    split.
    + rewrite Hlog. unfold drain. simpl. eauto.
    + by rewrite Hex, Hout, Hst, Hno.
  - intros funsig bounded_loops c schedule Hall.
    apply run_test_completes. by right.
Qed.

(** C8. A path that the loop body examines, that is not a potential
    assertion violation and whose call context is stuck, is not submitted
    to the pool: the only call made is one [solve_low_level] on its query,
    and the path joins the stuck list exactly when the result of that call
    is not unsat. *)
Theorem stuck_path_solved_synchronously idx ex submit_raises d :
  executor_is_shutdown (fctx d) = false →
  is_panic_of ex = false →
  is_global_fail_set (context ex) = false →
  is_stuck (context ex) = true →
  let d' := (loop_body args idx ex submit_raises d).1 in
  let path_ctx := {| pc_path_id := idx; query := to_smt2 (path ex) |} in
  pool_log (fctx d') = pool_log (fctx d) ++ [SolveLowLevel path_ctx] ∧
  submitted_futures d' = submitted_futures d ∧
  potential d' = potential d ∧
  normal d' = normal d ∧
  (result (solve_low_level path_ctx) ≠ unsat →
     stuck d' = stuck d ++ [(idx, ex, get_stuck_reason (context ex))] ∧
     ∀ outs n, ¬ has sat outs → ¬ has unknown outs →
               classify outs (length (stuck d')) n = STUCK) ∧
  (result (solve_low_level path_ctx) = unsat → stuck d' = stuck d).
Proof.
  intros Hs Hp Hf Hk d' path_ctx. subst d'.
  unfold loop_body. simpl. rewrite Hs.
  unfold triage_path. rewrite Hp, Hf, Hk. simpl.
  unfold check_stuck. simpl. fold path_ctx.
  case_bool_decide as Hr.
  - destruct (print_blocked_states args);
      destruct (negb _ && _); simpl; repeat split; try done;
      intros outs n Hsat Hunk;
      apply (classify_cases outs); rewrite length_app; simpl;
      (repeat split; [done | done | lia]).
  - destruct (negb _ && _); simpl; repeat split; try done.
Qed.

(** Callbacks leave the locals of [run_test] alone. *)
Lemma fire_path_id future d : path_id (fire args future d) = path_id d.
Proof. done. Qed.

Lemma loop_body_path_id idx ex submit_raises d :
  path_id (loop_body args idx ex submit_raises d).1 = idx.
Proof.
  unfold loop_body, triage_path, submit_potential, check_stuck.
  repeat case_match; simplify_eq; simpl; try done;
    repeat case_match; simplify_eq; simpl; done.
Qed.

(** After the loop, [path_id] is the index of the last path the generator
    handed over, and its initial value if there was none. *)
Lemma explore_paths_path_id schedule idx d d0 rest :
  explore_paths args schedule idx d = (d0, rest) →
  count_paths rest ≤ count_paths schedule ∧
  let n := count_paths schedule - count_paths rest in
  path_id d0 = if n =? 0 then path_id d else idx + n - 1.
Proof.
  revert idx d. induction schedule as [|t schedule IH]; intros idx d Hrun.
  - simpl in Hrun. by simplify_eq.
  - destruct t as [ex sr | future]; simpl in Hrun.
    + pose proof (loop_body_path_id idx ex sr d) as Hpid.
      destruct (loop_body args idx ex sr d) as [d1 [|]]; simpl in Hpid.
      * apply IH in Hrun as [Hle Hrun]. simpl in Hrun. simpl.
        split; [lia|]. rewrite Hrun.
        destruct (count_paths schedule - count_paths rest) as [|k] eqn:Ek.
        -- replace (S (count_paths schedule) - count_paths rest) with 1 by lia.
           simpl. lia.
        -- replace (S (count_paths schedule) - count_paths rest) with (S (S k)) by lia.
           simpl. lia.
      * simplify_eq. simpl. split; [lia|].
        replace (S (count_paths rest) - count_paths rest) with 1 by lia.
        simpl. lia.
    + apply IH in Hrun as [Hle Hrun]. simpl. split; [done|].
      simpl in Hrun. by rewrite Hrun.
Qed.

End driver_facts.

Section path_count.
Context `{Collaborators}.
Variable args : HalmosConfig.

Lemma drain_locals rest d :
  normal (drain args rest d) = normal d ∧ stuck (drain args rest d) = stuck d.
Proof.
  unfold drain. simpl.
  revert d. induction rest as [|t rest IH]; intros d; [done|].
  simpl. destruct t; [apply IH|].
  destruct (IH (fire args future d)) as [-> ->]. done.
Qed.

Lemma explore_no_paths schedule idx d d0 rest :
  count_paths schedule = 0 →
  explore_paths args schedule idx d = (d0, rest) →
  normal d0 = normal d ∧ stuck d0 = stuck d.
Proof.
  revert d. induction schedule as [|t schedule IH]; intros d Hc Hrun.
  - simpl in Hrun. by simplify_eq.
  - destruct t; [done|]. simpl in *.
    by destruct (IH _ Hc Hrun) as [-> ->].
Qed.

(** C10, as amended. Unless [minimal_json_output] is set, the total of
    [TestResult.num_paths] is the last value of [path_id] plus one, where
    [path_id] is the index of the last path the exploration generator
    handed over and 0 if it handed over none; so a generator that yields
    no state is reported as [(1, 0, 0)]. *)
Theorem num_paths_counts_from_path_id funsig bounded_loops c schedule :
  minimal_json_output args = false →
  (∀ d r, run_test args funsig bounded_loops c schedule = Some (d, r) →
     ∃ d0 rest,
       explore_paths args schedule 0 (initial_driver c) = (d0, rest) ∧
       num_paths r = Some (path_id d0 + 1, normal d, length (stuck d)) ∧
       path_id d0 = count_paths schedule - count_paths rest - 1) ∧
  (count_paths schedule = 0 →
     ∃ d r, run_test args funsig bounded_loops c schedule = Some (d, r) ∧
            num_paths r = Some (1, 0, 0)).
Proof.
  intros Hmin.
  destruct (run_test_stages args funsig bounded_loops c schedule)
    as (d0 & rest & Hrun & Hnone & Hsome).
  destruct (explore_paths_path_id args _ _ _ _ _ Hrun) as [Hle Hpid].
  simpl in Hpid.
  assert (Hp : path_id d0 = count_paths schedule - count_paths rest - 1).
  { rewrite Hpid. destruct (_ - _) as [|k]; simpl; lia. }
  split.
  - intros d r Hres.
    destruct (status_loop_ends args d0); [|rewrite Hnone in Hres; done].
    destruct Hsome as (d' & r' & Hres' & _ & _ & Hst & Hno & _ & Hnum); [done|].
    rewrite Hres in Hres'. simplify_eq. rewrite Hmin in Hnum.
    exists d0, rest. split; [done|]. split; [by rewrite Hnum, Hst, Hno | done].
  - intros Hzero.
    destruct (run_test_completes args funsig bounded_loops c schedule) as [[d r] Hres].
    { right. clear -Hzero. induction schedule as [|[]]; simpl in *; try done.
      constructor; [done | by apply IHschedule]. }
    destruct (status_loop_ends args d0); [|rewrite Hnone in Hres; done].
    destruct Hsome as (d' & r' & Hres' & _ & _ & Hst & Hno & _ & Hnum); [done|].
    rewrite Hres in Hres'. simplify_eq. rewrite Hmin in Hnum.
    exists d', r'. split; [done|]. rewrite Hnum.
    destruct (drain_locals rest d0) as [-> ->].
    destruct (explore_no_paths _ _ _ _ _ Hzero Hrun) as [-> ->].
    rewrite Hp, Hzero. done.
Qed.

End path_count.

(** C10 as stated fails: with [minimal_json_output] set, [run_test]
    returns [TestResult(funsig, exitcode, num_cexes)], whose [num_paths] is
    [None], also when the generator yields no state. *)
Lemma num_paths_absent_under_minimal_json :
  ¬ (∀ (H : Collaborators) args funsig bounded_loops c schedule,
       count_paths schedule = 0 →
       ∃ d r, run_test args funsig bounded_loops c schedule = Some (d, r) ∧
              num_paths r = Some (1, 0, 0)).
Proof.
  intros Hall.
  destruct (Hall Demo.stub Demo.args_minimal "check()"%string 0
                 Demo.empty_fctx [] eq_refl) as (d & r & Hres & Hnum).
  vm_compute in Hres. injection Hres as <- <-. discriminate Hnum.
Qed.

Lemma num_paths_counts_from_path_id_witness :
  minimal_json_output Demo.args = false ∧
  ∃ d r, @run_test Demo.stub Demo.args "check()" 0 Demo.empty_fctx [] = Some (d, r) ∧
         num_paths r = Some (1, 0, 0).
Proof.
  split; [reflexivity|].
  exact (proj2 (@num_paths_counts_from_path_id Demo.stub Demo.args "check()" 0
                  Demo.empty_fctx [] eq_refl) eq_refl).
Defined.

Lemma run_test_verdict_priority_witness :
  let schedule := [NextPath (Demo.state (Demo.stuck_call "poke()") 7) false;
                   NextPath (Demo.state (Demo.ok_call "peek()") 8) false] in
  ∃ d r, @run_test Demo.stub Demo.args "check()" 0 Demo.empty_fctx schedule = Some (d, r) ∧
         exitcode r = value STUCK.
Proof.
  intros schedule.
  destruct (@run_test Demo.stub Demo.args "check()" 0 Demo.empty_fctx schedule)
    as [[d r]|] eqn:Hres; [|vm_compute in Hres; discriminate].
  exists d, r. split; [reflexivity|].
  destruct (@run_test_verdict_priority Demo.stub Demo.args "check()" 0 Demo.empty_fctx
              schedule d r Hres) as (_ & _ & Hstuck & _).
  apply Hstuck. vm_compute in Hres. simplify_eq. simpl.
  split; [|split; [|lia]]; intros (m & Hm & _); by apply not_elem_of_nil in Hm.
Defined.

(** A refused submission with the progress display on: [potential] counts
    the path, [submitted_futures] does not, and the display waits for the
    two to agree. *)
Example run_test_refused_submission_waits :
  @run_test Demo.stub Demo.args_status "check()" 0 Demo.empty_fctx
            [NextPath (Demo.state (Demo.fail_call "check()") 1) true] = None.
Proof. vm_compute. reflexivity. Qed.

Lemma stuck_path_solved_synchronously_witness :
  let ex := Demo.state (Demo.stuck_call "poke()") 7 in
  let d := initial_driver Demo.empty_fctx in
  let d' := (@loop_body Demo.stub Demo.args 0 ex false d).1 in
  is_stuck (context ex) = true ∧
  pool_log (fctx d') = [SolveLowLevel {| pc_path_id := 0; query := "(check-sat)" |}] ∧
  submitted_futures d' = [] ∧
  stuck d' = [(0, ex, Some "not supported"%string)].
Proof.
  intros ex d d'.
  destruct (@stuck_path_solved_synchronously Demo.stub Demo.args 0 ex false d
              eq_refl eq_refl eq_refl eq_refl) as (Hlog & Hsub & _ & _ & Hadd & _).
  split; [reflexivity|]. split; [exact Hlog|]. split; [exact Hsub|].
  apply Hadd. discriminate.
Defined.

(* ===================================================================== *)
(** ** The target invocation runner                                       *)
(* ===================================================================== *)

Section run_target_contract_facts.
Context `{Collaborators}.
Variable args : HalmosConfig.
Variable ex : Exec.
Variable addr : Address.
Variable cname : string.
Variable abi : gmap string string.

(** Once [solver] is bound, every exception of the [try] block is handled
    and the loop reaches the end of the method table. *)
Lemma loop_exhausts_once_bound methods s fresh :
  (∀ m, m ∈ methods → is_Some (abi !! m.1)) →
  (loop args ex addr cname abi methods (Some s) fresh).2 = Exhausted.
Proof.
  revert s fresh. induction methods as [|[fun_sig fun_selector] methods IH];
    intros s fresh Habi; [done|].
  assert (Hrest : ∀ m, m ∈ methods → is_Some (abi !! m.1))
    by (intros m Hm; apply Habi; by right).
  destruct (Habi (fun_sig, fun_selector)) as [mut Hmut]; [left|].
  simpl in Hmut. simpl. rewrite Hmut.
  case_bool_decide.
  - specialize (IH s fresh Hrest). by destruct (loop _ _ _ _ _ methods _ _).
  - destruct (attempt _ _ _).
    + specialize (IH s fresh Hrest). by destruct (loop _ _ _ _ _ methods _ _).
    + specialize (IH fresh (S fresh) Hrest). by destruct (loop _ _ _ _ _ methods _ _).
    + specialize (IH fresh (S fresh) Hrest). by destruct (loop _ _ _ _ _ methods _ _).
Qed.

(** With [solver] still unbound, an exception raised before the solver is
    created is logged, and then [reset(solver)] in the [finally] clause
    raises [UnboundLocalError]: the generator stops and the functions after
    this one are not run. *)
Lemma loop_unbound_solver_escapes fun_sig fun_selector rest fresh mut e :
  abi !! fun_sig = Some mut →
  mut ∉ ["pure"; "view"]%string →
  attempt ex addr {| contract_name := cname; fname := split_paren fun_sig;
                     sig := fun_sig; selector := fun_selector |}
    = RaisesBeforeSolver e →
  loop args ex addr cname abi ((fun_sig, fun_selector) :: rest) None fresh
    = ([AError fun_sig e], Raised (UnboundLocalError "solver")).
Proof.
  intros Hmut Hnv Hatt. simpl. rewrite Hmut.
  rewrite bool_decide_eq_false_2 by done. by rewrite Hatt.
Qed.

Lemma sessions_released_quiet session tr1 tr2 :
  Forall quiet tr1 →
  sessions_released session (tr1 ++ tr2) = sessions_released session tr2.
Proof.
  induction 1 as [|a tr1 Ha _ IH]; [done|]. simpl. by destruct a.
Qed.

Lemma quiet_replicate n a : quiet a → Forall quiet (replicate n a).
Proof. intros Ha. by apply Forall_replicate. Qed.

Lemma quiet_yield_from outs : Forall quiet (yield_from outs).
Proof.
  unfold yield_from. induction outs as [|[k o] outs IH]; simpl; [constructor|].
  rewrite !Forall_app. split; [split|done].
  - by apply quiet_replicate.
  - by apply Forall_singleton.
Qed.

(** Whatever the functions of the target do, a solver session that was
    created is reset before the next function is tried and before the
    generator stops. *)
Lemma loop_sessions_released methods solver fresh :
  sessions_released None (loop args ex addr cname abi methods solver fresh).1 = true.
Proof.
  revert solver fresh.
  induction methods as [|[fun_sig fun_selector] methods IH]; intros solver fresh; [done|].
  simpl. destruct (abi !! fun_sig) as [mut|]; [|done].
  case_bool_decide.
  - specialize (IH solver fresh). destruct (loop _ _ _ _ _ methods _ _) as [tr st].
    simpl in *. by destruct (debug args).
  - destruct (attempt _ _ _) as [e | symbols e | symbols outs fin].
    + destruct solver as [s|]; [|done].
      specialize (IH (Some s) fresh). by destruct (loop _ _ _ _ _ methods _ _).
    + specialize (IH (Some fresh) (S fresh)).
      destruct (loop _ _ _ _ _ methods _ _) as [tr st]. simpl in *.
      rewrite sessions_released_quiet by (by apply quiet_replicate).
      simpl. by rewrite Nat.eqb_refl.
    + specialize (IH (Some fresh) (S fresh)).
      destruct (loop _ _ _ _ _ methods _ _) as [tr st]. simpl in *.
      rewrite sessions_released_quiet by (by apply quiet_replicate).
      simpl. rewrite sessions_released_quiet by apply quiet_yield_from.
      rewrite sessions_released_quiet by (destruct fin; repeat constructor).
      simpl. by rewrite Nat.eqb_refl.
Qed.

End run_target_contract_facts.

(** C3 (the code departs from it). The first function of the target,
    [deposit()], fails while its solver is created. The error is logged,
    but the generator then stops with [UnboundLocalError]: [withdraw()] is
    never run and nothing is yielded. *)
Theorem run_target_contract_first_failure_escapes :
  @run_target_contract (Demo.failing "deposit()") Demo.args Demo.setup_ex 2%Z
  = ([AError "deposit()" Demo.solver_failure],
     Raised (UnboundLocalError "solver")).
Proof. vm_compute. reflexivity. Qed.

(** The same failure on a later function, [withdraw()], is contained: it is
    logged, the solver of [deposit()] is reset once more, and the runner
    reaches the end of the method table. *)
Example run_target_contract_later_failure_contained :
  @run_target_contract (Demo.failing "withdraw()") Demo.args Demo.setup_ex 2%Z
  = ([ACreateSolver 0; AUid; ANewSymbolId; AUid; ANewSymbolId; AUid; ANewSymbolId;
      AYield (Demo.state (Demo.ok_call "deposit()") 1); AReset 0;
      AError "withdraw()" Demo.solver_failure; AReset 0],
     Exhausted).
Proof. vm_compute. reflexivity. Qed.

(** Without failures: one solver per function, reset before the next
    function starts; the [view] function is skipped. *)
Example run_target_contract_demo :
  @run_target_contract Demo.stub Demo.args Demo.setup_ex 2%Z
  = ([ACreateSolver 0; AUid; ANewSymbolId; AUid; ANewSymbolId; AUid; ANewSymbolId;
      AYield (Demo.state (Demo.ok_call "deposit()") 1); AReset 0;
      ACreateSolver 1; ANewSymbolId;
      AUid; ANewSymbolId; AUid; ANewSymbolId; AUid; ANewSymbolId;
      AYield (Demo.state (Demo.ok_call "withdraw()") 1); AUid;
      AYield (Demo.state (Demo.ok_call "withdraw()") 2); AReset 1],
     Exhausted).
Proof. vm_compute. reflexivity. Qed.

(* ===================================================================== *)
(** ** The frontier explorer: loop invariants                             *)
(* ===================================================================== *)

(** A property that holds before a loop and is kept by its body holds
    after the loop. *)
Lemma for_each_ind {A} (P : Gen → Prop) (body : A → Gen → Gen) l g :
  P g →
  (∀ a g, a ∈ l → status g = Running → P g → P (body a g)) →
  P (for_each body l g).
Proof.
  unfold for_each. revert g. induction l as [|a l IH]; intros g Hg Hbody; [done|].
  simpl. apply IH.
  - destruct (status g) eqn:Es; try done. apply Hbody; [left | done | done].
  - intros a' g' Hin. apply Hbody. by right.
Qed.

Section frontier_invariants.
Context `{Collaborators}.
Variable args : HalmosConfig.
Variable depth : nat.
Variable curr_exs : list Exec.
Variable P : Gen → Prop.

Hypothesis P_status : ∀ g s, P g → P (set_status s g).
Hypothesis P_uid : ∀ g, P g → P (set_world draw_uid g).
Hypothesis P_symbol : ∀ g position, P g → P (set_world (draw_symbol_id position) g).
Hypothesis P_post : ∀ pre_ex addr post_ex g,
  pre_ex ∈ curr_exs → status g = Running → P g →
  P (process_post depth pre_ex addr post_ex g).

Lemma on_action_inv idx pre_ex addr a g :
  pre_ex ∈ curr_exs → status g = Running → P g →
  P (on_action depth idx pre_ex addr a g).
Proof using P_uid P_symbol P_post. intros Hin Hr Hg. destruct a; simpl; auto. Qed.

Lemma process_addr_inv idx pre_ex addr g :
  pre_ex ∈ curr_exs → P g → P (process_addr args depth idx pre_ex addr g).
Proof using P_status P_uid P_symbol P_post.
  intros Hin Hg. unfold process_addr. case_bool_decide; [done|].
  destruct (run_target_contract args pre_ex addr) as [post_exs fin].
  assert (Hloop : P (for_each (on_action depth idx pre_ex addr) post_exs g)).
  { apply for_each_ind; [done|]. intros a g' _ Hr Hg'. by apply on_action_inv. }
  destruct (status _), fin; auto.
Qed.

Lemma process_pre_inv idx pre_ex g :
  pre_ex ∈ curr_exs → P g → P (process_pre args depth (idx, pre_ex) g).
Proof using P_status P_uid P_symbol P_post.
  intros Hin Hg. unfold process_pre. apply for_each_ind; [done|].
  intros addr g' _ _ Hg'. by apply process_addr_inv.
Qed.

Lemma frontier_loop_inv g :
  P g → P (for_each (process_pre args depth) (enumerate curr_exs) g).
Proof using P_status P_uid P_symbol P_post.
  intros Hg. apply for_each_ind; [done|].
  intros [idx pre_ex] g' Hin _ Hg'. apply process_pre_inv; [|done].
  unfold enumerate in Hin. apply elem_of_lookup_imap in Hin as (i & x & Heq & Hx).
  simplify_eq. by eapply list_elem_of_lookup_2.
Qed.

End frontier_invariants.

Section frontier_facts.
Context `{Collaborators}.
Variable args : HalmosConfig.

(** [_compute_frontier] in terms of its loop. *)
Lemma compute_frontier_inv (P : Gen → Prop) w depth credit :
  (∀ g s, P g → P (set_status s g)) →
  (∀ g, P g → P (set_world draw_uid g)) →
  (∀ g position, P g → P (set_world (draw_symbol_id position) g)) →
  (∀ prev curr_exs, depth = S prev → frontier_states (ctx w) !! prev = Some curr_exs →
     P {| world := set_ctx (frontier_set depth []) w; yielded := [];
          credit := credit; status := Running |} ∧
     ∀ pre_ex addr post_ex g, pre_ex ∈ curr_exs → status g = Running → P g →
       P (process_post depth pre_ex addr post_ex g)) →
  P {| world := w; yielded := []; credit := credit; status := Running |} →
  P (_compute_frontier args w depth credit).
Proof.
  intros Hst Huid Hsym Hloop Hstart. unfold _compute_frontier.
  destruct depth as [|prev]; [by apply Hst|].
  destruct (frontier_states (ctx w) !! prev) as [curr_exs|] eqn:Ecurr; [|by apply Hst].
  destruct (Hloop prev curr_exs eq_refl Ecurr) as [Hinit Hpost].
  assert (Hend : P (for_each (process_pre args (S prev)) (enumerate curr_exs)
                      (set_world (set_ctx (frontier_set (S prev) []))
                         {| world := w; yielded := []; credit := credit;
                            status := Running |}))).
  { eapply frontier_loop_inv; eauto. }
  destruct (status _); auto.
Qed.

(** The body of the innermost loop touches the cache only at [depth]. *)
Lemma process_post_other_keys depth pre_ex addr post_ex g d :
  d ≠ depth →
  frontier_states (ctx (world (process_post depth pre_ex addr post_ex g))) !! d
  = frontier_states (ctx (world g)) !! d.
Proof.
  intros Hne. unfold process_post.
  repeat case_match; simpl; try done.
  by rewrite lookup_alter_ne.
Qed.

Lemma compute_frontier_other_keys w depth credit d :
  d ≠ depth →
  frontier_states (ctx (world (_compute_frontier args w depth credit))) !! d
  = frontier_states (ctx w) !! d.
Proof.
  intros Hne.
  apply (compute_frontier_inv
           (λ g, frontier_states (ctx (world g)) !! d = frontier_states (ctx w) !! d));
    try done.
  intros prev curr_exs -> Hcurr. split.
  - simpl. by rewrite lookup_insert_ne.
  - intros pre_ex addr post_ex g _ _ Hg. by rewrite process_post_other_keys.
Qed.

Lemma get_frontier_cached c depth l :
  frontier_states c !! depth = Some l → get_frontier c depth = Cached l.
Proof. unfold get_frontier. by intros ->. Qed.

Lemma get_frontier_lazy c depth :
  frontier_states c !! depth = None → get_frontier c depth = Lazy depth.
Proof. unfold get_frontier. by intros ->. Qed.

(** One request leaves every entry that is present as it is. *)
Lemma request_keeps_cached w depth credit d l :
  frontier_states (ctx w) !! d = Some l →
  frontier_states (ctx (world (iterate args w (get_frontier (ctx w) depth) credit))) !! d
  = Some l.
Proof.
  intros Hd. destruct (frontier_states (ctx w) !! depth) as [l'|] eqn:E.
  - by rewrite (get_frontier_cached _ _ _ E).
  - rewrite (get_frontier_lazy _ _ E). simpl.
    rewrite compute_frontier_other_keys; [done|]. congruence.
Qed.

Lemma explore_keeps_cached requests w d l :
  frontier_states (ctx w) !! d = Some l →
  frontier_states (ctx (explore args w requests)) !! d = Some l.
Proof.
  unfold explore. revert w. induction requests as [|r requests IH]; intros w Hd; [done|].
  simpl. apply IH. by apply request_keeps_cached.
Qed.

(** C5. When the cache holds an entry for [depth], [get_frontier] returns
    that list itself; iterating over it leaves the whole world (cache,
    visited set, probe registry, uid supply, symbol counters) as it is, for
    one request and for any number of requests of cached depths; and no
    later request to the explorer, cached or not, changes the list cached
    at [depth]. (Expanding the next depth from the cached states advances
    their symbol counters, which are kept in [symbol_ids].) *)
Theorem cached_frontier_is_reused_and_frozen w depth l :
  frontier_states (ctx w) !! depth = Some l →
  get_frontier (ctx w) depth = Cached l ∧
  (∀ credit,
     world (iterate args w (get_frontier (ctx w) depth) credit) = w ∧
     yielded (iterate args w (get_frontier (ctx w) depth) credit)
       = match credit with None => l | Some k => take k l end) ∧
  (∀ requests,
     Forall (λ r, is_Some (frontier_states (ctx w) !! r.1)) requests →
     explore args w requests = w) ∧
  (∀ requests,
     frontier_states (ctx (explore args w requests)) !! depth = Some l).
Proof.
  intros Hd. split; [by apply get_frontier_cached|]. split; [|split].
  - intros credit. by rewrite (get_frontier_cached _ _ _ Hd).
  - intros requests. unfold explore.
    induction requests as [|r requests IH]; intros Hall; [done|].
    inversion Hall as [|? ? [l' Hr] Hrest]; subst. simpl.
    rewrite (get_frontier_cached _ _ _ Hr). simpl. by apply IH.
  - intros requests. by apply explore_keeps_cached.
Qed.

End frontier_facts.

Lemma cached_frontier_is_reused_and_frozen_witness :
  let w := @initial_world Demo.stub Demo.setup_ex 0 in
  frontier_states (ctx w) !! 0 = Some [Demo.setup_ex] ∧
  get_frontier (ctx w) 0 = Cached [Demo.setup_ex] ∧
  frontier_states (ctx (@explore Demo.stub Demo.args w [(1, None); (0, None); (1, Some 1)]))
    !! 0 = Some [Demo.setup_ex].
Proof.
  intros w.
  assert (Hd : frontier_states (ctx w) !! 0 = Some [Demo.setup_ex])
    by (vm_compute; reflexivity).
  destruct (@cached_frontier_is_reused_and_frozen Demo.stub Demo.args w 0
              [Demo.setup_ex] Hd) as (Hget & _ & _ & Hkeep).
  split; [exact Hd|]. split; [exact Hget|]. apply Hkeep.
Defined.

(* ===================================================================== *)
(** ** The frontier explorer: what one post-state does to the context     *)
(* ===================================================================== *)

Section explorer_steps.
Context `{Collaborators}.
Variable args : HalmosConfig.

(** The body of the innermost loop either leaves cache, visited set, uid
    supply and output of the generator alone, or admits a successful
    post-state whose fingerprint was not visited. *)
Lemma process_post_cases depth pre_ex addr raw g :
  let g' := process_post depth pre_ex addr raw g in
  let post_id := get_state_id (path_slice raw) in
  let s' := advance depth (next_uid (world g)) pre_ex (context raw) (path_slice raw) in
  (frontier_states (ctx (world g')) = frontier_states (ctx (world g)) ∧
   visited (ctx (world g')) = visited (ctx (world g)) ∧
   next_uid (world g') = next_uid (world g) ∧
   yielded g' = yielded g ∧
   (is_stuck (context raw) = false → truthy (output_error (context raw)) = false →
    post_id ∈ visited (ctx (world g)) ∧ g' = g)) ∨
  (is_stuck (context raw) = false ∧
   truthy (output_error (context raw)) = false ∧
   (post_id ∉ visited (ctx (world g))) ∧
   frontier_states (ctx (world g'))
     = alter (λ next_exs, next_exs ++ [s']) depth (frontier_states (ctx (world g))) ∧
   visited (ctx (world g')) = {[post_id]} ∪ visited (ctx (world g)) ∧
   next_uid (world g') = S (next_uid (world g)) ∧
   yielded g' = yielded g ++ [s']).
Proof.
  intros g' post_id s'. subst g'. unfold process_post.
  destruct (is_stuck (context raw)) eqn:Ek; [left; by repeat split|].
  destruct (truthy (output_error (context raw))) eqn:Ee.
  { left. repeat case_match; by repeat split. }
  fold post_id. case_bool_decide as Hv.
  - left. by repeat split.
  - right. by repeat split.
Qed.

(** An invariant of the world kept by every computation of a missing depth
    is kept by every run of the explorer. *)
Lemma explore_inv (I : World → Prop) w requests :
  I w →
  (∀ w depth credit, I w → frontier_states (ctx w) !! depth = None →
     I (world (_compute_frontier args w depth credit))) →
  I (explore args w requests).
Proof.
  intros Hw Hstep. unfold explore. revert w Hw.
  induction requests as [|[depth credit] requests IH]; intros w Hw; [done|].
  simpl. apply IH.
  destruct (frontier_states (ctx w) !! depth) as [l|] eqn:E.
  - by rewrite (get_frontier_cached _ _ _ E).
  - rewrite (get_frontier_lazy _ _ E). by apply Hstep.
Qed.

(** The shape of an invariant proof for [_compute_frontier]: the invariant
    may depend on the cache, the visited set and the uid supply only; it
    has to survive a call of [uid()], the installation of the empty list at
    the new depth, and the admission of a state whose predecessor is cached
    one depth below. *)
Lemma compute_frontier_world_inv (I : World → Prop) w depth credit :
  frontier_states (ctx w) !! depth = None →
  (∀ w1 w2, frontier_states (ctx w1) = frontier_states (ctx w2) →
            visited (ctx w1) = visited (ctx w2) →
            next_uid w1 = next_uid w2 → I w1 → I w2) →
  (∀ w1, I w1 → I (draw_uid w1)) →
  (∀ prev, depth = S prev → I w → I (set_ctx (frontier_set depth []) w)) →
  (∀ prev curr_exs pre_ex raw w1 w2,
     depth = S prev →
     frontier_states (ctx w1) !! prev = Some curr_exs → pre_ex ∈ curr_exs →
     is_Some (frontier_states (ctx w1) !! depth) →
     is_stuck (context raw) = false →
     truthy (output_error (context raw)) = false →
     get_state_id (path_slice raw) ∉ visited (ctx w1) →
     frontier_states (ctx w2)
       = alter (λ next_exs, next_exs ++
                  [advance depth (next_uid w1) pre_ex (context raw) (path_slice raw)])
               depth (frontier_states (ctx w1)) →
     visited (ctx w2) = {[get_state_id (path_slice raw)]} ∪ visited (ctx w1) →
     next_uid w2 = S (next_uid w1) →
     I w1 → I w2) →
  I w → I (world (_compute_frontier args w depth credit)).
Proof.
  intros Hnone Hext Huid Hset Hadmit Hw.
  unfold _compute_frontier.
  destruct depth as [|prev]; [done|].
  destruct (frontier_states (ctx w) !! prev) as [curr_exs|] eqn:Hcurr; [|done].
  set (P := λ g : Gen,
         I (world g) ∧
         is_Some (frontier_states (ctx (world g)) !! S prev) ∧
         ∀ d, d ≠ S prev →
              frontier_states (ctx (world g)) !! d = frontier_states (ctx w) !! d).
  assert (Hend : P (for_each (process_pre args (S prev)) (enumerate curr_exs)
                      (set_world (set_ctx (frontier_set (S prev) []))
                         {| world := w; yielded := []; credit := credit;
                            status := Running |}))).
  { apply (frontier_loop_inv args (S prev) curr_exs P).
    - by intros g s Hg.
    - intros g (Hg & Hsome & Hk). split; [by apply Huid|]. done.
    - intros g position (Hg & Hsome & Hk). split; [|done].
      by apply (Hext (world g)).
    - intros pre_ex addr raw g Hin _ (Hg & Hsome & Hk).
      assert (Hprev : frontier_states (ctx (world g)) !! prev = Some curr_exs).
      { rewrite Hk; [done | lia]. }
      destruct (process_post_cases (S prev) pre_ex addr raw g)
        as [(Hfs & Hv & Hu & _) | (Hs & He & Hnv & Hfs & Hv & Hu & _)].
      + split; [by apply (Hext (world g)) |]. rewrite Hfs. done.
      + split; [|split].
        * eapply (Hadmit prev curr_exs pre_ex raw (world g)); eauto.
        * rewrite Hfs, lookup_alter_eq. by apply fmap_is_Some.
        * intros d Hd. rewrite Hfs, lookup_alter_ne by done. by apply Hk.
    - split; [by eapply Hset|]. simpl. split.
      + rewrite lookup_insert_eq. eauto.
      + intros d Hd. by rewrite lookup_insert_ne. }
  destruct Hend as [Hend _]. by destruct (status _).
Qed.

End explorer_steps.

(* ===================================================================== *)
(** ** The frontier explorer: call sequences and timestamps               *)
(* ===================================================================== *)

Lemma timestamp_of_inj d1 u1 d2 u2 :
  timestamp_of d1 u1 = timestamp_of d2 u2 → d1 = d2 ∧ u1 = u2.
Proof. unfold timestamp_of. intros Heq. by simplify_eq. Qed.

Lemma advance_linked depth uid pre_ex subcall post_ex :
  linked depth pre_ex (advance depth uid pre_ex subcall post_ex).
Proof.
  split; [by exists subcall|]. split; [by exists uid|].
  simpl. by rewrite last_snoc.
Qed.

Section explorer_chains.
Context `{Collaborators}.
Variable args : HalmosConfig.
Variable setup_ex : Exec.

Lemma initial_world_well_linked uid : well_linked setup_ex (initial_world setup_ex uid).
Proof.
  split; [done|]. intros d l s Hl. simpl in Hl.
  by rewrite lookup_singleton_ne in Hl.
Qed.

Lemma compute_frontier_well_linked w depth credit :
  frontier_states (ctx w) !! depth = None →
  well_linked setup_ex w →
  well_linked setup_ex (world (_compute_frontier args w depth credit)).
Proof.
  intros Hnone. apply compute_frontier_world_inv; [done|..].
  - intros w1 w2 Hfs _ _. unfold well_linked. by rewrite Hfs.
  - done.
  - intros prev -> [H0 Hlink]. split.
    + simpl. by rewrite lookup_insert_ne.
    + intros d l s Hl Hs. simpl in Hl.
      destruct (decide (d = prev)) as [->|Hd].
      { rewrite lookup_insert_eq in Hl. simplify_eq. by apply not_elem_of_nil in Hs. }
      rewrite lookup_insert_ne in Hl by lia.
      destruct (Hlink d l s Hl Hs) as (lp & p & Hlp & Hp & Hps).
      exists lp, p. split; [|done]. simpl.
      rewrite lookup_insert_ne; [done|]. intros <-. congruence.
  - intros prev curr_exs pre_ex raw w1 w2 -> Hcurr Hpre _ _ _ _ Hfs _ _ [H0 Hlink].
    split.
    + rewrite Hfs, lookup_alter_ne; done.
    + intros d l s Hl Hs. rewrite Hfs in Hl.
      assert (Hmono : ∀ d' lp p, frontier_states (ctx w1) !! d' = Some lp → p ∈ lp →
                ∃ lp', frontier_states (ctx w2) !! d' = Some lp' ∧ p ∈ lp').
      { intros d' lp p Hlp Hp. rewrite Hfs.
        destruct (decide (d' = S prev)) as [->|Hd'].
        - rewrite lookup_alter_eq, Hlp. simpl. eexists. split; [done|].
          apply elem_of_app. by left.
        - rewrite lookup_alter_ne by done. eauto. }
      destruct (decide (d = prev)) as [->|Hd].
      * rewrite lookup_alter_eq in Hl.
        destruct (frontier_states (ctx w1) !! S prev) as [l0|] eqn:El0; [|done].
        simpl in Hl. simplify_eq.
        apply elem_of_app in Hs as [Hs | Hs%list_elem_of_singleton].
        -- destruct (Hlink prev l0 s El0 Hs) as (lp & p & Hlp & Hp & Hps).
           destruct (Hmono _ _ _ Hlp Hp) as (lp' & Hlp' & Hp'). eauto.
        -- subst s. destruct (Hmono _ _ _ Hcurr Hpre) as (lp' & Hlp' & Hp').
           exists lp', pre_ex. split; [done|]. split; [done|]. apply advance_linked.
      * rewrite lookup_alter_ne in Hl by lia.
        destruct (Hlink d l s Hl Hs) as (lp & p & Hlp & Hp & Hps).
        destruct (Hmono _ _ _ Hlp Hp) as (lp' & Hlp' & Hp'). eauto.
Qed.

Lemma explore_well_linked uid requests :
  well_linked setup_ex (explore args (initial_world setup_ex uid) requests).
Proof.
  apply explore_inv; [apply initial_world_well_linked|].
  intros w depth credit Hw Hnone. by apply compute_frontier_well_linked.
Qed.

(** In a well linked cache whose setup state has an empty call sequence,
    the call sequence of a state cached at depth [d] has [d] entries. *)
Lemma well_linked_length w :
  call_sequence setup_ex = [] → well_linked setup_ex w →
  ∀ d l s, frontier_states (ctx w) !! d = Some l → s ∈ l →
           length (call_sequence s) = d.
Proof.
  intros Hempty [H0 Hlink] d. induction d as [|d IH]; intros l s Hl Hs.
  - rewrite H0 in Hl. simplify_eq. apply list_elem_of_singleton in Hs.
    subst s. by rewrite Hempty.
  - destruct (Hlink d l s Hl Hs) as (lp & p & Hlp & Hp & (c & Hc) & _).
    rewrite Hc, length_app. simpl. rewrite (IH lp p Hlp Hp). lia.
Qed.

(** C6. In every run of the explorer that starts from a setup state with an
    empty call sequence: depth 0 of the cache is that state alone; the call
    sequence of a state cached at depth [d] has exactly [d] entries; and
    for [d >= 1] it is the call sequence of a state cached at depth [d - 1]
    followed by exactly one call context. *)
Theorem call_sequence_length_is_depth uid requests :
  call_sequence setup_ex = [] →
  let w := explore args (initial_world setup_ex uid) requests in
  frontier_states (ctx w) !! 0 = Some [setup_ex] ∧
  ∀ d l s, frontier_states (ctx w) !! d = Some l → s ∈ l →
    length (call_sequence s) = d ∧
    (1 ≤ d → ∃ lp p c, frontier_states (ctx w) !! (d - 1) = Some lp ∧ p ∈ lp ∧
                       call_sequence s = call_sequence p ++ [c]).
Proof.
  intros Hempty w.
  pose proof (explore_well_linked uid requests) as Hwl. fold w in Hwl.
  split; [apply Hwl|]. intros d l s Hl Hs.
  split; [by eapply well_linked_length|].
  intros Hd. destruct d as [|d]; [lia|].
  destruct Hwl as [_ Hlink].
  destruct (Hlink d l s Hl Hs) as (lp & p & Hlp & Hp & (c & Hc) & _).
  exists lp, p, c. replace (S d - 1) with d by lia. done.
Qed.

End explorer_chains.

Section explorer_timestamps.
Context `{Collaborators}.
Variable args : HalmosConfig.
Variable setup_ex : Exec.

Lemma fresh_names_weaken (l : list Exec) d n m :
  n ≤ m →
  Forall (λ s, ∃ uid, block_timestamp s = timestamp_of d uid ∧ uid < n) l →
  Forall (λ s, ∃ uid, block_timestamp s = timestamp_of d uid ∧ uid < m) l.
Proof.
  intros Hle Hall. eapply Forall_impl; [done|].
  intros s (u & Hu & Hlt). exists u. split; [done | lia].
Qed.

Lemma compute_frontier_fresh_names w depth credit :
  frontier_states (ctx w) !! depth = None →
  fresh_names w →
  fresh_names (world (_compute_frontier args w depth credit)).
Proof.
  intros Hnone. apply compute_frontier_world_inv; [done|..].
  - intros w1 w2 Hfs _ Hu. unfold fresh_names. by rewrite Hfs, Hu.
  - intros w1 Hw d l Hl. destruct (Hw d l Hl) as [Hnd Hall].
    split; [done|]. eapply fresh_names_weaken; [|done]. simpl. lia.
  - intros prev -> Hw d l Hl. simpl in Hl.
    destruct (decide (d = prev)) as [->|Hd].
    + rewrite lookup_insert_eq in Hl. simplify_eq. split; [constructor | done].
    + rewrite lookup_insert_ne in Hl by lia. by apply Hw.
  - intros prev curr_exs pre_ex raw w1 w2 -> _ _ _ _ _ _ Hfs _ Hu Hw d l Hl.
    rewrite Hfs in Hl. rewrite Hu.
    destruct (decide (d = prev)) as [->|Hd].
    + rewrite lookup_alter_eq in Hl.
      destruct (frontier_states (ctx w1) !! S prev) as [l0|] eqn:El0; [|done].
      simpl in Hl. simplify_eq. destruct (Hw prev l0 El0) as [Hnd Hall].
      split.
      * rewrite fmap_app. apply NoDup_app. split; [done|]. split; [|apply NoDup_singleton].
        intros t Ht Ht'. simpl in Ht'. apply list_elem_of_singleton in Ht'.
        apply list_elem_of_fmap in Ht as (s & -> & Hs).
        rewrite Forall_forall in Hall. destruct (Hall s Hs) as (u & Hts & Hlt).
        rewrite Hts in Ht'. apply timestamp_of_inj in Ht' as [_ ->]. lia.
      * apply Forall_app. split.
        -- eapply fresh_names_weaken; [|done]. lia.
        -- apply Forall_singleton. exists (next_uid w1). split; [done | lia].
    + rewrite lookup_alter_ne in Hl by lia. destruct (Hw d l Hl) as [Hnd Hall].
      split; [done|]. eapply fresh_names_weaken; [|done]. lia.
Qed.

Lemma explore_fresh_names uid requests :
  fresh_names (explore args (initial_world setup_ex uid) requests).
Proof.
  apply explore_inv.
  - intros d l Hl. simpl in Hl. by rewrite lookup_singleton_ne in Hl.
  - intros w depth credit Hw Hnone. by apply compute_frontier_fresh_names.
Qed.

(** C7. In every run of the explorer, each state [s] cached at a depth
    [d + 1] has a predecessor [p] cached at depth [d] such that the block
    timestamp of [s] is [ZeroExt(192, BitVec(name, 64))] with [name] made of
    the depth and a [uid()] value, and the last condition appended to the
    path of [s] is [s.timestamp >= p.timestamp]; no two states cached at
    the same depth have the same timestamp symbol. *)
Theorem timestamps_fresh_and_monotone uid requests d l :
  let w := explore args (initial_world setup_ex uid) requests in
  frontier_states (ctx w) !! S d = Some l →
  NoDup (block_timestamp <$> l) ∧
  ∀ s, s ∈ l →
    ∃ lp p u, frontier_states (ctx w) !! d = Some lp ∧ p ∈ lp ∧
      block_timestamp s = ZeroExt 192 (BitVec (TimestampName (S d) u) 64) ∧
      u < next_uid w ∧
      last (path s) = Some (Ge (block_timestamp s) (block_timestamp p)).
Proof.
  intros w Hl.
  pose proof (explore_fresh_names uid requests) as Hfresh. fold w in Hfresh.
  pose proof (explore_well_linked args setup_ex uid requests) as [_ Hlink]. fold w in Hlink.
  destruct (Hfresh d l Hl) as [Hnd Hall]. split; [done|].
  intros s Hs.
  destruct (Hlink d l s Hl Hs) as (lp & p & Hlp & Hp & _ & _ & Hlast).
  rewrite Forall_forall in Hall. destruct (Hall s Hs) as (u & Hts & Hlt).
  exists lp, p, u. by repeat split.
Qed.

End explorer_timestamps.

(* ===================================================================== *)
(** ** The frontier explorer: deduplication                               *)
(* ===================================================================== *)

Lemma filter_none {A} (P : A → Prop) `{∀ x, Decision (P x)} (l : list A) :
  (∀ x, x ∈ l → ¬ P x) → filter P l = [].
Proof.
  induction l as [|x l IH]; intros Hno; [done|].
  rewrite filter_cons_False by (apply Hno; left).
  apply IH. intros y Hy. apply Hno. by right.
Qed.

Section explorer_dedup.
Context `{Collaborators}.
Variable args : HalmosConfig.
Variable setup_ex : Exec.

Lemma initial_world_deduplicated uid : deduplicated setup_ex (initial_world setup_ex uid).
Proof.
  exists [(0, get_state_id setup_ex, setup_ex)]. split; [|split; [|split; [|split]]].
  - simpl. apply NoDup_singleton.
  - apply Forall_singleton. by left.
  - simpl. by rewrite union_empty_r_L.
  - intros e He%list_elem_of_singleton. subst e. simpl.
    rewrite lookup_singleton_eq. eauto.
  - intros d l Hl. simpl in Hl.
    destruct (decide (d = 0)) as [->|Hd].
    + rewrite lookup_singleton_eq in Hl. by simplify_eq.
    + by rewrite lookup_singleton_ne in Hl.
Qed.

Lemma compute_frontier_deduplicated w depth credit :
  frontier_states (ctx w) !! depth = None →
  deduplicated setup_ex w →
  deduplicated setup_ex (world (_compute_frontier args w depth credit)).
Proof.
  intros Hnone. apply compute_frontier_world_inv; [done|..].
  - intros w1 w2 Hfs Hv _. unfold deduplicated. by rewrite Hfs, Hv.
  - done.
  - intros prev -> (log & Hnd & Hcode & Hvis & Hdom & Hcache).
    exists log. split; [done|]. split; [done|]. split; [done|]. split.
    + intros e He. simpl. destruct (decide (e.1.1 = S prev)) as [->|Hne].
      * rewrite lookup_insert_eq. eauto.
      * rewrite lookup_insert_ne by done. by apply Hdom.
    + intros d l Hl. simpl in Hl. destruct (decide (d = S prev)) as [->|Hne].
      * rewrite lookup_insert_eq in Hl. simplify_eq.
        rewrite filter_none; [done|]. intros e He Hdepth.
        destruct (Hdom e He) as [l' Hl']. congruence.
      * rewrite lookup_insert_ne in Hl by done. by apply Hcache.
  - intros prev curr_exs pre_ex raw w1 w2 -> _ _ Hsome Hk He Hnv Hfs Hv _
           (log & Hnd & Hcode & Hvis & Hdom & Hcache).
    set (post_id := get_state_id (path_slice raw)) in *.
    set (s' := advance (S prev) (next_uid w1) pre_ex (context raw) (path_slice raw)) in *.
    exists (log ++ [(S prev, post_id, s')]).
    split; [|split; [|split; [|split]]].
    + rewrite fmap_app. apply NoDup_app. split; [done|]. split; [|apply NoDup_singleton].
      intros fp Hfp Hfp'. simpl in Hfp'. apply list_elem_of_singleton in Hfp'. subst fp.
      apply Hnv. rewrite Hvis. by apply elem_of_list_to_set.
    + apply Forall_app. split; [done|]. apply Forall_singleton.
      right. by exists prev, pre_ex, raw, (next_uid w1).
    + rewrite Hv, Hvis, fmap_app, list_to_set_app_L. simpl.
      rewrite union_empty_r_L. apply (comm_L _).
    + intros e Hin. rewrite Hfs.
      apply elem_of_app in Hin as [Hin | Hin%list_elem_of_singleton].
      * destruct (decide (e.1.1 = S prev)) as [->|Hne].
        -- rewrite lookup_alter_eq. by apply fmap_is_Some.
        -- rewrite lookup_alter_ne by done. by apply Hdom.
      * subst e. simpl. rewrite lookup_alter_eq. by apply fmap_is_Some.
    + intros d l Hl. rewrite Hfs in Hl. rewrite filter_app, fmap_app.
      destruct (decide (d = S prev)) as [->|Hne].
      * rewrite lookup_alter_eq in Hl.
        destruct (frontier_states (ctx w1) !! S prev) as [l0|] eqn:El0; [|done].
        simpl in Hl. simplify_eq. rewrite (Hcache _ _ El0).
        by rewrite filter_cons_True, filter_nil.
      * rewrite lookup_alter_ne in Hl by done.
        rewrite filter_cons_False by (simpl; congruence).
        rewrite filter_nil. simpl. rewrite app_nil_r. by apply Hcache.
Qed.

Lemma explore_deduplicated uid requests :
  deduplicated setup_ex (explore args (initial_world setup_ex uid) requests).
Proof.
  apply explore_inv; [apply initial_world_deduplicated|].
  intros w depth credit Hw Hnone. by apply compute_frontier_deduplicated.
Qed.

(** C2. A post-state that is neither stuck nor reverted is path-sliced and
    fingerprinted; if the fingerprint is in the visited set, nothing
    changes (no append, no yield); otherwise the fingerprint joins the
    visited set and the state, advanced, is appended to the cache entry of
    the depth and yielded. So, in every run of the explorer, the cached
    states and the visited set are accounted for by a record of admissions
    in which no fingerprint occurs twice. *)
Theorem visited_check_then_add uid requests :
  (∀ depth pre_ex addr raw g,
     is_stuck (context raw) = false →
     truthy (output_error (context raw)) = false →
     let g' := process_post depth pre_ex addr raw g in
     let post_id := get_state_id (path_slice raw) in
     let s' := advance depth (next_uid (world g)) pre_ex (context raw) (path_slice raw) in
     (post_id ∈ visited (ctx (world g)) → g' = g) ∧
     (post_id ∉ visited (ctx (world g)) →
        visited (ctx (world g')) = {[post_id]} ∪ visited (ctx (world g)) ∧
        frontier_states (ctx (world g'))
          = alter (λ next_exs, next_exs ++ [s']) depth (frontier_states (ctx (world g))) ∧
        yielded g' = yielded g ++ [s'])) ∧
  deduplicated setup_ex (explore args (initial_world setup_ex uid) requests).
Proof.
  split; [|apply explore_deduplicated].
  intros depth pre_ex addr raw g Hk He g' post_id s'.
  destruct (process_post_cases depth pre_ex addr raw g)
    as [(_ & _ & _ & _ & Hsame) | (_ & _ & Hnv & Hfs & Hv & _ & Hy)].
  - destruct (Hsame Hk He) as [Hin Heq]. split; [done|]. intros Hnot. by destruct Hnot.
  - split; [intros Hin; by destruct Hnv|]. intros _. by repeat split.
Qed.

End explorer_dedup.

(** The demo contract: [deposit()] reaches state 1, [withdraw()] reaches
    state 1 again (dropped) and state 2; from both, nothing new is found at
    depth 2. *)
Example explore_demo :
  let w := @explore Demo.stub Demo.args (@initial_world Demo.stub Demo.setup_ex 0)
                    [(1, None); (2, None)] in
  map machine <$> frontier_states (ctx w) !! 0 = Some [0] ∧
  map machine <$> frontier_states (ctx w) !! 1 = Some [1; 2] ∧
  map machine <$> frontier_states (ctx w) !! 2 = Some [] ∧
  size (visited (ctx w)) = 3 ∧
  symbol_ids w !! (0, 0) = Some 7 ∧
  next_uid w = 23.
Proof. vm_compute. by repeat split. Qed.

(* ===================================================================== *)
(** ** The statements at the demo contract                                *)
(* ===================================================================== *)

Lemma call_sequence_length_is_depth_witness :
  let w := @explore Demo.stub Demo.args (@initial_world Demo.stub Demo.setup_ex 0)
                    [(1, None)] in
  call_sequence Demo.setup_ex = [] ∧
  frontier_states (ctx w) !! 1 = Some Demo.frontier1 ∧
  Forall (λ s, length (call_sequence s) = 1) Demo.frontier1.
Proof.
  intros w.
  assert (Hl : frontier_states (ctx w) !! 1 = Some Demo.frontier1)
    by (vm_compute; reflexivity).
  destruct (@call_sequence_length_is_depth Demo.stub Demo.args Demo.setup_ex 0
              [(1, None)] eq_refl) as [_ Hlen].
  split; [reflexivity|]. split; [exact Hl|].
  apply Forall_forall. intros s Hs. exact (proj1 (Hlen 1 Demo.frontier1 s Hl Hs)).
Defined.

Lemma timestamps_fresh_and_monotone_witness :
  let w := @explore Demo.stub Demo.args (@initial_world Demo.stub Demo.setup_ex 0)
                    [(1, None)] in
  frontier_states (ctx w) !! 1 = Some Demo.frontier1 ∧
  NoDup (block_timestamp <$> Demo.frontier1).
Proof.
  intros w.
  assert (Hl : frontier_states (ctx w) !! 1 = Some Demo.frontier1)
    by (vm_compute; reflexivity).
  split; [exact Hl|].
  exact (proj1 (@timestamps_fresh_and_monotone Demo.stub Demo.args Demo.setup_ex 0
                  [(1, None)] 0 Demo.frontier1 Hl)).
Defined.

Lemma early_exit_then_blocking_drain_witness :
  let c' := (@solve_end_to_end_callback Demo.stub Demo.args (FResult Demo.sat_output)
               Demo.empty_fctx).1 in
  valid_counterexamples c' = [Demo.cex] ∧
  pool_log c' = [Shutdown solving_ctx_executor false] ∧
  executor_is_shutdown c' = true.
Proof.
  intros c'. split; [reflexivity|].
  apply (proj1 (@early_exit_then_blocking_drain Demo.stub Demo.args)
           (FResult Demo.sat_output) Demo.empty_fctx); [discriminate | reflexivity].
Defined.

Lemma callback_ignores_shutdown_and_errors_witness :
  let future := FException (RaisedException "RuntimeError" "solver crashed") in
  let c' := (@solve_end_to_end_callback Demo.stub Demo.args future Demo.empty_fctx).1 in
  messages c' = [ErrorSolving (RaisedException "RuntimeError" "solver crashed")] ∧
  nothing_recorded Demo.empty_fctx c'.
Proof.
  intros future c'.
  destruct (proj2 (@callback_ignores_shutdown_and_errors Demo.stub Demo.args future
                     Demo.empty_fctx) _ eq_refl) as (Hm & Hn & _); [discriminate|].
  split; [exact Hm | exact Hn].
Defined.

Lemma visited_check_then_add_witness :
  let w := @initial_world Demo.stub Demo.setup_ex 0 in
  let g := {| world := w; yielded := []; credit := None; status := Running |} in
  let again := Demo.state (Demo.ok_call "noop()") 0 in
  @process_post Demo.stub 1 Demo.setup_ex 2%Z again g = g.
Proof.
  intros w g again.
  apply (proj1 (proj1 (@visited_check_then_add Demo.stub Demo.args Demo.setup_ex 0 [])
                  1 Demo.setup_ex 2%Z again g eq_refl eq_refl)).
  vm_compute. reflexivity.
Defined.

(* ===================================================================== *)
(** ** Further properties of the per-test driver                          *)
(* ===================================================================== *)

Section driver_more.
Context `{Collaborators}.
Variable args : HalmosConfig.

(** The callback never clears the shutdown flag, and with the flag set it
    records nothing. *)
Lemma callback_when_shutdown future c :
  executor_is_shutdown c = true →
  nothing_recorded c (solve_end_to_end_callback args future c).1.
Proof.
  intros Hs. destruct future as [|e|o]; simpl.
  - apply nothing_recorded_refl.
  - destruct e; simpl; try apply nothing_recorded_say;
      destruct (debug args); try apply nothing_recorded_say; apply nothing_recorded_refl.
  - rewrite Hs. apply nothing_recorded_refl.
Qed.

Lemma nothing_recorded_trans c1 c2 c3 :
  nothing_recorded c1 c2 → nothing_recorded c2 c3 → nothing_recorded c1 c3.
Proof.
  unfold nothing_recorded. intros (?&?&?&?&?&?) (?&?&?&?&?&?).
  repeat split; congruence.
Qed.

(** X1. Once the executor is shut down, the exploration loop records
    nothing more: callbacks return without effect, the next path makes the
    loop break before it is examined, and so at most one more path is taken
    from the generator. *)
Theorem shutdown_stops_exploration schedule idx d d0 rest :
  executor_is_shutdown (fctx d) = true →
  explore_paths args schedule idx d = (d0, rest) →
  nothing_recorded (fctx d) (fctx d0) ∧
  normal d0 = normal d ∧ potential d0 = potential d ∧ stuck d0 = stuck d ∧
  submitted_futures d0 = submitted_futures d ∧
  count_paths schedule - count_paths rest ≤ 1.
Proof.
  revert d. induction schedule as [|t schedule IH]; intros d Hs Hrun.
  - simpl in Hrun. injection Hrun as <- <-.
    split; [apply nothing_recorded_refl|]. repeat split; simpl; lia.
  - destruct t as [ex refused | future]; simpl in Hrun.
    + unfold loop_body in Hrun. simpl in Hrun. rewrite Hs in Hrun.
      injection Hrun as <- <-. simpl.
      split; [destruct (debug args); [apply nothing_recorded_say
                                     | apply nothing_recorded_refl]|].
      destruct (debug args); repeat split; simpl; lia.
    + pose proof (callback_when_shutdown future (fctx d) Hs) as Hcb.
      assert (Hs' : executor_is_shutdown (fctx (fire args future d)) = true).
      { unfold fire. simpl. destruct Hcb as (_ & _ & _ & _ & _ & ->). done. }
      destruct (IH _ Hs' Hrun) as (Hrec & Hn & Hp & Hk & Hf & Hc).
      split; [by eapply nothing_recorded_trans|].
      repeat split; try done.
Qed.

End driver_more.

Lemma shutdown_stops_exploration_witness :
  let c := executor_shutdown_nowait Demo.empty_fctx in
  let schedule := [NextPath (Demo.state (Demo.ok_call "peek()") 1) false;
                   NextPath (Demo.state (Demo.ok_call "peek()") 2) false] in
  executor_is_shutdown c = true ∧
  normal (@explore_paths Demo.stub Demo.args schedule 0 (initial_driver c)).1 = 0.
Proof.
  intros c schedule. split; [reflexivity|].
  destruct (@explore_paths Demo.stub Demo.args schedule 0 (initial_driver c))
    as [d0 rest] eqn:Hrun.
  exact (proj1 (proj2 (@shutdown_stops_exploration Demo.stub Demo.args schedule 0
                         (initial_driver c) d0 rest eq_refl Hrun))).
Defined.

Section driver_width.
Context `{Collaborators}.
Variable args : HalmosConfig.

Lemma width_check_passed (w p : nat) :
  negb (w =? 0) && (w <=? p) = false → w = 0 ∨ p < w.
Proof.
  intros Hw. apply andb_false_iff in Hw as [Hw | Hw].
  - left. by apply negb_false_iff, Nat.eqb_eq in Hw.
  - right. by apply Nat.leb_gt in Hw.
Qed.

Lemma triage_path_continue ex refused d d1 :
  triage_path args ex refused d = (d1, Continue) →
  width args = 0 ∨ path_id d < width args.
Proof.
  unfold triage_path, submit_potential, check_stuck.
  repeat case_match; simplify_eq; simpl in *; intros; simplify_eq;
    repeat case_match; simplify_eq; simpl in *;
    by apply width_check_passed.
Qed.

Lemma loop_body_continue idx ex refused d d1 :
  loop_body args idx ex refused d = (d1, Continue) →
  width args = 0 ∨ idx < width args.
Proof.
  unfold loop_body. simpl. destruct (executor_is_shutdown _); [done|].
  intros Ht. by apply triage_path_continue in Ht.
Qed.

(** X2. With a width limit [w > 0], the loop breaks after the path with
    identifier [w]: at most [w + 1] paths are taken from the generator. *)
Theorem width_bounds_paths schedule d d0 rest :
  0 < width args →
  explore_paths args schedule 0 d = (d0, rest) →
  count_paths schedule - count_paths rest ≤ width args + 1.
Proof.
  intros Hw.
  assert (Hgen : ∀ schedule idx d d0 rest,
            explore_paths args schedule idx d = (d0, rest) →
            count_paths rest ≤ count_paths schedule ∧
            count_paths schedule - count_paths rest
              ≤ if idx <? width args then width args + 1 - idx else 1).
  { clear schedule d d0 rest.
    induction schedule as [|t schedule IH]; intros idx d d0 rest Hrun.
    - simpl in Hrun. injection Hrun as <- <-. simpl. split; [lia|].
      destruct (idx <? width args); lia.
    - destruct t as [ex refused | future]; simpl in Hrun.
      + destruct (loop_body args idx ex refused d) as [d1 [|]] eqn:Hbody.
        * apply loop_body_continue in Hbody as [Hz | Hlt]; [lia|].
          apply IH in Hrun as [Hle Hrun]. simpl. split; [lia|].
          rewrite (proj2 (Nat.ltb_lt _ _) Hlt).
          destruct (S idx <? width args) eqn:E.
          -- apply Nat.ltb_lt in E. lia.
          -- apply Nat.ltb_ge in E. lia.
        * injection Hrun as <- <-. simpl. split; [lia|].
          destruct (idx <? width args) eqn:E; [apply Nat.ltb_lt in E|]; lia.
      + apply IH in Hrun. done. }
  intros Hrun. apply Hgen in Hrun as [_ Hrun].
  destruct (0 <? width args); lia.
Qed.

End driver_width.

Section driver_early_exit.
Context `{Collaborators}.
Variable args : HalmosConfig.

(** The callback only ever appends to the solver outputs. *)
Lemma callback_outputs_grow future c :
  ∃ l, solver_outputs (solve_end_to_end_callback args future c).1
       = solver_outputs c ++ l.
Proof.
  destruct future as [|e|o]; simpl.
  - exists []. by rewrite app_nil_r.
  - exists []. rewrite app_nil_r. by destruct e; simpl; try destruct (debug args).
  - destruct (executor_is_shutdown c); [exists []; by rewrite app_nil_r|].
    exists [o]. unfold triage_model.
    repeat case_match; simplify_eq; simpl; done.
Qed.

(** If the callback sets the shutdown flag, it has just recorded an output
    that is not unsat. *)
Lemma callback_sets_flag future c :
  executor_is_shutdown c = false →
  executor_is_shutdown (solve_end_to_end_callback args future c).1 = true →
  ∃ o, o ∈ solver_outputs (solve_end_to_end_callback args future c).1 ∧
       result o ≠ unsat.
Proof.
  intros Hs. destruct future as [|e|o]; simpl.
  - congruence.
  - destruct e; simpl; try destruct (debug args); simpl; congruence.
  - rewrite Hs. case_bool_decide as Hr.
    { destruct (unsat_core o); simpl; congruence. }
    intros Hflag. exists o. split; [|done].
    destruct (callback_outputs_grow (FResult o) c) as [l Hl].
    simpl in Hl. rewrite Hs in Hl. rewrite bool_decide_eq_false_2 in Hl by done.
    destruct (model o) as [m|] eqn:Em.
    + unfold triage_model in *.
      repeat case_match; simplify_eq; simpl in *;
        apply elem_of_app; right; by left.
    + simpl in Hflag. congruence.
Qed.

(** The exploration loop itself touches neither the outputs nor the flag. *)
Lemma loop_body_outputs idx ex refused d :
  solver_outputs (fctx (loop_body args idx ex refused d).1) = solver_outputs (fctx d) ∧
  executor_is_shutdown (fctx (loop_body args idx ex refused d).1)
    = executor_is_shutdown (fctx d).
Proof.
  unfold loop_body, triage_path, submit_potential, check_stuck.
  repeat case_match; simplify_eq; simpl; try done;
    repeat case_match; simplify_eq; simpl; done.
Qed.

Lemma fire_flag_explained future d :
  flag_explained (fctx d) → flag_explained (fctx (fire args future d)).
Proof.
  unfold flag_explained, fire. simpl. intros Hinv Hflag.
  destruct (executor_is_shutdown (fctx d)) eqn:Hs.
  - destruct (Hinv eq_refl) as (o & Ho & Hr).
    destruct (callback_outputs_grow future (fctx d)) as [l ->].
    exists o. split; [|done]. apply elem_of_app. by left.
  - by apply callback_sets_flag.
Qed.

Lemma explore_paths_flag_explained schedule idx d d0 rest :
  flag_explained (fctx d) →
  explore_paths args schedule idx d = (d0, rest) →
  flag_explained (fctx d0).
Proof.
  revert idx d. induction schedule as [|t schedule IH]; intros idx d Hinv Hrun.
  - simpl in Hrun. by injection Hrun as <- <-.
  - destruct t as [ex refused | future]; simpl in Hrun.
    + destruct (loop_body_outputs idx ex refused d) as [Ho Hf].
      assert (Hinv' : flag_explained (fctx (loop_body args idx ex refused d).1)).
      { unfold flag_explained. by rewrite Ho, Hf. }
      destruct (loop_body args idx ex refused d) as [d1 [|]]; simpl in *.
      * by eapply IH.
      * by injection Hrun as <- <-.
    + eapply IH; [|done]. by apply fire_flag_explained.
Qed.

Lemma drain_flag_explained rest d :
  flag_explained (fctx d) → flag_explained (fctx (drain args rest d)).
Proof.
  unfold drain. simpl. revert d. induction rest as [|t rest IH]; intros d Hinv; [done|].
  simpl. destruct t; [by apply IH|]. apply IH. by apply fire_flag_explained.
Qed.

(** X3. A run that ends with the executor shut down (an early exit) never
    passes: its exit code is COUNTEREXAMPLE or TIMEOUT, because the flag is
    only set by a callback that has recorded an output other than unsat,
    and recorded outputs are never removed. *)
Theorem early_exit_never_passes funsig bounded_loops c schedule d r :
  executor_is_shutdown c = false →
  run_test args funsig bounded_loops c schedule = Some (d, r) →
  executor_is_shutdown (fctx d) = true →
  exitcode r = value COUNTEREXAMPLE ∨ exitcode r = value TIMEOUT.
Proof.
  intros Hs Hres Hflag.
  destruct (run_test_stages args funsig bounded_loops c schedule)
    as (d0 & rest & Hrun & Hnone & Hsome).
  destruct (status_loop_ends args d0); [|rewrite Hnone in Hres; done].
  destruct Hsome as (d' & r' & Hres' & Hex & Hout & _); [done|].
  rewrite Hres in Hres'. injection Hres' as <- <-.
  assert (Hinv : flag_explained (fctx (drain args rest d0))).
  { apply drain_flag_explained. eapply explore_paths_flag_explained; [|done].
    unfold flag_explained. simpl. congruence. }
  assert (Hflag' : executor_is_shutdown (fctx (drain args rest d0)) = true).
  { revert Hres Hflag. unfold run_test. rewrite Hrun.
    destruct (negb _); [done|].
    destruct (minimal_json_output args), (verdict _); intros [= <- _]; done. }
  destruct (Hinv Hflag') as (o & Ho & Hr).
  rewrite Hex. unfold verdict.
  pose proof (classify_cases (solver_outputs (fctx (drain args rest d0)))
                (length (stuck (drain args rest d0)))
                (normal (drain args rest d0))) as (H1 & H2 & _).
  destruct (0 <? counter (solver_outputs (fctx (drain args rest d0))) (str sat)) eqn:Es;
    [apply ltb_counter in Es as Hsat | apply ltb_counter_false in Es as Hsat].
  - left. f_equal. by apply H1.
  - right. f_equal. apply H2. split; [done|].
    exists o. split; [done|]. destruct (result o) eqn:Er; try done.
    destruct Hsat. by exists o.
Qed.

End driver_early_exit.

Section driver_unsat.
Context `{Collaborators}.
Variable args : HalmosConfig.

Lemma callback_only_unsat future c :
  match future with FResult o => result o = unsat | _ => True end →
  only_unsat c → only_unsat (solve_end_to_end_callback args future c).1.
Proof.
  intros Hf (Hall & Hv & Hi). destruct future as [|e|o]; simpl.
  - done.
  - by destruct e; simpl; try destruct (debug args).
  - destruct (executor_is_shutdown c); [done|].
    rewrite bool_decide_eq_true_2 by done.
    destruct (unsat_core o); simpl; (split; [|done]);
      apply Forall_app; split; try done; by apply Forall_singleton.
Qed.

Lemma loop_body_only_unsat idx ex refused d :
  only_unsat (fctx d) → only_unsat (fctx (loop_body args idx ex refused d).1).
Proof.
  unfold only_unsat, loop_body, triage_path, submit_potential, check_stuck.
  repeat case_match; simplify_eq; simpl; try done;
    repeat case_match; simplify_eq; simpl; done.
Qed.

(** What is left of the schedule when the loop ends is its tail. *)
Lemma explore_paths_suffix schedule idx d d0 rest :
  explore_paths args schedule idx d = (d0, rest) → ∃ pre, schedule = pre ++ rest.
Proof.
  revert idx d. induction schedule as [|t schedule IH]; intros idx d Hrun.
  - simpl in Hrun. injection Hrun as <- <-. by exists [].
  - destruct t as [ex refused | future]; simpl in Hrun.
    + destruct (loop_body args idx ex refused d) as [d1 [|]].
      * apply IH in Hrun as [pre ->]. by exists (NextPath ex refused :: pre).
      * injection Hrun as <- <-. by exists [NextPath ex refused].
    + apply IH in Hrun as [pre ->]. by exists (Completes future :: pre).
Qed.

Lemma explore_paths_only_unsat schedule idx d d0 rest :
  all_unsat schedule → only_unsat (fctx d) →
  explore_paths args schedule idx d = (d0, rest) → only_unsat (fctx d0).
Proof.
  revert idx d. induction schedule as [|t schedule IH]; intros idx d Hall Hinv Hrun.
  - simpl in Hrun. by injection Hrun as <- <-.
  - inversion Hall as [|? ? Ht Hrest]; subst.
    destruct t as [ex refused | future]; simpl in Hrun.
    + pose proof (loop_body_only_unsat idx ex refused d Hinv) as Hinv'.
      destruct (loop_body args idx ex refused d) as [d1 [|]]; simpl in *.
      * by eapply IH.
      * by injection Hrun as <- <-.
    + eapply IH; [done | | done]. unfold fire. simpl. by apply callback_only_unsat.
Qed.

Lemma drain_only_unsat rest d :
  all_unsat rest → only_unsat (fctx d) → only_unsat (fctx (drain args rest d)).
Proof.
  unfold drain. simpl. revert d. induction rest as [|t rest IH]; intros d Hall Hinv; [done|].
  inversion Hall as [|? ? Ht Hrest]; subst. simpl.
  destruct t; [by apply IH|]. apply IH; [done|].
  unfold fire. simpl. by apply callback_only_unsat.
Qed.

(** X4. When every solver query of a test comes back unsat, no
    counterexample is recorded, the number of models is 0, and the exit
    code is PASS, STUCK or REVERT_ALL; it is PASS when a normal path was
    seen and no stuck path was recorded. *)
Theorem unsat_everywhere_passes funsig bounded_loops c schedule d r :
  only_unsat c → all_unsat schedule →
  run_test args funsig bounded_loops c schedule = Some (d, r) →
  valid_counterexamples (fctx d) = [] ∧ invalid_counterexamples (fctx d) = [] ∧
  num_models r = Some 0 ∧
  (exitcode r = value PASS ∨ exitcode r = value STUCK ∨ exitcode r = value REVERT_ALL) ∧
  (0 < normal d → stuck d = [] → exitcode r = value PASS).
Proof.
  intros Hc Hall Hres.
  destruct (run_test_stages args funsig bounded_loops c schedule)
    as (d0 & rest & Hrun & Hnone & Hsome).
  destruct (status_loop_ends args d0) eqn:Hends; [|rewrite Hnone in Hres; done].
  destruct Hsome as (d' & r' & Hres' & Hex & Hout & Hst & Hno & _); [done|].
  rewrite Hres in Hres'. injection Hres' as <- <-.
  destruct (explore_paths_suffix _ _ _ _ _ Hrun) as [pre Hpre].
  assert (Hrest : all_unsat rest).
  { unfold all_unsat in *. rewrite Hpre in Hall. by apply Forall_app in Hall as [_ ?]. }
  assert (Hinv : only_unsat (fctx (drain args rest d0))).
  { apply drain_only_unsat; [done|].
    exact (explore_paths_only_unsat schedule 0 (initial_driver c) d0 rest Hall Hc Hrun). }
  destruct Hinv as (Houts & Hv & Hi).
  assert (Hfinal : valid_counterexamples (fctx d) = valid_counterexamples (fctx (drain args rest d0))
                   ∧ invalid_counterexamples (fctx d)
                     = invalid_counterexamples (fctx (drain args rest d0))
                   ∧ num_models r = Some (length (valid_counterexamples (fctx d))
                                          + length (invalid_counterexamples (fctx d)))).
  { revert Hres. unfold run_test. rewrite Hrun, Hends. simpl.
    destruct (minimal_json_output args), (verdict _); intros [= <- <-]; done. }
  destruct Hfinal as (Hv' & Hi' & Hnm). rewrite Hv', Hi' in Hnm. rewrite Hv', Hi', Hv, Hi in *.
  assert (Hnosat : ¬ has sat (solver_outputs (fctx (drain args rest d0)))).
  { intros (o & Ho & Hr). rewrite Forall_forall in Houts. specialize (Houts o Ho). congruence. }
  assert (Hnounk : ¬ has unknown (solver_outputs (fctx (drain args rest d0)))).
  { intros (o & Ho & Hr). rewrite Forall_forall in Houts. specialize (Houts o Ho). congruence. }
  pose proof (classify_cases (solver_outputs (fctx (drain args rest d0)))
                (length (stuck (drain args rest d0)))
                (normal (drain args rest d0))) as (_ & _ & H3 & H4 & H5 & _).
  split; [done|]. split; [done|]. split; [done|]. rewrite Hex. unfold verdict. split.
  - destruct (length (stuck (drain args rest d0))) as [|k] eqn:Ek.
    + destruct (normal (drain args rest d0)) as [|n] eqn:En.
      * right. right. f_equal. by apply H4.
      * left. f_equal. apply H5. by repeat split.
    + right. left. f_equal. apply H3. repeat split; try done. lia.
  - intros Hn Hk. f_equal. apply H5. rewrite <- Hst, <- Hno, Hk. repeat split; try done. lia.
Qed.

End driver_unsat.

Section driver_accounting.
Context `{Collaborators}.
Variable args : HalmosConfig.

(** X5. The callback requests the shutdown of the executor in one case
    only: the early-exit policy is on and it has just appended a valid
    model of an output that is not unsat. Unsat results, results without a
    model, invalid models and failed futures never shut the executor down. *)
Theorem callback_shutdown_only_for_valid_model future c :
  executor_is_shutdown c = false →
  executor_is_shutdown (solve_end_to_end_callback args future c).1 = true →
  early_exit args = true ∧
  ∃ o m, future = FResult o ∧ result o ≠ unsat ∧ model o = Some m ∧
         is_valid m = true ∧
         valid_counterexamples (solve_end_to_end_callback args future c).1
           = valid_counterexamples c ++ [m].
Proof.
  intros Hs. destruct future as [|e|o]; simpl.
  - congruence.
  - destruct e; simpl; try destruct (debug args); simpl; congruence.
  - rewrite Hs. case_bool_decide as Hr.
    { destruct (unsat_core o); simpl; congruence. }
    destruct (model o) as [m|] eqn:Em; [|simpl; congruence].
    unfold triage_model.
    destruct (is_valid m) eqn:Ev, (early_exit args) eqn:Ee;
      repeat case_match; simplify_eq; simpl; try congruence;
      intros _; (split; [done|]); exists o, m; by repeat split.
Qed.

(** One pass through the loop body counts the path at most once. *)
Lemma loop_body_counts idx ex refused d :
  let d1 := (loop_body args idx ex refused d).1 in
  normal d1 + potential d1 + length (stuck d1)
    ≤ S (normal d + potential d + length (stuck d)).
Proof.
  unfold loop_body, triage_path, submit_potential, check_stuck.
  repeat case_match; simplify_eq; simpl;
    repeat case_match; simplify_eq; simpl; rewrite ?length_app; simpl; lia.
Qed.

Lemma explore_paths_counts schedule idx d d0 rest :
  explore_paths args schedule idx d = (d0, rest) →
  normal d0 + potential d0 + length (stuck d0)
    ≤ normal d + potential d + length (stuck d)
      + (count_paths schedule - count_paths rest).
Proof.
  revert idx d. induction schedule as [|t schedule IH]; intros idx d Hrun.
  - simpl in Hrun. injection Hrun as <- <-. lia.
  - destruct t as [ex refused | future]; simpl in Hrun.
    + pose proof (loop_body_counts idx ex refused d) as Hbody. simpl in Hbody.
      destruct (loop_body args idx ex refused d) as [d1 [|]] eqn:Hb; simpl in Hbody.
      * pose proof (explore_paths_path_id args _ _ _ _ _ Hrun) as [Hle _].
        apply IH in Hrun. simpl. lia.
      * injection Hrun as <- <-. simpl. lia.
    + apply IH in Hrun. simpl in *. exact Hrun.
Qed.

Lemma drain_potential rest d : potential (drain args rest d) = potential d.
Proof.
  unfold drain. simpl. revert d. induction rest as [|t rest IH]; intros d; [done|].
  simpl. destruct t; [apply IH|]. by rewrite IH.
Qed.

(** X6. In the path counts of a test result, the normal paths, the stuck
    paths and the potential paths together never exceed the total: each
    path taken from the generator is counted in at most one of the three. *)
Theorem path_counts_within_total funsig bounded_loops c schedule d r :
  minimal_json_output args = false →
  run_test args funsig bounded_loops c schedule = Some (d, r) →
  ∃ total, num_paths r = Some (total, normal d, length (stuck d)) ∧
           normal d + length (stuck d) + potential d ≤ total.
Proof.
  intros Hmin Hres.
  destruct (run_test_stages args funsig bounded_loops c schedule)
    as (d0 & rest & Hrun & Hnone & Hsome).
  destruct (status_loop_ends args d0) eqn:Hends; [|rewrite Hnone in Hres; done].
  destruct Hsome as (d' & r' & Hres' & _ & _ & Hst & Hno & _ & Hnum); [done|].
  rewrite Hres in Hres'. injection Hres' as <- <-. rewrite Hmin in Hnum.
  exists (path_id d0 + 1). split; [by rewrite Hnum, Hst, Hno|].
  assert (Hpot : potential d = potential d0).
  { revert Hres. unfold run_test. rewrite Hrun, Hends, Hmin. simpl.
    destruct (verdict _); intros [= <- _]; simpl; apply drain_potential. }
  destruct (drain_locals args rest d0) as [Hn Hk].
  rewrite Hst, Hno, Hn, Hk, Hpot.
  pose proof (explore_paths_counts _ _ _ _ _ Hrun) as Hcount. simpl in Hcount.
  destruct (explore_paths_path_id args _ _ _ _ _ Hrun) as [Hle Hpid]. simpl in Hpid.
  destruct (count_paths schedule - count_paths rest) as [|k]; simpl in Hpid; lia.
Qed.

(** X7. The futures are submitted in discovery order: their path
    identifiers are strictly increasing, so no two submitted queries carry
    the same identifier, and none exceeds the last identifier handed out. *)
Theorem submitted_path_ids_increase schedule d0 rest c :
  explore_paths args schedule 0 (initial_driver c) = (d0, rest) →
  StronglySorted lt (pc_path_id <$> submitted_futures d0) ∧
  Forall (λ p, pc_path_id p ≤ path_id d0) (submitted_futures d0).
Proof.
  assert (Hgen : ∀ schedule idx d d0 rest,
            StronglySorted lt (pc_path_id <$> submitted_futures d) →
            Forall (λ p, pc_path_id p < idx) (submitted_futures d) →
            explore_paths args schedule idx d = (d0, rest) →
            StronglySorted lt (pc_path_id <$> submitted_futures d0) ∧
            Forall (λ p, pc_path_id p < idx + (count_paths schedule - count_paths rest))
                   (submitted_futures d0)).
  { clear. induction schedule as [|t schedule IH]; intros idx d d0 rest Hs Hb Hrun.
    - simpl in Hrun. injection Hrun as <- <-. split; [done|].
      eapply Forall_impl; [done|]. simpl. intros; lia.
    - destruct t as [ex refused | future]; simpl in Hrun.
      + assert (Hbody : StronglySorted lt
                          (pc_path_id <$> submitted_futures (loop_body args idx ex refused d).1)
                        ∧ Forall (λ p, pc_path_id p < S idx)
                                 (submitted_futures (loop_body args idx ex refused d).1)).
        { assert (Hsnoc : StronglySorted lt
                            (pc_path_id <$> submitted_futures d ++
                               [{| pc_path_id := idx; query := to_smt2 (path ex) |}])
                          ∧ Forall (λ p, pc_path_id p < S idx)
                               (submitted_futures d ++
                                  [{| pc_path_id := idx; query := to_smt2 (path ex) |}])).
          { split.
            - rewrite fmap_app. simpl.
              clear -Hs Hb. induction (submitted_futures d) as [|p l IHl]; simpl.
              + repeat constructor.
              + inversion Hs; subst. inversion Hb; subst.
                constructor; [by apply IHl|].
                apply Forall_app. split; [done|]. by apply Forall_singleton.
            - apply Forall_app. split.
              + eapply Forall_impl; [done|]. simpl. intros; lia.
              + apply Forall_singleton. simpl. lia. }
          assert (Hkeep : Forall (λ p, pc_path_id p < S idx) (submitted_futures d)).
          { eapply Forall_impl; [done|]. simpl. intros; lia. }
          unfold loop_body, triage_path, submit_potential, check_stuck.
          repeat case_match; simplify_eq; simpl; try done;
            repeat case_match; simplify_eq; simpl; done. }
        destruct Hbody as [Hs1 Hb1].
        pose proof (explore_paths_path_id args schedule (S idx)) as Hle.
        destruct (loop_body args idx ex refused d) as [d1 [|]]; simpl in *.
        * destruct (Hle _ _ _ Hrun) as [Hle' _].
          destruct (IH _ _ _ _ Hs1 Hb1 Hrun) as [Hs2 Hb2]. split; [done|].
          eapply Forall_impl; [done|]. simpl. intros; lia.
        * injection Hrun as <- <-. split; [done|].
          eapply Forall_impl; [done|]. simpl. intros; lia.
      + eapply IH; [| |done]; done. }
  intros Hrun.
  destruct (Hgen schedule 0 (initial_driver c) d0 rest) as [Hs Hb]; try done.
  { simpl. constructor. }
  split; [done|].
  destruct (explore_paths_path_id args _ _ _ _ _ Hrun) as [Hle Hpid]. simpl in Hpid.
  eapply Forall_impl; [done|]. simpl. intros p Hp.
  destruct (count_paths schedule - count_paths rest) as [|k]; simpl in Hpid; lia.
Qed.

End driver_accounting.

(* ===================================================================== *)
(** ** Further properties of the frontier explorer                        *)
(* ===================================================================== *)

Section explorer_more.
Context `{Collaborators}.
Variable args : HalmosConfig.

Lemma compute_frontier_caches w prev curr_exs credit :
  frontier_states (ctx w) !! prev = Some curr_exs →
  frontier_states (ctx (world (_compute_frontier args w (S prev) credit))) !! S prev
  = Some (yielded (_compute_frontier args w (S prev) credit)).
Proof.
  intros Hcurr. unfold _compute_frontier. rewrite Hcurr.
  set (P := λ g : Gen, frontier_states (ctx (world g)) !! S prev = Some (yielded g)).
  assert (Hend : P (for_each (process_pre args (S prev)) (enumerate curr_exs)
                      (set_world (set_ctx (frontier_set (S prev) []))
                         {| world := w; yielded := []; credit := credit;
                            status := Running |}))).
  { apply (frontier_loop_inv args (S prev) curr_exs P); try done.
    - intros pre_ex addr raw g _ _ Hg. unfold P in *.
      destruct (process_post_cases (S prev) pre_ex addr raw g)
        as [(Hfs & _ & _ & Hy & _) | (_ & _ & _ & Hfs & _ & _ & Hy)].
      + by rewrite Hfs, Hy.
      + by rewrite Hfs, Hy, lookup_alter_eq, Hg.
    - unfold P. simpl. by rewrite lookup_insert_eq. }
  unfold P in Hend. by destruct (status _).
Qed.

(** X8. The generator yields exactly what it caches: at any point of its
    consumption, the cache entry of the depth being computed is the list of
    states yielded so far, in the same order. *)
Theorem yielded_is_cached w prev curr_exs credit :
  frontier_states (ctx w) !! prev = Some curr_exs →
  let g := _compute_frontier args w (S prev) credit in
  frontier_states (ctx (world g)) !! S prev = Some (yielded g).
Proof. intros Hcurr g. by eapply compute_frontier_caches. Qed.

Lemma extends_refl w : extends w w.
Proof. by repeat split. Qed.

Lemma extends_trans w1 w2 w3 : extends w1 w2 → extends w2 w3 → extends w1 w3.
Proof.
  intros (Hv & Hp & Hu & Hc) (Hv' & Hp' & Hu' & Hc'). repeat split.
  - set_solver.
  - set_solver.
  - lia.
  - by etrans.
Qed.

Lemma process_post_extends depth pre_ex addr raw g :
  extends (world g) (world (process_post depth pre_ex addr raw g)).
Proof.
  unfold process_post, extends.
  repeat case_match; simpl; repeat split; try done; try set_solver; try lia;
    by apply prefix_app_r.
Qed.

Lemma compute_frontier_extends w depth credit :
  extends w (world (_compute_frontier args w depth credit)).
Proof.
  apply (compute_frontier_inv args (λ g, extends w (world g))).
  - done.
  - intros g (Hv & Hp & Hu & Hc). repeat split; try done. simpl. lia.
  - done.
  - intros prev curr_exs -> Hcurr. split; [by repeat split|].
    intros pre_ex addr raw g _ _ Hg.
    eapply extends_trans; [done|]. apply process_post_extends.
  - apply extends_refl.
Qed.

(** X9. The visited set and the probe registry never shrink, the uid supply
    never goes back and console output is never withdrawn, over any
    sequence of frontier requests. *)
Theorem explore_extends w requests : extends w (explore args w requests).
Proof.
  unfold explore. revert w. induction requests as [|[depth credit] requests IH];
    intros w; [apply extends_refl|].
  simpl. eapply extends_trans; [|apply IH].
  destruct (frontier_states (ctx w) !! depth) as [l|] eqn:E.
  - rewrite (get_frontier_cached _ _ _ E). apply extends_refl.
  - rewrite (get_frontier_lazy _ _ E). apply compute_frontier_extends.
Qed.

Lemma reported_app c1 c2 : reported (c1 ++ c2) = reported c1 ++ reported c2.
Proof. unfold reported. apply omap_app. Qed.

Lemma process_post_probes_once depth pre_ex addr raw g :
  probes_once (world g) → probes_once (world (process_post depth pre_ex addr raw g)).
Proof.
  intros [Hnd Hset]. unfold process_post, probes_once.
  destruct (is_stuck (context raw)).
  { simpl. rewrite reported_app. simpl. by rewrite app_nil_r. }
  destruct (truthy (output_error (context raw))).
  - destruct (negb (is_panic_of raw)); [done|].
    case_bool_decide as Hin; [done|]. simpl. rewrite reported_app. simpl. split.
    + apply NoDup_app. split; [done|]. split; [|apply NoDup_singleton].
      intros f Hf Hf'. apply list_elem_of_singleton in Hf'. subst f.
      apply Hin. rewrite Hset. by apply elem_of_list_to_set.
    + rewrite list_to_set_app_L, Hset. simpl. rewrite union_empty_r_L.
      apply (comm_L _).
  - case_bool_decide; [done|]. simpl. done.
Qed.

(** X10. An assertion failure found during frontier expansion is printed
    once per function: over any sequence of frontier requests, no function
    occurs twice among the printed reports, and the probe registry holds
    exactly the functions that were printed. *)
Theorem probes_reported_once setup_ex uid requests :
  probes_once (explore args (initial_world setup_ex uid) requests).
Proof.
  assert (Hgen : ∀ w, probes_once w → probes_once (explore args w requests)).
  { unfold explore. induction requests as [|[depth credit] requests IH]; intros w Hw; [done|].
    simpl. apply IH.
    destruct (frontier_states (ctx w) !! depth) as [l|] eqn:E.
    - by rewrite (get_frontier_cached _ _ _ E).
    - rewrite (get_frontier_lazy _ _ E). simpl.
      apply (compute_frontier_inv args (λ g, probes_once (world g))); try done.
      intros prev curr_exs -> Hcurr. split; [done|].
      intros pre_ex addr raw g _ _ Hg. by apply process_post_probes_once. }
  apply Hgen. split; [constructor | done].
Qed.

(** X11. A post-state that is stuck or reverted is dropped: it is not
    cached and not yielded, the visited set stays as it is and no uid is
    taken; a stuck one leaves one error line and the probe registry as it
    is. *)
Theorem stuck_or_reverted_is_dropped depth pre_ex addr raw g :
  is_stuck (context raw) = true ∨ truthy (output_error (context raw)) = true →
  let g' := process_post depth pre_ex addr raw g in
  frontier_states (ctx (world g')) = frontier_states (ctx (world g)) ∧
  visited (ctx (world g')) = visited (ctx (world g)) ∧
  yielded g' = yielded g ∧ status g' = status g ∧
  next_uid (world g') = next_uid (world g) ∧
  (is_stuck (context raw) = true →
     console (world g') = console (world g)
       ++ [StuckError depth addr (get_stuck_reason (context raw))] ∧
     probes_reported (ctx (world g')) = probes_reported (ctx (world g))).
Proof.
  intros Hbad g'. subst g'. unfold process_post.
  destruct (is_stuck (context raw)) eqn:Ek; [by repeat split|].
  destruct Hbad as [?|Hbad]; [done|]. rewrite Hbad.
  repeat case_match; simpl; by repeat split.
Qed.

End explorer_more.

(* ===================================================================== *)
(** ** Further properties of the target invocation runner                 *)
(* ===================================================================== *)

Section runner_more.
Context `{Collaborators}.
Variable args : HalmosConfig.
Variable ex : Exec.
Variable addr : Address.
Variable cname : string.
Variable abi : gmap string string.

Lemma yield_from_elem x outs :
  AYield x ∈ yield_from outs → ∃ n, (n, x) ∈ outs.
Proof.
  unfold yield_from. induction outs as [|[k o] outs IH]; simpl.
  - intros Hin. by apply not_elem_of_nil in Hin.
  - rewrite !elem_of_app. intros [[Hin | Hin] | Hin].
    + apply elem_of_replicate in Hin as [? _]. done.
    + apply list_elem_of_singleton in Hin. injection Hin as ->.
      exists k. by left.
    + destruct (IH Hin) as [n Hn]. exists n. by right.
Qed.

Lemma loop_yields methods solver fresh x :
  AYield x ∈ (loop args ex addr cname abi methods solver fresh).1 →
  ∃ fun_sig fun_selector mut symbols outs fin n,
    (fun_sig, fun_selector) ∈ methods ∧
    abi !! fun_sig = Some mut ∧ mut ≠ "pure"%string ∧ mut ≠ "view"%string ∧
    attempt ex addr {| contract_name := cname; fname := split_paren fun_sig;
                       sig := fun_sig; selector := fun_selector |}
      = Runs symbols outs fin ∧
    (n, x) ∈ outs.
Proof.
  revert solver fresh.
  induction methods as [|[fun_sig fun_selector] methods IH]; intros solver fresh.
  { simpl. intros Hin. by apply not_elem_of_nil in Hin. }
  assert (Hlift : ∀ solver' fresh',
            AYield x ∈ (loop args ex addr cname abi methods solver' fresh').1 →
            ∃ fun_sig0 fun_selector0 mut symbols outs fin n,
              (fun_sig0, fun_selector0) ∈ (fun_sig, fun_selector) :: methods ∧
              abi !! fun_sig0 = Some mut ∧ mut ≠ "pure"%string ∧ mut ≠ "view"%string ∧
              attempt ex addr {| contract_name := cname; fname := split_paren fun_sig0;
                                 sig := fun_sig0; selector := fun_selector0 |}
                = Runs symbols outs fin ∧
              (n, x) ∈ outs).
  { intros solver' fresh' Hin.
    destruct (IH _ _ Hin) as (s0 & l0 & mut & k & outs & fin & n & Hm & Hrest).
    exists s0, l0, mut, k, outs, fin, n. split; [by right | done]. }
  simpl. destruct (abi !! fun_sig) as [mut|] eqn:Hmut.
  2:{ simpl. intros Hin. by apply not_elem_of_nil in Hin. }
  case_bool_decide as Hview.
  - specialize (Hlift solver fresh).
    destruct (loop _ _ _ _ _ methods _ _) as [tr st]. simpl in *.
    intros Hin. apply elem_of_app in Hin as [Hin | Hin]; [|by apply Hlift].
    destruct (debug args); [|by apply not_elem_of_nil in Hin].
    apply list_elem_of_singleton in Hin. done.
  - assert (Hp : mut ≠ "pure"%string ∧ mut ≠ "view"%string).
    { split; intros ->; apply Hview; [left | right; left]. }
    destruct (attempt _ _ _) as [e | symbols e | symbols outs fin] eqn:Hatt.
    + destruct solver as [s|].
      * specialize (Hlift (Some s) fresh).
        destruct (loop _ _ _ _ _ methods _ _) as [tr st]. simpl in *.
        intros Hin. apply Hlift.
        by do 2 (apply elem_of_cons in Hin as [?|Hin]; [done|]).
      * simpl. intros Hin. by apply list_elem_of_singleton in Hin.
    + specialize (Hlift (Some fresh) (S fresh)).
      destruct (loop _ _ _ _ _ methods _ _) as [tr st]. simpl in *.
      intros Hin. apply Hlift.
      apply elem_of_cons in Hin as [?|Hin]; [done|].
      apply elem_of_app in Hin as [Hin | Hin].
      { apply elem_of_replicate in Hin as [? _]. done. }
      by do 2 (apply elem_of_cons in Hin as [?|Hin]; [done|]).
    + specialize (Hlift (Some fresh) (S fresh)).
      destruct (loop _ _ _ _ _ methods _ _) as [tr st]. simpl in *.
      intros Hin.
      apply elem_of_cons in Hin as [?|Hin]; [done|].
      apply elem_of_app in Hin as [Hin | Hin].
      { apply elem_of_replicate in Hin as [? _]. done. }
      do 6 (apply elem_of_cons in Hin as [?|Hin]; [done|]).
      apply elem_of_app in Hin as [Hin | Hin].
      { apply yield_from_elem in Hin as [n Hn].
        exists fun_sig, fun_selector, mut, symbols, outs, fin, n.
        split; [by left|]. by destruct Hp. }
      apply elem_of_app in Hin as [Hin | Hin].
      { destruct fin; simpl in Hin;
          [by apply list_elem_of_singleton in Hin | by apply not_elem_of_nil in Hin]. }
      apply Hlift. by apply elem_of_cons in Hin as [?|Hin].
Qed.

Lemma loop_stops methods solver fresh :
  expected_stop methods abi (loop args ex addr cname abi methods solver fresh).2.
Proof.
  revert solver fresh.
  induction methods as [|[fun_sig fun_selector] methods IH]; intros solver fresh.
  { by left. }
  assert (Hlift : ∀ s, expected_stop methods abi s →
                       expected_stop ((fun_sig, fun_selector) :: methods) abi s).
  { intros s [?|[?|[?|(s0 & l0 & Hm & Hrest)]]].
    - by left.
    - right. by left.
    - right. right. by left.
    - right. right. right. exists s0, l0. split; [by right | done]. }
  simpl. destruct (abi !! fun_sig) as [mut|] eqn:Hmut.
  2:{ right. right. right. exists fun_sig, fun_selector. split; [by left | done]. }
  case_bool_decide.
  - specialize (IH solver fresh). destruct (loop _ _ _ _ _ methods _ _). by apply Hlift.
  - destruct (attempt _ _ _).
    + destruct solver as [s|].
      * specialize (IH (Some s) fresh). destruct (loop _ _ _ _ _ methods _ _).
        by apply Hlift.
      * right. right. by left.
    + specialize (IH (Some fresh) (S fresh)). destruct (loop _ _ _ _ _ methods _ _).
      by apply Hlift.
    + specialize (IH (Some fresh) (S fresh)). destruct (loop _ _ _ _ _ methods _ _).
      by apply Hlift.
Qed.

End runner_more.

Section runner_theorems.
Context `{Collaborators}.
Variable args : HalmosConfig.

(** X12. Functions declared [pure] or [view] are never executed: every
    state [run_target_contract] yields was produced by running a function
    of the method table whose state mutability is neither of the two. *)
Theorem only_mutating_functions_run ex addr x :
  AYield x ∈ (run_target_contract args ex addr).1 →
  ∃ fun_sig fun_selector mut symbols outs fin n,
    let contract_json := get_by_name (contract_name_at ex addr) in
    (fun_sig, fun_selector) ∈ method_identifiers contract_json ∧
    abi contract_json !! fun_sig = Some mut ∧
    mut ≠ "pure"%string ∧ mut ≠ "view"%string ∧
    attempt ex addr {| contract_name := contract_name_at ex addr;
                       fname := split_paren fun_sig;
                       sig := fun_sig; selector := fun_selector |}
      = Runs symbols outs fin ∧
    (n, x) ∈ outs.
Proof.
  unfold run_target_contract. case_bool_decide.
  - simpl. intros Hin. by apply not_elem_of_nil in Hin.
  - apply loop_yields.
Qed.

(** X13. Every solver session [run_target_contract] creates is reset
    before the next function is tried and before the generator stops,
    whether the function ran to its end, raised, or the generator stops
    with an exception. *)
Theorem sessions_always_released ex addr :
  sessions_released None (run_target_contract args ex addr).1 = true.
Proof.
  unfold run_target_contract. case_bool_decide; [done|].
  apply loop_sessions_released.
Qed.

(** X14. [run_target_contract] stops in one of four ways: it reaches the
    end of the method table; [ValueError] for a contract without a name;
    [KeyError] for a function without ABI entry; [UnboundLocalError] from
    the [finally] clause. An exception raised by the interpreter never
    leaves the generator as such. *)
Theorem run_target_contract_stops ex addr :
  let contract_json := get_by_name (contract_name_at ex addr) in
  expected_stop (method_identifiers contract_json) (abi contract_json)
                (run_target_contract args ex addr).2.
Proof.
  unfold run_target_contract. case_bool_decide.
  - right. by left.
  - apply loop_stops.
Qed.

End runner_theorems.

(* ===================================================================== *)
(** ** The global fail flag                                               *)
(* ===================================================================== *)

(** X15. [is_global_fail_set] holds exactly when the call itself or some
    call below it, at any depth, ended with the [FailCheatcode] error. *)
Theorem is_global_fail_set_spec c :
  is_global_fail_set c = true ↔
  ∃ x, in_call_tree x c ∧ output_error x = FailCheatcode.
Proof.
  induction c as [f e r l IH] using CallContext_tree_ind. split.
  - simpl. intros Hor. apply orb_true_iff in Hor as [He | Hex].
    + exists (mkCallContext f e r l). split; [constructor|]. by destruct e.
    + apply existsb_exists in Hex as (c & Hc & Hfail).
      apply list_elem_of_In in Hc.
      rewrite Forall_forall in IH. apply (IH c Hc) in Hfail as (x & Hx & Hxe).
      exists x. split; [|done]. by eapply tree_below.
  - intros (x & Hx & Hxe). simpl. apply orb_true_iff.
    inversion Hx as [|f' e' r' l' c Hc Hbelow]; subst.
    + left. simpl in Hxe. by rewrite Hxe.
    + right. apply existsb_exists. exists c. split; [by apply list_elem_of_In|].
      rewrite Forall_forall in IH. apply (IH c Hc). eauto.
Qed.

(* ===================================================================== *)
(** ** The setup phase                                                    *)
(* ===================================================================== *)

Section setup_facts.
Context `{Collaborators}.

(** The loop with its early [break] keeps the first two feasible paths. *)
Lemma keep_feasible_take candidates setup_exs :
  length setup_exs ≤ 1 →
  (keep_feasible candidates setup_exs).1 = take 2 (setup_exs ++ feasible candidates).
Proof.
  revert setup_exs. induction candidates as [|[path_id [ex query]] rest IH];
    intros setup_exs Hlen; simpl.
  - rewrite app_nil_r. by rewrite take_ge by lia.
  - case_bool_decide as Hr.
    + rewrite length_app. simpl.
      destruct setup_exs as [|e [|e' l]]; simpl in *; [| |lia].
      * specialize (IH [ex]). simpl in IH.
        destruct (keep_feasible rest [ex]). simpl. apply IH. lia.
      * done.
    + specialize (IH setup_exs Hlen).
      destruct (keep_feasible rest setup_exs). simpl. apply IH.
Qed.

(** The queries are solved in path order, none twice, none skipped. *)
Lemma keep_feasible_solved candidates setup_exs :
  (keep_feasible candidates setup_exs).2
    `prefix_of` (λ c, {| pc_path_id := c.1; query := c.2.2 |}) <$> candidates.
Proof.
  revert setup_exs. induction candidates as [|[path_id [ex query]] rest IH];
    intros setup_exs; simpl; [done|].
  case_bool_decide.
  - destruct (1 <? length (setup_exs ++ [ex])).
    + simpl. apply prefix_cons, prefix_nil.
    + specialize (IH (setup_exs ++ [ex])). destruct (keep_feasible rest _).
      simpl in *. by apply prefix_cons.
  - specialize (IH setup_exs). destruct (keep_feasible rest _).
    simpl in *. by apply prefix_cons.
Qed.

(** X16. With two or more error-free setup paths, [setup] returns a state
    exactly when one of them is feasible (its query is not unsat), and then
    returns that path; with none it raises "No successful path", with more
    than one "Multiple paths". The early [break] of the loop does not
    change the outcome. *)
Theorem setup_selects_the_feasible_path setup_sig deployed setup_exs_all :
  setup_sig ≠ EmptyString →
  length (setup_exs_no_error setup_exs_all) ≠ 1 →
  (setup setup_sig deployed setup_exs_all).2
  = match feasible (enumerate (setup_exs_no_error setup_exs_all)) with
    | [] => inl (RaisedException "HalmosException"
                   ("No successful path found in " +:+ setup_sig))
    | [setup_ex] => inr setup_ex
    | _ => inl (RaisedException "HalmosException"
                  ("Multiple paths were found in " +:+ setup_sig))
    end.
Proof.
  intros Hsig Hlen. unfold setup. rewrite bool_decide_eq_false_2 by done.
  assert (Hkept : (feasible_setup_exs (setup_exs_no_error setup_exs_all)).1
                  = take 2 (feasible (enumerate (setup_exs_no_error setup_exs_all)))).
  { unfold feasible_setup_exs.
    destruct (setup_exs_no_error setup_exs_all) as [|[e q] [|c l]]; [done | done |].
    rewrite keep_feasible_take by (simpl; lia). done. }
  destruct (feasible_setup_exs _) as [kept solved]. simpl in Hkept. subst kept.
  by destruct (feasible _) as [|e1 [|e2 [|e3 l]]].
Qed.

(** X17. With exactly one error-free setup path, [setup] returns it without
    asking the solver, whether or not its path condition is satisfiable. *)
Theorem setup_single_path_is_not_solved setup_sig deployed setup_exs_all ex query :
  setup_sig ≠ EmptyString →
  setup_exs_no_error setup_exs_all = [(ex, query)] →
  setup setup_sig deployed setup_exs_all = ([], inr ex).
Proof.
  intros Hsig Hone. unfold setup. rewrite bool_decide_eq_false_2 by done.
  by rewrite Hone.
Qed.

Lemma setup_exs_no_error_elem ex query setup_exs_all :
  (ex, query) ∈ setup_exs_no_error setup_exs_all →
  ex ∈ setup_exs_all ∧ truthy (output_error (context ex)) = false.
Proof.
  unfold setup_exs_no_error. intros Hin.
  apply list_elem_of_omap in Hin as (e & He & Hsome).
  destruct (truthy (output_error (context e))) eqn:Et; [done|].
  by simplify_eq.
Qed.

Lemma feasible_elem ex (candidates : list (nat * (Exec * SMTQuery))) :
  ex ∈ feasible candidates → ∃ path_id query, (path_id, (ex, query)) ∈ candidates.
Proof.
  unfold feasible. intros Hin.
  apply list_elem_of_omap in Hin as ([path_id [e query]] & He & Hsome).
  case_bool_decide; [|done]. simplify_eq. eauto.
Qed.

(** X18. The state [setup] returns for a contract with a setup function is
    one of the paths of the setup call that ended without error; and the
    queries it has solved are an initial segment of the error-free paths'
    queries, in path order. *)
Theorem setup_returns_an_error_free_path setup_sig deployed setup_exs_all setup_ex :
  setup_sig ≠ EmptyString →
  (setup setup_sig deployed setup_exs_all).2 = inr setup_ex →
  setup_ex ∈ setup_exs_all ∧
  truthy (output_error (context setup_ex)) = false ∧
  (setup setup_sig deployed setup_exs_all).1
    `prefix_of` (λ c, {| pc_path_id := c.1; query := c.2.2 |})
                <$> enumerate (setup_exs_no_error setup_exs_all).
Proof.
  intros Hsig Hres. unfold setup in *. rewrite bool_decide_eq_false_2 in * by done.
  assert (Hsolved : (feasible_setup_exs (setup_exs_no_error setup_exs_all)).2
            `prefix_of` (λ c, {| pc_path_id := c.1; query := c.2.2 |})
                        <$> enumerate (setup_exs_no_error setup_exs_all)).
  { unfold feasible_setup_exs.
    destruct (setup_exs_no_error setup_exs_all) as [|[e q] [|c l]];
      [apply prefix_nil | apply prefix_nil |]. apply keep_feasible_solved. }
  assert (Hkept : ∀ e, e ∈ (feasible_setup_exs (setup_exs_no_error setup_exs_all)).1 →
                       ∃ q, (e, q) ∈ setup_exs_no_error setup_exs_all).
  { unfold feasible_setup_exs.
    destruct (setup_exs_no_error setup_exs_all) as [|[e q] [|c l]] eqn:Eno.
    - intros e' He'. by apply not_elem_of_nil in He'.
    - intros e' He'%list_elem_of_singleton. subst. exists q. by left.
    - intros e' He'. rewrite keep_feasible_take in He' by (simpl; lia).
      rewrite app_nil_l in He'. apply elem_of_take in He' as (i & Hi & _).
      apply list_elem_of_lookup_2 in Hi.
      apply feasible_elem in Hi as (path_id & query & Hc).
      unfold enumerate in Hc. apply elem_of_lookup_imap in Hc as (j & y & Heq & Hy).
      simplify_eq. exists query. by eapply list_elem_of_lookup_2. }
  destruct (feasible_setup_exs _) as [kept solved]. simpl in *.
  destruct kept as [|e1 [|e2 l]]; simpl in Hres; simplify_eq.
  destruct (Hkept setup_ex) as [q Hq]; [by left|].
  apply setup_exs_no_error_elem in Hq as [Hin Herr]. done.
Qed.

End setup_facts.

(* ===================================================================== *)
(** ** Choosing the setup function                                        *)
(* ===================================================================== *)

Lemma ascii_compare_refl a : Ascii.compare a a = Eq.
Proof. unfold Ascii.compare. apply N.compare_refl. Qed.

Lemma ascii_compare_lt_trans a b c :
  Ascii.compare a b = Lt → Ascii.compare b c = Lt → Ascii.compare a c = Lt.
Proof. unfold Ascii.compare. rewrite !N.compare_lt_iff. lia. Qed.

Lemma string_compare_refl s : String.compare s s = Eq.
Proof. induction s as [|a s IH]; simpl; [done|]. by rewrite ascii_compare_refl. Qed.

Lemma string_compare_lt_trans s1 s2 s3 :
  String.compare s1 s2 = Lt → String.compare s2 s3 = Lt → String.compare s1 s3 = Lt.
Proof.
  revert s2 s3. induction s1 as [|a s1 IH]; intros [|b s2] [|c s3]; simpl; try done.
  destruct (Ascii.compare a b) eqn:Eab; [|destruct (Ascii.compare b c) eqn:Ebc|]; try done.
  - apply Ascii.compare_eq_iff in Eab. subst b.
    destruct (Ascii.compare a c); try done. apply IH.
  - apply Ascii.compare_eq_iff in Ebc. subst c. by rewrite Eab.
  - by rewrite (ascii_compare_lt_trans a b c).
Qed.

Lemma string_leb_trans s1 s2 s3 :
  String.leb s1 s2 = true → String.leb s2 s3 = true → String.leb s1 s3 = true.
Proof.
  unfold String.leb.
  destruct (String.compare s1 s2) eqn:E12; [| |done];
    destruct (String.compare s2 s3) eqn:E23; try done; intros _ _.
  - apply String.compare_eq_iff in E12. subst. by rewrite E23.
  - apply String.compare_eq_iff in E12. subst. by rewrite E23.
  - apply String.compare_eq_iff in E23. subst. by rewrite E12.
  - by rewrite (string_compare_lt_trans s1 s2 s3).
Qed.

#[global] Instance pair_le_total : Total pair_le.
Proof.
  intros [k1 v1] [k2 v2]. unfold pair_le, pair_leb. simpl.
  rewrite (String.compare_antisym k2 k1).
  destruct (String.compare k1 k2); simpl; auto. apply String.leb_total.
Qed.

#[global] Instance pair_le_trans : Transitive pair_le.
Proof.
  intros [k1 v1] [k2 v2] [k3 v3]. unfold pair_le, pair_leb. simpl.
  destruct (String.compare k1 k2) eqn:E12; [| |done];
    destruct (String.compare k2 k3) eqn:E23; try done.
  - apply String.compare_eq_iff in E12, E23. subst.
    rewrite string_compare_refl. apply string_leb_trans.
  - apply String.compare_eq_iff in E12. subst. by rewrite E23.
  - apply String.compare_eq_iff in E23. subst. by rewrite E12.
  - by rewrite (string_compare_lt_trans k1 k2 k3).
Qed.

(** The last element of a sorted list is above all its elements. *)
Lemma sorted_last_max (l : list (string * string)) m x :
  last (sorted l) = Some m → x ∈ l → pair_le x m.
Proof.
  unfold sorted. intros Hlast Hx.
  pose proof (StronglySorted_merge_sort pair_le l) as Hs.
  assert (Hx' : x ∈ merge_sort pair_le l) by (by rewrite merge_sort_Permutation).
  clear Hx. revert Hlast Hx' Hs. generalize (merge_sort pair_le l). clear l.
  intros l. induction l as [|y l IH]; [done|].
  intros Hlast Hx Hs. inversion Hs as [|? ? Hs' Hall]; subst.
  destruct l as [|z l].
  - simpl in Hlast. injection Hlast as <-.
    apply list_elem_of_singleton in Hx. subst.
    match goal with |- pair_le ?a ?a => by destruct (pair_le_total a a) end.
  - apply elem_of_cons in Hx as [-> | Hx].
    + rewrite Forall_forall in Hall. apply Hall.
      change (last (y :: z :: l)) with (last (z :: l)) in Hlast.
      by apply last_Some_elem_of.
    + by apply IH.
Qed.

Lemma sorted_last_elem (l : list (string * string)) m :
  last (sorted l) = Some m → m ∈ l.
Proof.
  unfold sorted. intros Hlast. apply last_Some_elem_of in Hlast.
  by rewrite merge_sort_Permutation in Hlast.
Qed.

Lemma sorted_last_none (l : list (string * string)) :
  last (sorted l) = None ↔ l = [].
Proof.
  unfold sorted. rewrite last_None. split.
  - intros Hnil. apply Permutation_nil_r. by rewrite <- Hnil, merge_sort_Permutation.
  - by intros ->.
Qed.

Lemma prefix_cons_inv a s k :
  String.prefix (String a s) k = true → ∃ k', k = String a k' ∧ String.prefix s k' = true.
Proof.
  destruct k as [|c k]; [done|]. cbn [String.prefix].
  destruct (Ascii.ascii_dec a c) as [<-|]; [|done]. eauto.
Qed.

(** A signature that starts with [setUpSymbolic(] is above [setUp()]. *)
Lemma setUp_below_symbolic k :
  String.prefix "setUpSymbolic(" k = true → String.compare "setUp()" k = Lt.
Proof.
  intros Hp.
  do 6 (apply prefix_cons_inv in Hp as (? & -> & Hp)).
  reflexivity.
Qed.

(** X19. [extract_setup] returns the empty [FunctionInfo] exactly when the
    contract has neither [setUp()] nor a [setUpSymbolic(...)] function.
    Otherwise it returns one of these functions with its selector, the
    greatest in string order; so whenever a [setUpSymbolic(...)] function
    exists, one of them is chosen and [setUp()] is not. *)
Theorem extract_setup_picks_greatest ctx_name methodIdentifiers :
  let info := extract_setup ctx_name methodIdentifiers in
  let candidates := List.filter (λ kv, is_setup_sig kv.1) methodIdentifiers in
  (candidates = [] → info = no_function) ∧
  (candidates ≠ [] →
     (sig info, selector info) ∈ methodIdentifiers ∧
     is_setup_sig (sig info) = true ∧
     contract_name info = ctx_name ∧ fname info = split_paren (sig info) ∧
     (∀ k v, (k, v) ∈ methodIdentifiers → is_setup_sig k = true →
             String.leb k (sig info) = true) ∧
     ((∃ k v, (k, v) ∈ methodIdentifiers ∧ String.prefix "setUpSymbolic(" k = true) →
      String.prefix "setUpSymbolic(" (sig info) = true)).
Proof.
  intros info candidates. subst info. unfold extract_setup. fold candidates.
  assert (Hcand : ∀ kv, kv ∈ candidates ↔ kv ∈ methodIdentifiers ∧ is_setup_sig kv.1 = true).
  { intros kv. unfold candidates. rewrite !list_elem_of_In, filter_In. done. }
  split.
  - intros Hnil. by rewrite (proj2 (sorted_last_none candidates) Hnil).
  - intros Hne. destruct (last (sorted candidates)) as [[setup_sig setup_selector]|] eqn:Hlast.
    2:{ by apply sorted_last_none in Hlast. }
    simpl.
    pose proof (sorted_last_elem _ _ Hlast) as Hin. apply Hcand in Hin as [Hin Hsetup].
    assert (Hmax : ∀ k v, (k, v) ∈ methodIdentifiers → is_setup_sig k = true →
                          String.leb k setup_sig = true).
    { intros k v Hkv Hk.
      assert (Hle : pair_le (k, v) (setup_sig, setup_selector)).
      { eapply sorted_last_max; [done|]. apply Hcand. done. }
      unfold pair_le, pair_leb in Hle. simpl in Hle. unfold String.leb.
      by destruct (String.compare k setup_sig). }
    repeat split; try done.
    intros (k & v & Hkv & Hsym).
    assert (Hk : is_setup_sig k = true).
    { unfold is_setup_sig. rewrite Hsym. apply orb_true_r. }
    specialize (Hmax k v Hkv Hk). simpl in Hsetup. unfold is_setup_sig in Hsetup.
    apply orb_true_iff in Hsetup as [Heq | Hp]; [|done].
    apply String.eqb_eq in Heq. subst setup_sig.
    apply setUp_below_symbolic in Hsym.
    unfold String.leb in Hmax. rewrite String.compare_antisym, Hsym in Hmax. done.
Qed.

(* ===================================================================== *)
(** ** Running the tests of a contract                                    *)
(* ===================================================================== *)

Section run_tests_facts.
Context `{Collaborators}.
Variable test_attempt : string → nat → TestAttempt.
Variable invariant_depth : string → nat.

Lemma run_test_name args funsig bounded_loops c schedule d r :
  run_test args funsig bounded_loops c schedule = Some (d, r) → name r = funsig.
Proof.
  unfold run_test. destruct (explore_paths _ _ _ _) as [d0 rest].
  destruct (negb _); [done|].
  destruct (minimal_json_output args); intros [= <- <-]; done.
Qed.

Lemma run_tests_acc method_identifiers funsigs acc test_results :
  run_tests test_attempt invariant_depth method_identifiers funsigs acc = Done test_results →
  ∃ new, test_results = acc ++ new ∧ name <$> new = funsigs ∧
    ∀ i funsig e, funsigs !! i = Some funsig →
      test_attempt funsig (max_call_depth_of (invariant_depth funsig) funsig) = TestRaises e →
      new !! i = Some (exception_result funsig).
Proof.
  revert acc. induction funsigs as [|funsig rest IH]; intros acc Hrun; simpl in Hrun.
  - injection Hrun as <-. exists []. by rewrite app_nil_r.
  - destruct (method_identifiers !! funsig) as [selector|]; [|done].
    destruct (test_attempt funsig _) as [e | cfg c bl schedule] eqn:Hatt.
    + apply IH in Hrun as (new & -> & Hnames & Hexc).
      exists (exception_result funsig :: new). rewrite <- app_assoc. split; [done|].
      split; [by rewrite fmap_cons, Hnames|].
      intros [|i] funsig' e' Hi Hraise; simpl in *.
      * by injection Hi as <-.
      * by eapply Hexc.
    + destruct (run_test cfg funsig bl c schedule) as [[d r]|] eqn:Hres; [|done].
      apply IH in Hrun as (new & -> & Hnames & Hexc).
      exists (r :: new). rewrite <- app_assoc. split; [done|].
      split; [by rewrite fmap_cons, Hnames, (run_test_name _ _ _ _ _ _ _ Hres)|].
      intros [|i] funsig' e' Hi Hraise; simpl in *.
      * injection Hi as <-. congruence.
      * by eapply Hexc.
Qed.

(** X20. When [run_tests] returns, it returns one result per test function,
    in the order of the functions and each under the function's signature;
    a test whose preparation or run raised an exception has the result
    EXCEPTION (5) at its place, and the tests after it are still run. *)
Theorem run_tests_one_result_per_test method_identifiers funsigs test_results :
  run_tests test_attempt invariant_depth method_identifiers funsigs [] = Done test_results →
  name <$> test_results = funsigs ∧
  ∀ i funsig e, funsigs !! i = Some funsig →
    test_attempt funsig (max_call_depth_of (invariant_depth funsig) funsig) = TestRaises e →
    test_results !! i = Some (exception_result funsig).
Proof.
  intros Hrun. apply run_tests_acc in Hrun as (new & -> & Hnames & Hexc). done.
Qed.

(** X21. No exception raised inside a test leaves [run_tests]: the only
    exception it can end with is the [KeyError] for a test function that
    is missing from the method identifiers. *)
Theorem run_tests_fails_only_on_missing_selector method_identifiers funsigs acc e :
  run_tests test_attempt invariant_depth method_identifiers funsigs acc = Fails e →
  ∃ funsig, funsig ∈ funsigs ∧ method_identifiers !! funsig = None ∧
            e = KeyError funsig.
Proof.
  revert acc. induction funsigs as [|funsig rest IH]; intros acc Hrun; simpl in Hrun; [done|].
  destruct (method_identifiers !! funsig) as [selector|] eqn:Hsel.
  2:{ injection Hrun as <-. exists funsig. split; [by left | done]. }
  assert (Hrest : ∀ acc', run_tests test_attempt invariant_depth method_identifiers rest acc'
                          = Fails e →
                          ∃ funsig0, funsig0 ∈ funsig :: rest ∧
                                     method_identifiers !! funsig0 = None ∧
                                     e = KeyError funsig0).
  { intros acc' Hr. destruct (IH _ Hr) as (f & Hf & Hrest). exists f. split; [by right | done]. }
  destruct (test_attempt funsig _) as [e' | cfg c bl schedule]; [by eapply Hrest|].
  destruct (run_test cfg funsig bl c schedule) as [[d r]|]; [by eapply Hrest | done].
Qed.

Lemma run_test_returns args funsig bounded_loops c schedule :
  no_status args = true → is_Some (run_test args funsig bounded_loops c schedule).
Proof.
  intros Hno. unfold run_test. destruct (explore_paths _ _ _ _) as [d0 rest].
  unfold status_loop_ends. rewrite Hno. simpl.
  destruct (minimal_json_output args); eauto.
Qed.

Lemma run_tests_returns_acc method_identifiers funsigs acc :
  Forall (λ funsig, is_Some (method_identifiers !! funsig)) funsigs →
  (∀ funsig test_config c bounded_loops schedule,
     test_attempt funsig (max_call_depth_of (invariant_depth funsig) funsig)
     = TestRuns test_config c bounded_loops schedule →
     no_status test_config = true) →
  ∃ test_results,
    run_tests test_attempt invariant_depth method_identifiers funsigs acc = Done test_results ∧
    length test_results = length acc + length funsigs.
Proof.
  intros Hdecl Hno. revert acc.
  induction Hdecl as [|funsig rest [selector Hsel] _ IH]; intros acc; simpl.
  - exists acc. split; [done | lia].
  - rewrite Hsel.
    destruct (test_attempt funsig _) as [e | cfg c bl schedule] eqn:Hatt.
    + destruct (IH (acc ++ [exception_result funsig])) as (rs & -> & Hlen).
      exists rs. split; [done|]. rewrite length_app in Hlen. simpl in Hlen. lia.
    + destruct (run_test_returns cfg funsig bl c schedule (Hno _ _ _ _ _ Hatt))
        as [[d r] Hres].
      rewrite Hres.
      destruct (IH (acc ++ [r])) as (rs & -> & Hlen).
      exists rs. split; [done|]. rewrite length_app in Hlen. simpl in Hlen. lia.
Qed.

(** X26. The [KeyError] of [run_tests] cannot happen for the test functions
    [_main] passes, which it selects among the keys of the method
    identifiers: when moreover no test shows the progress display,
    [run_tests] returns, with as many results as there are test functions. *)
Theorem run_tests_returns_for_selected_tests (matches : string → bool)
    (methodIdentifiers : list (string * string)) :
  (∀ funsig test_config c bounded_loops schedule,
     test_attempt funsig (max_call_depth_of (invariant_depth funsig) funsig)
     = TestRuns test_config c bounded_loops schedule →
     no_status test_config = true) →
  let funsigs := List.filter matches methodIdentifiers.*1 in
  ∃ test_results,
    run_tests test_attempt invariant_depth (list_to_map methodIdentifiers) funsigs []
    = Done test_results ∧
    length test_results = length funsigs.
Proof.
  intros Hno funsigs.
  apply (run_tests_returns_acc (list_to_map methodIdentifiers) funsigs []); [|done].
  apply Forall_forall. intros funsig Hin.
  apply list_elem_of_In, filter_In in Hin as [Hin _]. apply list_elem_of_In in Hin.
  destruct (list_to_map methodIdentifiers !! funsig) as [v|] eqn:E; [eauto|].
  by apply not_elem_of_list_to_map in E.
Qed.

End run_tests_facts.

(* ===================================================================== *)
(** ** The entry point                                                    *)
(* ===================================================================== *)

Lemma path_in_map_spec p (m : list (string * list TestResult)) :
  path_in_map p m = true ↔ p ∈ m.*1.
Proof.
  unfold path_in_map. rewrite existsb_exists. split.
  - intros (x & Hx & Heq). apply String.eqb_eq in Heq. subst. by apply list_elem_of_In.
  - intros Hin. exists p. split; [by apply list_elem_of_In | apply String.eqb_refl].
Qed.

Lemma sum_failed_cons entry l :
  sum_failed (entry :: l) = (failed_of entry + sum_failed l)%Z.
Proof. done. Qed.

Lemma sum_found_cons entry l :
  sum_found (entry :: l) = (Z.of_nat (length (found_funsigs entry)) + sum_found l)%Z.
Proof. done. Qed.

Lemma main_loop_spec entries t t' :
  main_loop entries t = Done t' →
  let P := List.filter processed entries in
  total_failed t' = (total_failed t + sum_failed P)%Z ∧
  total_found t' = (total_found t + sum_found P)%Z ∧
  test_results_map t'
    = test_results_map t ++ ((λ entry, (contract_path entry, results_of entry)) <$> P) ∧
  Forall (λ entry, ∃ rs, contract_outcome entry = Done rs) P ∧
  (NoDup (test_results_map t).*1 → NoDup (test_results_map t').*1).
Proof.
  revert t. induction entries as [|entry rest IH]; intros t.
  { simpl. intros [= <-]. rewrite app_nil_r. repeat split; try lia; done. }
  cbn [main_loop List.filter].
  destruct (name_matches entry) eqn:Hm1; cbn [negb].
  2:{ assert (processed entry = false) as -> by (unfold processed; by rewrite Hm1).
      apply IH. }
  destruct (String.eqb (contract_type entry) "contract") eqn:Hm2; cbn [negb].
  2:{ assert (processed entry = false) as -> by (unfold processed; by rewrite Hm1, Hm2).
      apply IH. }
  destruct (length (found_funsigs entry)) as [|n] eqn:Hn.
  { assert (processed entry = false) as -> by (unfold processed; by rewrite Hm1, Hm2, Hn).
    apply IH. }
  assert (processed entry = true) as -> by (unfold processed; by rewrite Hm1, Hm2, Hn).
  change (Z.of_nat (S n) =? 0)%Z with false. cbn iota.
  destruct (contract_outcome entry) as [rs| |] eqn:Hout; try done.
  destruct (path_in_map (contract_path entry) (test_results_map t)) eqn:Hdup; [done|].
  intros Hrun.
  apply IH in Hrun as (Hf & Hn' & Hm & Hall & Hnd). cbn [total_failed total_found test_results_map] in *.
  rewrite sum_failed_cons, sum_found_cons, fmap_cons.
  unfold failed_of at 1. unfold results_of at 1. rewrite Hout, Hn.
  repeat split.
  - rewrite Hf. lia.
  - rewrite Hn'. lia.
  - rewrite Hm, <- app_assoc. done.
  - constructor; [eauto | done].
  - intros Hnd0. apply Hnd. rewrite fmap_app. apply NoDup_app.
    split; [done|]. split; [|apply NoDup_singleton].
    intros p Hp Hp'. simpl in Hp'. apply list_elem_of_singleton in Hp'. subst p.
    apply path_in_map_spec in Hp. congruence.
Qed.

Lemma passed_length (test_results : list TestResult) :
  let passed := List.filter (λ r, (exitcode r =? value PASS)%Z) test_results in
  length passed ≤ length test_results ∧
  (length passed = length test_results ↔
   Forall (λ r, exitcode r = value PASS) test_results).
Proof.
  induction test_results as [|r l [IHle IHeq]]; cbn [List.filter].
  - split; [done|]. split; [constructor | done].
  - destruct (exitcode r =? value PASS)%Z eqn:Er; cbn [length].
    + apply Z.eqb_eq in Er. split; [lia|]. split.
      * intros Heq. constructor; [done|]. apply IHeq. lia.
      * intros Hall. apply Forall_cons in Hall as [_ Hall]. apply IHeq in Hall. lia.
    + apply Z.eqb_neq in Er. split; [lia|]. split; [lia|].
      intros Hall. apply Forall_cons in Hall as [Hr _]. done.
Qed.

Lemma num_passed_full test_results :
  (num_passed test_results ≤ Z.of_nat (length test_results))%Z ∧
  (num_passed test_results = Z.of_nat (length test_results) ↔
   Forall (λ r, exitcode r = value PASS) test_results).
Proof.
  unfold num_passed. destruct (passed_length test_results) as [Hle Hiff].
  split; [lia|]. rewrite <- Hiff. lia.
Qed.

Lemma sum_failed_zero P :
  Forall (λ entry, length (results_of entry) ≤ length (found_funsigs entry)) P →
  Forall (λ entry, ∃ rs, contract_outcome entry = Done rs) P →
  (0 ≤ sum_failed P)%Z ∧ (sum_failed P = 0%Z ↔ Forall all_passed P).
Proof.
  induction P as [|entry P IH]; intros Hlen Hdone.
  { split; [done|]. split; [constructor | done]. }
  apply Forall_cons in Hlen as [Hl Hlen']. apply Forall_cons in Hdone as [[rs Hrs] Hdone'].
  destruct (IH Hlen' Hdone') as [Hnn Hiff].
  rewrite sum_failed_cons, Forall_cons.
  assert (Hentry : (0 ≤ failed_of entry)%Z ∧ (failed_of entry = 0%Z ↔ all_passed entry)).
  { unfold failed_of, all_passed, results_of in *. rewrite Hrs in *.
    destruct (num_passed_full rs) as [Hle Hfull].
    split; [lia|]. split.
    - intros Hz. assert (num_passed rs = Z.of_nat (length rs)) by lia.
      split; [lia | by apply Hfull].
    - intros [Hlen1 Hpass]. apply Hfull in Hpass. lia. }
  destruct Hentry as [Hen Heiff].
  split; [lia|]. rewrite <- Heiff, <- Hiff. lia.
Qed.

Lemma sum_found_pos P :
  Forall (λ entry, processed entry = true) P →
  (0 ≤ sum_found P)%Z ∧ (sum_found P = 0%Z ↔ P = []).
Proof.
  induction P as [|entry P IH]; intros Hp; [done|].
  apply Forall_cons in Hp as [He Hp']. destruct (IH Hp') as [Hnn _].
  unfold processed in He. apply andb_true_iff in He as [_ He].
  apply negb_true_iff, Nat.eqb_neq in He.
  rewrite sum_found_cons. split; [lia|]. split; [lia | done].
Qed.

(** What [_main] returns after a successful build, in terms of the
    contracts whose tests were run. *)
Lemma main_done entries r :
  _main false 0 false entries = Done r →
  let P := List.filter processed entries in
  Forall (λ entry, ∃ rs, contract_outcome entry = Done rs) P ∧
  NoDup (contract_path <$> P) ∧
  r = if (sum_found P =? 0)%Z
      then {| main_result := {| mr_exitcode := 1; mr_test_results := None |};
              on_exit_called := false |}
      else {| main_result :=
                {| mr_exitcode := if (sum_failed P =? 0)%Z then 0%Z else 1%Z;
                   mr_test_results :=
                     Some ((λ entry, (contract_path entry, results_of entry)) <$> P) |};
              on_exit_called := true |}.
Proof.
  unfold _main. simpl.
  destruct (main_loop entries _) as [t| |] eqn:Hloop; try done.
  apply main_loop_spec in Hloop as (Hf & Hn & Hm & Hdone & Hnd). simpl in *.
  set (P := List.filter processed entries) in *.
  rewrite Hn, Hf, Hm, !Z.add_0_l. intros Hr.
  split; [done|]. split.
  - assert (Hnd' : NoDup (test_results_map t).*1) by (apply Hnd; constructor).
    rewrite Hm in Hnd'. simpl in Hnd'. by rewrite <- list_fmap_compose in Hnd'.
  - destruct (sum_found P =? 0)%Z; by injection Hr as <-.
Qed.

Lemma processed_filter entries :
  Forall (λ entry, processed entry = true) (List.filter processed entries).
Proof.
  apply Forall_forall. intros e He. apply list_elem_of_In, filter_In in He. tauto.
Qed.

Lemma filter_keeps_bound entries :
  Forall (λ entry, length (results_of entry) ≤ length (found_funsigs entry)) entries →
  Forall (λ entry, length (results_of entry) ≤ length (found_funsigs entry))
         (List.filter processed entries).
Proof.
  intros Hlen. apply Forall_forall. intros e He.
  apply list_elem_of_In, filter_In in He as [He _]. apply list_elem_of_In in He.
  rewrite Forall_forall in Hlen. by apply Hlen.
Qed.

(** X22. [_main] exits with 0 exactly when it ran at least one test and
    every test that was found has a result with exit code PASS. With no
    matching test it exits with 1, returns no result map and does not go
    through [on_exit]; otherwise the map lists the contracts whose tests
    were run, in order, under pairwise different paths. *)
Theorem main_exit_code entries r :
  Forall (λ entry, length (results_of entry) ≤ length (found_funsigs entry)) entries →
  _main false 0 false entries = Done r →
  let P := List.filter processed entries in
  (mr_exitcode (main_result r) = 0%Z ∨ mr_exitcode (main_result r) = 1%Z) ∧
  (mr_exitcode (main_result r) = 0%Z ↔ P ≠ [] ∧ Forall all_passed P) ∧
  (P = [] → mr_test_results (main_result r) = None ∧ on_exit_called r = false) ∧
  (P ≠ [] →
     on_exit_called r = true ∧
     mr_test_results (main_result r)
       = Some ((λ entry, (contract_path entry, results_of entry)) <$> P) ∧
     NoDup (contract_path <$> P)).
Proof.
  intros Hlen Hmain. apply main_done in Hmain as (Hdone & Hnd & Hr). simpl in *.
  set (P := List.filter processed entries) in *.
  destruct (sum_found_pos P (processed_filter entries)) as [Hfn Hfz].
  destruct (sum_failed_zero P (filter_keeps_bound entries Hlen) Hdone) as [Hsn Hsz].
  destruct (sum_found P =? 0)%Z eqn:Efound.
  - apply Z.eqb_eq in Efound. apply Hfz in Efound. subst r. simpl.
    split; [by right|]. split; [split; [done | intros [? _]; done]|]. split; [done|done].
  - apply Z.eqb_neq in Efound.
    assert (Hne : P ≠ []) by (intros HPnil; apply Efound, Hfz, HPnil).
    subst r. simpl.
    split; [destruct (sum_failed P =? 0)%Z; auto|]. split; [|split; [done|]].
    + destruct (sum_failed P =? 0)%Z eqn:Ez.
      * apply Z.eqb_eq in Ez. split; [|done]. intros _. split; [done | by apply Hsz].
      * apply Z.eqb_neq in Ez. split; [done|]. intros [_ Hall]. by apply Hsz in Hall.
    + intros _. done.
Qed.

Section run_contract_facts.
Context `{Collaborators}.
Variable test_attempt : string → nat → TestAttempt.
Variable invariant_depth : string → nat.

Lemma run_contract_without_start ctx_name method_identifiers funsigs attempt uid :
  let run := run_contract test_attempt invariant_depth ctx_name method_identifiers
                          funsigs attempt uid in
  start run = None →
  results run = Done [] ∨ results run = Fails (UnboundLocalError "setup_solver").
Proof.
  unfold run_contract.
  destruct attempt as [e | e | deployed setup_exs_all]; simpl; [by right | by left |].
  destruct (setup _ deployed setup_exs_all) as [solved [e | setup_ex]]; simpl;
    [by left | done].
Qed.


End run_contract_facts.

(** X24. A contract with matching tests whose setup failed makes the whole
    run fail: [run_contract] returns no results for it, [_main] counts
    every test that was found as failed, and the exit code is 1. *)
Theorem failed_setup_fails_the_run `{Collaborators} test_attempt invariant_depth
    ctx_name method_identifiers funsigs attempt uid entries entry r :
  Forall (λ entry, length (results_of entry) ≤ length (found_funsigs entry)) entries →
  entry ∈ entries → processed entry = true →
  contract_outcome entry
    = results (run_contract test_attempt invariant_depth ctx_name method_identifiers
                            funsigs attempt uid) →
  start (run_contract test_attempt invariant_depth ctx_name method_identifiers
                      funsigs attempt uid) = None →
  _main false 0 false entries = Done r →
  mr_exitcode (main_result r) = 1%Z.
Proof.
  intros Hlen Hin Hproc Hout Hstart Hmain.
  apply main_done in Hmain as (Hdone & _ & Hr). simpl in *.
  set (P := List.filter processed entries) in *.
  assert (HinP : entry ∈ P).
  { apply list_elem_of_In, filter_In. split; [by apply list_elem_of_In | done]. }
  destruct (sum_found_pos P (processed_filter entries)) as [_ Hfz].
  destruct (sum_failed_zero P (filter_keeps_bound entries Hlen) Hdone) as [_ Hsz].
  assert (Hfound : (sum_found P =? 0)%Z = false).
  { apply Z.eqb_neq. intros Hz. apply Hfz in Hz. rewrite Hz in HinP.
    by apply not_elem_of_nil in HinP. }
  assert (Hfailed : (sum_failed P =? 0)%Z = false).
  { apply Z.eqb_neq. intros Hz. apply Hsz in Hz.
    rewrite Forall_forall in Hz. destruct (Hz entry HinP) as [Hfull _].
    unfold results_of in Hfull. rewrite Hout in Hfull.
    unfold processed in Hproc. apply andb_true_iff in Hproc as [_ Hpos].
    apply negb_true_iff, Nat.eqb_neq in Hpos.
    destruct (run_contract_without_start test_attempt invariant_depth ctx_name
                method_identifiers funsigs attempt uid Hstart) as [Hres | Hres];
      rewrite Hres in Hfull; simpl in Hfull; lia. }
  rewrite Hfound, Hfailed in Hr. by subst r.
Qed.

(* ===================================================================== *)
(** ** The sweep over the depths                                          *)
(* ===================================================================== *)

Section sweep_facts.
Context `{Collaborators}.
Variable args : HalmosConfig.

Lemma explore_app w r1 r2 :
  explore args w (r1 ++ r2) = explore args (explore args w r1) r2.
Proof. unfold explore. apply fold_left_app. Qed.

Lemma depth_requests_S max :
  depth_requests (S max) = depth_requests max ++ [(S max, None)].
Proof. unfold depth_requests. by rewrite (seq_S (S max)), fmap_app. Qed.

(** X25. The sweep of [run_message] asks for the depths in increasing
    order, so every frontier it asks for finds its predecessor cached: from
    a state in which depth 0 is cached, after the sweep up to
    [max_call_depth] every depth up to it is cached, and
    [frontier_states[depth - 1]] never raises. *)
Theorem depth_sweep_caches_every_depth w max_call_depth depth :
  is_Some (frontier_states (ctx w) !! 0) →
  depth ≤ max_call_depth →
  is_Some (frontier_states (ctx (explore args w (depth_requests max_call_depth))) !! depth).
Proof.
  intros H0. revert depth. induction max_call_depth as [|max IH]; intros depth Hle.
  - assert (depth = 0) as -> by lia.
    destruct H0 as [l Hl]. exists l. by apply explore_keeps_cached.
  - rewrite depth_requests_S, explore_app.
    set (w' := explore args w (depth_requests max)) in *.
    destruct (decide (depth = S max)) as [->|Hne].
    + destruct (IH max) as [curr_exs Hcurr]; [lia|]. fold w' in Hcurr.
      unfold explore. simpl.
      destruct (frontier_states (ctx w') !! S max) as [l|] eqn:E.
      * rewrite (get_frontier_cached _ _ _ E). simpl. rewrite E. eauto.
      * rewrite (get_frontier_lazy _ _ E).
        change (iterate args w' (Lazy (S max)) None)
          with (_compute_frontier args w' (S max) None).
        rewrite (compute_frontier_caches args w' max curr_exs None Hcurr). eauto.
    + destruct (IH depth) as [l Hl]; [lia|]. fold w' in Hl.
      exists l. by apply explore_keeps_cached.
Qed.

End sweep_facts.

(* ===================================================================== *)
(** ** The further statements at the demo contract                        *)
(* ===================================================================== *)

Lemma width_bounds_paths_witness :
  0 < width Demo2.args_width ∧
  count_paths Demo2.four_paths
  - count_paths (@explore_paths Demo.stub Demo2.args_width Demo2.four_paths 0
                   (initial_driver Demo.empty_fctx)).2 ≤ 3.
Proof.
  split; [simpl; lia|].
  destruct (@explore_paths Demo.stub Demo2.args_width Demo2.four_paths 0
              (initial_driver Demo.empty_fctx)) as [d0 rest] eqn:Hrun.
  exact (@width_bounds_paths Demo.stub Demo2.args_width Demo2.four_paths
           (initial_driver Demo.empty_fctx) d0 rest ltac:(simpl; lia) Hrun).
Defined.

Lemma early_exit_never_passes_witness :
  ∃ d r, @run_test Demo.stub Demo.args "check()" 0 Demo.empty_fctx Demo2.found_schedule
         = Some (d, r) ∧
         executor_is_shutdown (fctx d) = true ∧
         (exitcode r = value COUNTEREXAMPLE ∨ exitcode r = value TIMEOUT).
Proof.
  destruct (@run_test Demo.stub Demo.args "check()" 0 Demo.empty_fctx Demo2.found_schedule)
    as [[d r]|] eqn:Hres; [|vm_compute in Hres; discriminate].
  assert (Hshut : executor_is_shutdown (fctx d) = true).
  { vm_compute in Hres. by simplify_eq. }
  exists d, r. split; [reflexivity|]. split; [exact Hshut|].
  exact (@early_exit_never_passes Demo.stub Demo.args "check()" 0 Demo.empty_fctx
           Demo2.found_schedule d r eq_refl Hres Hshut).
Defined.

Lemma unsat_everywhere_passes_witness :
  only_unsat Demo.empty_fctx ∧ all_unsat Demo2.refuted_schedule ∧
  ∃ d r, @run_test Demo.stub Demo.args "check()" 0 Demo.empty_fctx Demo2.refuted_schedule
         = Some (d, r) ∧
         num_models r = Some 0 ∧ exitcode r = value PASS.
Proof.
  assert (Hc : only_unsat Demo.empty_fctx) by (split; [constructor | done]).
  assert (Hs : all_unsat Demo2.refuted_schedule) by (repeat constructor).
  split; [exact Hc|]. split; [exact Hs|].
  destruct (@run_test Demo.stub Demo.args "check()" 0 Demo.empty_fctx Demo2.refuted_schedule)
    as [[d r]|] eqn:Hres; [|vm_compute in Hres; discriminate].
  exists d, r. split; [reflexivity|].
  destruct (@unsat_everywhere_passes Demo.stub Demo.args "check()" 0 Demo.empty_fctx
              Demo2.refuted_schedule d r Hc Hs Hres) as (_ & _ & Hnum & _ & Hpass).
  split; [exact Hnum|].
  apply Hpass; vm_compute in Hres; simplify_eq; simpl; [lia | reflexivity].
Defined.

Lemma callback_shutdown_only_for_valid_model_witness :
  executor_is_shutdown
    (@solve_end_to_end_callback Demo.stub Demo.args (FResult Demo.sat_output)
       Demo.empty_fctx).1 = true ∧
  early_exit Demo.args = true.
Proof.
  split; [reflexivity|].
  exact (proj1 (@callback_shutdown_only_for_valid_model Demo.stub Demo.args
                  (FResult Demo.sat_output) Demo.empty_fctx eq_refl eq_refl)).
Defined.

Lemma path_counts_within_total_witness :
  minimal_json_output Demo.args = false ∧
  ∃ d r total,
    @run_test Demo.stub Demo.args "check()" 0 Demo.empty_fctx Demo2.refuted_schedule
    = Some (d, r) ∧
    num_paths r = Some (total, normal d, length (stuck d)) ∧
    normal d + length (stuck d) + potential d ≤ total.
Proof.
  split; [reflexivity|].
  destruct (@run_test Demo.stub Demo.args "check()" 0 Demo.empty_fctx Demo2.refuted_schedule)
    as [[d r]|] eqn:Hres; [|vm_compute in Hres; discriminate].
  destruct (@path_counts_within_total Demo.stub Demo.args "check()" 0 Demo.empty_fctx
              Demo2.refuted_schedule d r eq_refl Hres) as (total & Hnum & Hle).
  by exists d, r, total.
Defined.

Lemma submitted_path_ids_increase_witness :
  let d0 := (@explore_paths Demo.stub Demo.args Demo2.two_failing 0
               (initial_driver Demo.empty_fctx)).1 in
  length (submitted_futures d0) = 2 ∧
  StronglySorted lt (pc_path_id <$> submitted_futures d0).
Proof.
  intros d0. split; [reflexivity|]. subst d0.
  destruct (@explore_paths Demo.stub Demo.args Demo2.two_failing 0
              (initial_driver Demo.empty_fctx)) as [d0 rest] eqn:Hrun.
  exact (proj1 (@submitted_path_ids_increase Demo.stub Demo.args Demo2.two_failing
                  d0 rest Demo.empty_fctx Hrun)).
Defined.

Lemma yielded_is_cached_witness :
  let w := @initial_world Demo.stub Demo.setup_ex 0 in
  let g := @_compute_frontier Demo.stub Demo.args w 1 None in
  frontier_states (ctx w) !! 0 = Some [Demo.setup_ex] ∧
  yielded g = Demo.frontier1 ∧
  frontier_states (ctx (world g)) !! 1 = Some (yielded g).
Proof.
  intros w g.
  assert (H0 : frontier_states (ctx w) !! 0 = Some [Demo.setup_ex])
    by (vm_compute; reflexivity).
  split; [exact H0|]. split; [vm_compute; reflexivity|].
  exact (@yielded_is_cached Demo.stub Demo.args w 0 [Demo.setup_ex] None H0).
Defined.

Lemma stuck_or_reverted_is_dropped_witness :
  let w := @initial_world Demo.stub Demo.setup_ex 0 in
  let g := {| world := w; yielded := []; credit := None; status := Running |} in
  let raw := Demo.state (Demo.stuck_call "poke()") 7 in
  is_stuck (context raw) = true ∧
  yielded (@process_post Demo.stub 1 Demo.setup_ex 2%Z raw g) = [] ∧
  console (world (@process_post Demo.stub 1 Demo.setup_ex 2%Z raw g))
  = [StuckError 1 2%Z (Some "not supported"%string)].
Proof.
  intros w g raw.
  destruct (@stuck_or_reverted_is_dropped Demo.stub 1 Demo.setup_ex 2%Z raw g
              (or_introl eq_refl)) as (_ & _ & Hy & _ & _ & Hstuck).
  split; [reflexivity|]. split; [exact Hy|].
  exact (proj1 (Hstuck eq_refl)).
Defined.

Lemma only_mutating_functions_run_witness :
  let x := Demo.state (Demo.ok_call "deposit()") 1 in
  AYield x ∈ (@run_target_contract Demo.stub Demo.args Demo.setup_ex 2%Z).1 ∧
  ∃ fun_sig mut, abi Demo.json !! fun_sig = Some mut ∧
                 mut ≠ "pure"%string ∧ mut ≠ "view"%string.
Proof.
  intros x.
  assert (Hin : AYield x ∈ (@run_target_contract Demo.stub Demo.args Demo.setup_ex 2%Z).1).
  { apply list_elem_of_In. vm_compute. tauto. }
  split; [exact Hin|].
  destruct (@only_mutating_functions_run Demo.stub Demo.args Demo.setup_ex 2%Z x Hin)
    as (fun_sig & fun_selector & mut & symbols & outs & fin & n
        & _ & Habi & Hpure & Hview & _).
  by exists fun_sig, mut.
Defined.

Lemma setup_selects_the_feasible_path_witness :
  length (@setup_exs_no_error Demo.stub Demo2.setup_paths) = 2 ∧
  (@setup Demo.stub "setUp()" Demo.setup_ex Demo2.setup_paths).2
  = inl (RaisedException "HalmosException" "Multiple paths were found in setUp()") ∧
  (@setup Demo2.refuting "setUp()" Demo.setup_ex Demo2.setup_paths).2
  = inl (RaisedException "HalmosException" "No successful path found in setUp()").
Proof.
  split; [reflexivity|]. split.
  - rewrite (@setup_selects_the_feasible_path Demo.stub "setUp()" Demo.setup_ex
               Demo2.setup_paths ltac:(discriminate) ltac:(discriminate)).
    reflexivity.
  - rewrite (@setup_selects_the_feasible_path Demo2.refuting "setUp()" Demo.setup_ex
               Demo2.setup_paths ltac:(discriminate) ltac:(discriminate)).
    reflexivity.
Defined.

Lemma setup_single_path_is_not_solved_witness :
  let ex := Demo.state (Demo.ok_call "setUp()") 2 in
  @setup_exs_no_error Demo2.refuting Demo2.setup_one_path = [(ex, "(check-sat)"%string)] ∧
  @setup Demo2.refuting "setUp()" Demo.setup_ex Demo2.setup_one_path = ([], inr ex).
Proof.
  intros ex. split; [reflexivity|].
  exact (@setup_single_path_is_not_solved Demo2.refuting "setUp()" Demo.setup_ex
           Demo2.setup_one_path ex "(check-sat)" ltac:(discriminate) eq_refl).
Defined.

Lemma setup_returns_an_error_free_path_witness :
  let ex := Demo.state (Demo.ok_call "setUp()") 2 in
  (@setup Demo.stub "setUp()" Demo.setup_ex Demo2.setup_one_path).2 = inr ex ∧
  ex ∈ Demo2.setup_one_path ∧ truthy (output_error (context ex)) = false.
Proof.
  intros ex.
  destruct (@setup_returns_an_error_free_path Demo.stub "setUp()" Demo.setup_ex
              Demo2.setup_one_path ex ltac:(discriminate) eq_refl) as (Hin & Herr & _).
  split; [reflexivity|]. split; [exact Hin | exact Herr].
Defined.

Lemma run_tests_one_result_per_test_witness :
  ∃ test_results,
    @run_tests Demo.stub Demo2.test_attempt (λ _, 3) Demo2.test_ids ["check_a()"; "check_b()"] []
    = Done test_results ∧
    name <$> test_results = ["check_a()"; "check_b()"] ∧
    test_results !! 0 = Some (exception_result "check_a()").
Proof.
  destruct (@run_tests Demo.stub Demo2.test_attempt (λ _, 3) Demo2.test_ids
              ["check_a()"; "check_b()"] []) as [test_results| |] eqn:Hres;
    [|vm_compute in Hres; discriminate..].
  destruct (@run_tests_one_result_per_test Demo.stub Demo2.test_attempt (λ _, 3) Demo2.test_ids
              ["check_a()"; "check_b()"] test_results Hres) as [Hnames Hexc].
  exists test_results. split; [reflexivity|]. split; [exact Hnames|].
  exact (Hexc 0 "check_a()"
              (RaisedException "NotConcreteError" "symbolic size") eq_refl eq_refl).
Defined.

Lemma run_tests_fails_only_on_missing_selector_witness :
  ∃ e funsig,
    @run_tests Demo.stub Demo2.test_attempt (λ _, 3) Demo2.test_ids ["check_a()"; "check_c()"] []
    = Fails e ∧
    Demo2.test_ids !! funsig = None ∧ e = KeyError funsig.
Proof.
  destruct (@run_tests Demo.stub Demo2.test_attempt (λ _, 3) Demo2.test_ids
              ["check_a()"; "check_c()"] []) as [test_results|e|] eqn:Hres;
    [vm_compute in Hres; discriminate| |vm_compute in Hres; discriminate].
  destruct (@run_tests_fails_only_on_missing_selector Demo.stub Demo2.test_attempt (λ _, 3)
              Demo2.test_ids ["check_a()"; "check_c()"] [] e Hres)
    as (funsig & _ & Hnone & He).
  by exists e, funsig.
Defined.

Lemma main_exit_code_witness :
  let passing_build := [Demo2.a_library; Demo2.no_tests; Demo2.passes] in
  ∃ r, _main false 0 false passing_build = Done r ∧
       List.filter processed passing_build = [Demo2.passes] ∧
       mr_exitcode (main_result r) = 0%Z.
Proof.
  intros passing_build.
  destruct (_main false 0 false passing_build) as [r| |] eqn:Hmain;
    [|vm_compute in Hmain; discriminate..].
  assert (Hlen : Forall (λ entry, length (results_of entry) ≤ length (found_funsigs entry))
                        passing_build).
  { repeat constructor; simpl; lia. }
  destruct (@main_exit_code passing_build r Hlen Hmain) as (_ & Hiff & _).
  exists r. split; [reflexivity|]. split; [reflexivity|].
  apply Hiff. split; [discriminate|].
  repeat constructor.
Defined.

Lemma failed_setup_fails_the_run_witness :
  let build := [Demo2.passes; Demo2.setup_failed] in
  let failure := SetupRaises (RaisedException "HalmosException" "constructor reverted") in
  ∃ r, _main false 0 false build = Done r ∧
       contract_outcome Demo2.setup_failed
       = results (@run_contract Demo.stub Demo2.test_attempt (λ _, 3) "BankTest"
                    [("check_c()", "cccccccc")] ["check_c()"] failure 0) ∧
       mr_exitcode (main_result r) = 1%Z.
Proof.
  intros build failure.
  destruct (_main false 0 false build) as [r| |] eqn:Hmain;
    [|vm_compute in Hmain; discriminate..].
  assert (Hlen : Forall (λ entry, length (results_of entry) ≤ length (found_funsigs entry))
                        build).
  { repeat constructor; simpl; lia. }
  assert (Hin : Demo2.setup_failed ∈ build).
  { apply list_elem_of_In. simpl. tauto. }
  exists r. split; [reflexivity|]. split; [reflexivity|].
  exact (@failed_setup_fails_the_run Demo.stub Demo2.test_attempt (λ _, 3) "BankTest"
           [("check_c()", "cccccccc")] ["check_c()"] failure 0 build Demo2.setup_failed r
           Hlen Hin eq_refl eq_refl eq_refl Hmain).
Defined.

Lemma depth_sweep_caches_every_depth_witness :
  let w := @initial_world Demo.stub Demo.setup_ex 0 in
  is_Some (frontier_states (ctx w) !! 0) ∧
  is_Some (frontier_states (ctx (@explore Demo.stub Demo.args w (depth_requests 2))) !! 2).
Proof.
  intros w.
  assert (H0 : is_Some (frontier_states (ctx w) !! 0)).
  { exists [Demo.setup_ex]. vm_compute. reflexivity. }
  split; [exact H0|].
  exact (@depth_sweep_caches_every_depth Demo.stub Demo.args w 2 2 H0 ltac:(lia)).
Defined.

Lemma run_tests_returns_for_selected_tests_witness :
  let ids := [("check_a()", "aaaaaaaa"); ("check_b()", "bbbbbbbb");
              ("setUp()", "0a9254e4")]%string in
  ∃ test_results,
    @run_tests Demo.stub Demo2.test_attempt (λ _, 3) (list_to_map ids)
               ["check_a()"; "check_b()"] [] = Done test_results ∧
    length test_results = 2.
Proof.
  intros ids.
  refine (@run_tests_returns_for_selected_tests Demo.stub Demo2.test_attempt (λ _, 3)
            (String.prefix "check_") ids _).
  intros funsig test_config c bounded_loops schedule. unfold Demo2.test_attempt.
  destruct (String.eqb funsig "check_a()"); [discriminate|].
  intros [= <- _ _ _]. reflexivity.
Defined.
